(** * go-rendezvous: a shallow embedding of [util], [rdv], [rdvext] and of the
    obsolete promise design, with the properties of the specification.

    Goroutines are modelled by program counters that advance one statement
    at a time, channels by their buffer, capacity and closed flag, and a
    [context.Context] by its (monotone) error.  A run of a combinator is a
    schedule: the list of events (a goroutine step, the token firing, a
    step of the caller) in the order in which they happen.  Every function
    of the model is executable, so schedules can be evaluated. *)

From stdpp Require Import base option list strings pretty.
From Stdlib Require Import ZArith Lia.

Open Scope string_scope.
Open Scope list_scope.

(** ** Go values: interface values, errors, zero values *)

(** [interface{}] values that occur as panic payloads, and [error] values.
    [ErrorOf] is the struct of util.go; [ErrorsNew] is [errors.New];
    [Canceled] and [DeadlineExceeded] are the two errors of package
    context. *)
Inductive any : Type :=
| AnyNil
| AnyString (s : string)
| AnyInt (n : Z)
| AnyError (e : err_val)
with err_val : Type :=
| ErrorsNew (msg : string)
| Canceled
| DeadlineExceeded
| ErrorOf (Value : any).

(** The interface type [error]: [None] is Go's nil. *)
Definition error : Type := option err_val.

(** [fmt.Sprintf("%v", x)] and the method [Error] of the error values. *)
Fixpoint Sprintf_v (x : any) : string :=
  match x with
  | AnyNil => "<nil>"
  | AnyString s => s
  | AnyInt n => pretty n
  | AnyError e => Error e
  end
with Error (e : err_val) : string :=
  match e with
  | ErrorsNew msg => msg
  | Canceled => "context canceled"
  | DeadlineExceeded => "context deadline exceeded"
  | ErrorOf v => Sprintf_v v
  end.

(** The zero value of a Go type. *)
Class Zero (T : Type) : Type := zero : T.
Global Hint Mode Zero ! : typeclass_instances.

Global Instance Z_zero : Zero Z := 0%Z.
Global Instance nat_zero : Zero nat := 0.
Global Instance bool_zero : Zero bool := false.
Global Instance string_zero : Zero string := "".
Global Instance unit_zero : Zero unit := tt.
Global Instance option_zero {A} : Zero (option A) := None.

(** ** Package util *)

Module util.

(** [Tuple2] of util.go. *)
Record Tuple2 (T1 T2 : Type) : Type := mkTuple2 { X1 : T1; X2 : T2 }.
Arguments mkTuple2 {T1 T2} _ _.
Arguments X1 {T1 T2} _.
Arguments X2 {T1 T2} _.

Global Instance Tuple2_zero {T1 T2} `{Zero T1, Zero T2} : Zero (Tuple2 T1 T2) :=
  mkTuple2 zero zero.

(** What a call of a Go function [func() (U, error)] does: it returns its
    two results, or it panics with a payload. *)
Inductive outcome (U : Type) : Type :=
| Returned (res : U) (err : error)
| Panicked (v : any).
Arguments Returned {U} _ _.
Arguments Panicked {U} _.

(** A Go function [func() (U, error)]. *)
Definition func0 (U : Type) : Type := unit -> outcome U.

(** [ToError]: the type switch on [x]. *)
Definition ToError (x : any) : error :=
  match x with
  | AnyError e => Some e
  | _ => Some (ErrorOf x)
  end.

(** The builtin [recover], called in the deferred function of the
    wrapper: nil when the body returned, the panic value otherwise (with
    the Go 1.18 runtime of this library, a nil panic value is recovered
    as nil). *)
Definition recover {U} (o : outcome U) : any :=
  match o with
  | Returned _ _ => AnyNil
  | Panicked v => v
  end.

(** [SafeFunc0E]: the named results [res], [err] start at their zero
    values, [return f()] assigns them when [f] returns, and the deferred
    function overwrites [err] when [recover] is not nil. *)
Definition SafeFunc0E {U} `{Zero U} (f : func0 U) : func0 U :=
  fun _ =>
    let o := f tt in
    let '(res, err) :=
      match o with
      | Returned r e => (r, e)
      | Panicked _ => (zero, None)
      end in
    let err0 := recover o in
    let err :=
      match err0 with
      | AnyNil => err
      | _ => ToError err0
      end in
    Returned res err.

(** A Go function [func(T1) (U, error)], and [SafeFunc1E]: as
    [SafeFunc0E], with the argument passed on. *)
Definition func1 (T1 U : Type) : Type := T1 -> outcome U.

Definition SafeFunc1E {T1 U} `{Zero U} (f : func1 T1 U) : func1 T1 U :=
  fun t1 =>
    let o := f t1 in
    let '(res, err) :=
      match o with
      | Returned r e => (r, e)
      | Panicked _ => (zero, None)
      end in
    let err0 := recover o in
    let err :=
      match err0 with
      | AnyNil => err
      | _ => ToError err0
      end in
    Returned res err.

(** What a call of a Go function with one result, or with none, does: it
    returns, or it panics with a payload. *)
Inductive call (A : Type) : Type :=
| Ret (a : A)
| Pan (v : any).
Arguments Ret {A} _.
Arguments Pan {A} _.

(** [SafeFunc0VE], for a function [func() error]. *)
Definition SafeFunc0VE (f : unit -> call error) : unit -> call error :=
  let fu : func0 unit :=
    fun _ => match f tt with
             | Ret e => Returned tt e
             | Pan v => Panicked v
             end in
  fun _ =>
    match SafeFunc0E fu tt with
    | Returned _ err => Ret err
    | Panicked v => Pan v
    end.

(** [SafeFunc0], for a function [func() U]. *)
Definition SafeFunc0 {U} `{Zero U} (f : unit -> call U) : func0 U :=
  let fe : func0 U :=
    fun _ => match f tt with
             | Ret u => Returned u None
             | Pan v => Panicked v
             end in
  SafeFunc0E fe.

(** [SafeFunc0V], for a function [func()]. *)
Definition SafeFunc0V (f : unit -> call unit) : unit -> call error :=
  let fe : unit -> call error :=
    fun _ => match f tt with
             | Ret _ => Ret None
             | Pan v => Pan v
             end in
  SafeFunc0VE fe.

End util.

(** ** Channels *)

Module gochan.

(** A channel: the buffered elements (oldest first), the capacity it was
    made with, and whether it was closed. *)
Record chan (A : Type) : Type := mkChan { buf : list A; cap : nat; closed : bool }.
Arguments mkChan {A} _ _ _.
Arguments buf {A} _.
Arguments cap {A} _.
Arguments closed {A} _.

(** What an operation that may block or panic does. *)
Inductive result (R : Type) : Type :=
| Blocked
| Panic (msg : string)
| Ok (r : R).
Arguments Blocked {R}.
Arguments Panic {R} _.
Arguments Ok {R} _.

(** [make(chan A, n)]. *)
Definition make (A : Type) (n : nat) : chan A := mkChan [] n false.

(** [c <- x] with no receiver waiting: it goes through when the buffer has
    room, blocks when it has none, and panics on a closed channel. *)
Definition send {A} (c : chan A) (x : A) : result (chan A) :=
  if closed c then Panic "send on closed channel"
  else if (List.length (buf c) <? cap c)%nat then Ok (mkChan (buf c ++ [x]) (cap c) (closed c))
  else Blocked.

(** [<-c] with no sender waiting: the oldest buffered element; on an empty
    channel the zero value when the channel is closed, and otherwise the
    receive blocks. *)
Definition recv {A} `{Zero A} (c : chan A) : option (A * chan A) :=
  match buf c with
  | x :: rest => Some (x, mkChan rest (cap c) (closed c))
  | [] => if closed c then Some (zero, c) else None
  end.

(** [close(c)]. *)
Definition close {A} (c : chan A) : result (chan A) :=
  if closed c then Panic "close of closed channel"
  else Ok (mkChan (buf c) (cap c) true).

End gochan.

(** ** Cancellation tokens *)

Module context.

(** Why a context is done. *)
Inductive reason : Type := Cancelled | TimedOut.

(** The state of a [context.Context]: its [Done] channel is closed exactly
    when it has fired, and it never goes back. *)
Inductive Context : Type :=
| Live
| Fired (r : reason).

(** [ctx.Err()]. *)
Definition Err (ctx : Context) : error :=
  match ctx with
  | Live => None
  | Fired Cancelled => Some Canceled
  | Fired TimedOut => Some DeadlineExceeded
  end.

(** The token fires with reason [r]; a token that has fired keeps its
    first reason. *)
Definition fire (r : reason) (ctx : Context) : Context :=
  match ctx with
  | Live => Fired r
  | Fired r0 => Fired r0
  end.

End context.

(** ** errgroup *)

(** [golang.org/x/sync/errgroup], a dependency of the library, as its
    documentation describes it: [WithContext] derives a context that is
    cancelled when a function passed to [Go] returns a non-nil error for
    the first time or when [Wait] returns; [Wait] blocks until all the
    functions passed to [Go] have returned and then returns the first
    non-nil error, if any. *)
Module errgroup.
Import context.

(** A group: the count of its wait group, the error kept by its [errOnce]
    (nil until a member returns a non-nil error), and the state of the
    context derived for it. *)
Record Group : Type := mkGroup { wg : nat; err : error; gctx : Context }.

(** [errgroup.WithContext(parent)]. *)
Definition WithContext (parent : Context) : Group := mkGroup 0 None parent.

(** [g.Go(f)], in the caller: one more member to wait for. *)
Definition Go_add (g : Group) : Group := mkGroup (S (wg g)) (err g) (gctx g).

(** The end of the goroutine of [g.Go(f)], when [f] has returned [e]: the
    first non-nil error is kept and cancels the derived context, and the
    wait group is told. *)
Definition finish (e : error) (g : Group) : Group :=
  match e, err g with
  | Some _, None => mkGroup (pred (wg g)) e (fire Cancelled (gctx g))
  | _, _ => mkGroup (pred (wg g)) (err g) (gctx g)
  end.

(** [g.Wait()]: blocked while members are running. *)
Definition Wait (g : Group) : option (error * Group) :=
  match wg g with
  | 0 => Some (err g, mkGroup 0 (err g) (fire Cancelled (gctx g)))
  | S _ => None
  end.

(** The parent context fires: so does the derived one. *)
Definition parent_fired (r : reason) (g : Group) : Group :=
  mkGroup (wg g) (err g) (fire r (gctx g)).

End errgroup.

(** ** Package rdv *)

Module rdv.
Import util gochan context.

(** [rdvData]. *)
Record rdvData (T : Type) : Type :=
  mkData { value : T; err : error; chanOpen : bool }.
Arguments mkData {T} _ _ _.
Arguments value {T} _.
Arguments err {T} _.
Arguments chanOpen {T} _.

Global Instance rdvData_zero {T} `{Zero T} : Zero (rdvData T) :=
  mkData zero None false.

(** [Rdv]: the handle is its channel. *)
Record Rdv (T : Type) : Type := mkRdv { ch : chan (rdvData T) }.
Arguments mkRdv {T} _.
Arguments ch {T} _.

Definition closed_rendezvous : string :=
  "attempt to get data from closed rendezvous channel".

(** [Receive]: the results and the handle after the receive. *)
Definition Receive {T} `{Zero T} (rv : Rdv T) : result ((T * error) * Rdv T) :=
  match recv (ch rv) with
  | None => Blocked
  | Some (data, c) =>
      if negb (chanOpen data) then Panic closed_rendezvous
      else Ok ((value data, err data), mkRdv c)
  end.

(** [ReceiveWatch]: the select over [rv.ch] and [ctx.Done()].  A case is
    ready when its receive would not block; with no ready case the select
    blocks, with one it takes it, and with both ready the Go runtime
    chooses: [pick] is that choice ([true] for the channel). *)
Definition ReceiveWatch {T} `{Zero T} (rv : Rdv T) (ctx : Context) (pick : bool)
  : result ((T * error) * Rdv T) :=
  let data : rdvData T := zero in
  let from_channel '(data, c) :=
    if negb (chanOpen data) then Panic closed_rendezvous
    else Ok ((value data, err data), mkRdv c) in
  let from_done := Ok ((value data, Err ctx), rv) in
  match recv (ch rv), ctx with
  | None, Live => Blocked
  | None, Fired _ => from_done
  | Some got, Live => from_channel got
  | Some got, Fired _ => if pick then from_channel got else from_done
  end.

(** The goroutine that [Go] and [GoEg] start, by the statement it is about
    to run: the call of the wrapped function, the send of the record, the
    deferred close, for [GoEg] the return of the error to the group, and
    then it has exited.  [Crashed] is a goroutine stopped by a panic. *)
Inductive pc (T : Type) : Type :=
| Call
| Send (data : rdvData T)
| Close (e : error)
| Finish (e : error)
| Exited
| Crashed (msg : string).
Arguments Call {T}.
Arguments Send {T} _.
Arguments Close {T} _.
Arguments Finish {T} _.
Arguments Exited {T}.
Arguments Crashed {T} _.

(** A launched task: its goroutine and the handle that [Go] returned. *)
Record task (T : Type) : Type := mkTask { at_pc : pc T; rv : Rdv T }.
Arguments mkTask {T} _ _.
Arguments at_pc {T} _.
Arguments rv {T} _.

(** [Go(f)] and [GoEg(eg, f)] make the channel with capacity 1 and start
    the goroutine. *)
Definition launch (T : Type) : task T := mkTask Call (mkRdv (make (rdvData T) 1)).

(** One statement of the goroutine.  [f] is the function it was started
    with, as its call behaves now ([None]: the call cannot finish yet);
    [after_close] is what follows the deferred close.  [None] is a
    goroutine that cannot move: blocked, or no longer running. *)
Definition body_step {T} `{Zero T} (after_close : error -> pc T)
    (f : option (func0 T)) (t : task T) : option (task T) :=
  match at_pc t with
  | Call =>
      match f with
      | None => None
      | Some f =>
          let fs := SafeFunc0E f in
          match fs tt with
          | Returned res err => Some (mkTask (Send (mkData res err true)) (rv t))
          | Panicked v => Some (mkTask (Crashed (Sprintf_v v)) (rv t))
          end
      end
  | Send data =>
      match send (ch (rv t)) data with
      | Ok c => Some (mkTask (Close (err data)) (mkRdv c))
      | Panic msg => Some (mkTask (Crashed msg) (rv t))
      | Blocked => None
      end
  | Close e =>
      match close (ch (rv t)) with
      | Ok c => Some (mkTask (after_close e) (mkRdv c))
      | Panic msg => Some (mkTask (Crashed msg) (rv t))
      | Blocked => None
      end
  | Finish _ | Exited | Crashed _ => None
  end.

(** The goroutine of [Go]: after the close it is over. *)
Definition Go_step {T} `{Zero T} (f : option (func0 T)) (t : task T) : option (task T) :=
  body_step (fun _ => Exited) f t.

(** The goroutine of [GoEg], up to the return of [err] to the group. *)
Definition GoEg_step {T} `{Zero T} (f : option (func0 T)) (t : task T) : option (task T) :=
  body_step Finish f t.

(** [CtxApply]: [f] closed over the token.  A task function reads the
    token when it runs, so it is a function of the token's state. *)
Definition CtxApply {T} (ctx : Context) (f : Context -> outcome T) : func0 T :=
  fun _ => f ctx.

(** The pair [(v, e)] is what the wrapped task function returned, for the
    state in which it found the token. *)
Definition produced {T} `{Zero T} (f : Context -> outcome T) (v : T) (e : error) : Prop :=
  exists c, SafeFunc0E (CtxApply c f) tt = Returned v e.

(** The record that the goroutine of a task is about to send, and the
    records in its channel, are what its function returned. *)
Definition task_produced {T} `{Zero T} (f : Context -> outcome T) (t : task T) : Prop :=
  (forall d, at_pc t = Send d -> produced f (value d) (err d)) /\
  (forall d, d ∈ buf (ch (rv t)) -> produced f (value d) (err d)).

End rdv.

(** ** Schedules *)

(** A run of a system of goroutines is the list of its events in the order
    in which they happen; an event that cannot happen in the current state
    (a blocked operation, a goroutine that has exited) has no successor. *)
Fixpoint run {E S : Type} (step : E -> S -> option S) (sched : list E) (s : S) : option S :=
  match sched with
  | [] => Some s
  | ev :: rest =>
      match step ev s with
      | Some s' => run step rest s'
      | None => None
      end
  end.

(** ** One handle and its users *)

Module handle.
Import util gochan context rdv errgroup.

(** The events in the life of one handle: its goroutine runs its next
    statement, the token fires, and some goroutine that holds the handle
    completes a [Receive] or a [ReceiveWatch] on it. *)
Inductive event : Type :=
| HGo
| HFire (r : reason)
| HReceive
| HReceiveWatch (pick : bool).

(** The task, the token, the group for a task launched by [GoEg], and the
    records that receivers have taken from the channel so far. *)
Record state (T : Type) : Type :=
  mkState { htask : task T; hctx : Context; hgroup : option Group;
            taken : list (T * error) }.
Arguments mkState {T} _ _ _ _.
Arguments htask {T} _.
Arguments hctx {T} _.
Arguments hgroup {T} _.
Arguments taken {T} _.

(** [Go(f)] returns. *)
Definition Go_start {T} (c : Context) : state T := mkState (launch T) c None [].

(** [GoEg(eg, f)] returns. *)
Definition GoEg_start {T} (c : Context) (eg : Group) : state T :=
  mkState (launch T) c (Some (Go_add eg)) [].

(** Whether the select of [ReceiveWatch] takes the channel case. *)
Definition via_channel {T} `{Zero T} (rv : Rdv T) (ctx : Context) (pick : bool) : bool :=
  match recv (ch rv), ctx with
  | None, _ => false
  | Some _, Live => true
  | Some _, Fired _ => pick
  end.

(** One event.  The task function is called with the token: [f] gives
    what the call does for each state of the token. *)
Definition step {T} `{Zero T} (f : Context -> outcome T) (ev : event) (s : state T)
  : option (state T) :=
  match ev with
  | HGo =>
      match hgroup s with
      | None =>
          match Go_step (Some (CtxApply (hctx s) f)) (htask s) with
          | Some t' => Some (mkState t' (hctx s) None (taken s))
          | None => None
          end
      | Some g =>
          match at_pc (htask s) with
          | Finish e =>
              Some (mkState (mkTask Exited (rv (htask s))) (hctx s) (Some (finish e g))
                            (taken s))
          | _ =>
              match GoEg_step (Some (CtxApply (hctx s) f)) (htask s) with
              | Some t' => Some (mkState t' (hctx s) (Some g) (taken s))
              | None => None
              end
          end
      end
  | HFire r =>
      match hctx s with
      | Live => Some (mkState (htask s) (Fired r) (hgroup s) (taken s))
      | Fired _ => None
      end
  | HReceive =>
      match Receive (rv (htask s)) with
      | Ok (r, rv') =>
          Some (mkState (mkTask (at_pc (htask s)) rv') (hctx s) (hgroup s) (taken s ++ [r]))
      | _ => None
      end
  | HReceiveWatch pick =>
      match ReceiveWatch (rv (htask s)) (hctx s) pick with
      | Ok (r, rv') =>
          Some (mkState (mkTask (at_pc (htask s)) rv') (hctx s) (hgroup s)
                        (if via_channel (rv (htask s)) (hctx s) pick
                         then taken s ++ [r] else taken s))
      | _ => None
      end
  end.

(** The statements that the goroutine has still to run. *)
Definition remaining {T} (eg : bool) (p : pc T) : nat :=
  match p with
  | Call => if eg then 4 else 3
  | Send _ => if eg then 3 else 2
  | Close _ => if eg then 2 else 1
  | Finish _ => 1
  | Exited | Crashed _ => 0
  end.

(** The goroutine steps of a schedule. *)
Fixpoint own_steps (sched : list event) : nat :=
  match sched with
  | [] => 0
  | HGo :: rest => S (own_steps rest)
  | _ :: rest => own_steps rest
  end.

(** The start of the life of a handle: [Go] when [eg] is false, [GoEg] on
    the group [g] when it is true. *)
Definition start {T} (eg : bool) (c : Context) (g : Group) : state T :=
  if eg then GoEg_start c g else Go_start c.

(** The record has been sent, once: it is in the buffer, or a receiver has
    taken it. *)
Definition sent_once {T} (c : chan (rdvData T)) (taken : list (T * error)) : Prop :=
  (exists d, buf c = [d] /\ chanOpen d = true /\ taken = []) \/
  (buf c = [] /\ exists r, taken = [r]).

(** What holds of a handle all along its life. *)
Definition inv {T} (eg : bool) (s : state T) : Prop :=
  let c := ch (rv (htask s)) in
  cap c = 1 /\
  (if eg then is_Some (hgroup s) else hgroup s = None) /\
  match at_pc (htask s) with
  | Call => buf c = [] /\ closed c = false /\ taken s = []
  | Send d => buf c = [] /\ closed c = false /\ taken s = [] /\ chanOpen d = true
  | Close _ => closed c = false /\ sent_once c (taken s)
  | Finish _ => eg = true /\ closed c = true /\ sent_once c (taken s)
  | Exited => closed c = true /\ sent_once c (taken s)
  | Crashed _ => False
  end.

(** Every way of taking a record from the handle panics. *)
Definition receive_panics {T} `{Zero T} (s : state T) : Prop :=
  Receive (rv (htask s)) = Panic closed_rendezvous /\
  forall cx pick, cx = Live \/ pick = true ->
    ReceiveWatch (rv (htask s)) cx pick = Panic closed_rendezvous.

(** The records of a handle, sent or taken, are what the task function
    returned. *)
Definition records_inv {T} `{Zero T} (f : Context -> outcome T) (s : state T) : Prop :=
  task_produced f (htask s) /\
  (forall r, r ∈ taken s -> produced f r.1 r.2).

End handle.

(** ** Package rdvext: the collect-all combinators *)

Module rdvext.
Import util gochan context rdv.

(** [ResultWithError]. *)
Record ResultWithError (T : Type) : Type := mkResult { Value : T; Error : error }.
Arguments mkResult {T} _ _.
Arguments Value {T} _.
Arguments Error {T} _.

Global Instance ResultWithError_zero {T} `{Zero T} : Zero (ResultWithError T) :=
  mkResult zero None.

(** The events of a run: goroutine [j] runs its next statement, the shared
    token fires, the caller of the combinator runs its next statement
    ([pick] is the choice of its select, should both cases be ready). *)
Inductive event : Type :=
| EvTask (j : nat)
| EvFire (r : reason)
| EvMain (pick : bool).

(** The last loop of [RunSlice]: the error of the first result that has
    one. *)
Fixpoint first_error {T} (results : list (ResultWithError T)) : error :=
  match results with
  | [] => None
  | res :: rest =>
      match Error res with
      | Some e => Some e
      | None => first_error rest
      end
  end.

(** The last loop of [Run2], over [errs]. *)
Fixpoint first_nonnil (errs : list error) : error :=
  match errs with
  | [] => None
  | e :: rest =>
      match e with
      | Some _ => e
      | None => first_nonnil rest
      end
  end.

(** The caller in [RunSlice]: in the receive loop at index [i], returned,
    or stopped by a panic. *)
Inductive slice_pc (T : Type) : Type :=
| Receiving (i : nat) (results : list (ResultWithError T))
| SliceReturned (results : list (ResultWithError T)) (err : error)
| SlicePanicked (msg : string).
Arguments Receiving {T} _ _.
Arguments SliceReturned {T} _ _.
Arguments SlicePanicked {T} _.

Record slice_state (T : Type) : Type :=
  mkSlice { tasks : list (task T); ctx : Context; caller : slice_pc T }.
Arguments mkSlice {T} _ _ _.
Arguments tasks {T} _.
Arguments ctx {T} _.
Arguments caller {T} _.

(** [RunSlice(ctx, funcs...)] after its first loop: every function has its
    goroutine and its handle, and [results] has [len(funcs)] zero
    entries. *)
Definition RunSlice_start {T} `{Zero T} (c : Context) (funcs : list (Context -> outcome T))
  : slice_state T :=
  mkSlice ((fun _ => launch T) <$> funcs) c
          (Receiving 0 (replicate (List.length funcs) zero)).

(** One event of a run of [RunSlice]. *)
Definition RunSlice_step {T} `{Zero T} (funcs : list (Context -> outcome T))
    (ev : event) (s : slice_state T) : option (slice_state T) :=
  match ev with
  | EvTask j =>
      match funcs !! j, tasks s !! j with
      | Some f, Some t =>
          match Go_step (Some (CtxApply (ctx s) f)) t with
          | Some t' => Some (mkSlice (<[j := t']> (tasks s)) (ctx s) (caller s))
          | None => None
          end
      | _, _ => None
      end
  | EvFire r =>
      match ctx s with
      | Live => Some (mkSlice (tasks s) (Fired r) (caller s))
      | Fired _ => None
      end
  | EvMain pick =>
      match caller s with
      | Receiving i results =>
          match tasks s !! i with
          | Some t =>
              match ReceiveWatch (rv t) (ctx s) pick with
              | Ok ((v, e), rv') =>
                  Some (mkSlice (<[i := mkTask (at_pc t) rv']> (tasks s)) (ctx s)
                                (Receiving (S i) (<[i := mkResult v e]> results)))
              | Panic msg => Some (mkSlice (tasks s) (ctx s) (SlicePanicked msg))
              | Blocked => None
              end
          | None =>
              Some (mkSlice (tasks s) (ctx s) (SliceReturned results (first_error results)))
          end
      | SliceReturned _ _ | SlicePanicked _ => None
      end
  end.

(** The caller in [Run2]: about to receive from [rv1], from [rv2], about
    to return, returned, or stopped by a panic. *)
Inductive pair_pc (T1 T2 : Type) : Type :=
| Receiving1 (results : Tuple2 (ResultWithError T1) (ResultWithError T2))
| Receiving2 (results : Tuple2 (ResultWithError T1) (ResultWithError T2))
| Returning (results : Tuple2 (ResultWithError T1) (ResultWithError T2))
| PairReturned (results : Tuple2 (ResultWithError T1) (ResultWithError T2)) (err : error)
| PairPanicked (msg : string).
Arguments Receiving1 {T1 T2} _.
Arguments Receiving2 {T1 T2} _.
Arguments Returning {T1 T2} _.
Arguments PairReturned {T1 T2} _ _.
Arguments PairPanicked {T1 T2} _.

Record pair_state (T1 T2 : Type) : Type :=
  mkPair { task1 : task T1; task2 : task T2; ctx2 : Context; caller2 : pair_pc T1 T2 }.
Arguments mkPair {T1 T2} _ _ _ _.
Arguments task1 {T1 T2} _.
Arguments task2 {T1 T2} _.
Arguments ctx2 {T1 T2} _.
Arguments caller2 {T1 T2} _.

(** [Run2(ctx, f1, f2)] after the two launches. *)
Definition Run2_start {T1 T2} `{Zero T1, Zero T2} (c : Context) : pair_state T1 T2 :=
  mkPair (launch T1) (launch T2) c (Receiving1 zero).

(** One event of a run of [Run2]; the goroutines are numbered 0 and 1. *)
Definition Run2_step {T1 T2} `{Zero T1, Zero T2}
    (f1 : Context -> outcome T1) (f2 : Context -> outcome T2)
    (ev : event) (s : pair_state T1 T2) : option (pair_state T1 T2) :=
  match ev with
  | EvTask 0 =>
      match Go_step (Some (CtxApply (ctx2 s) f1)) (task1 s) with
      | Some t' => Some (mkPair t' (task2 s) (ctx2 s) (caller2 s))
      | None => None
      end
  | EvTask 1 =>
      match Go_step (Some (CtxApply (ctx2 s) f2)) (task2 s) with
      | Some t' => Some (mkPair (task1 s) t' (ctx2 s) (caller2 s))
      | None => None
      end
  | EvTask _ => None
  | EvFire r =>
      match ctx2 s with
      | Live => Some (mkPair (task1 s) (task2 s) (Fired r) (caller2 s))
      | Fired _ => None
      end
  | EvMain pick =>
      match caller2 s with
      | Receiving1 results =>
          match ReceiveWatch (rv (task1 s)) (ctx2 s) pick with
          | Ok ((v, e), rv') =>
              Some (mkPair (mkTask (at_pc (task1 s)) rv') (task2 s) (ctx2 s)
                           (Receiving2 (mkTuple2 (mkResult v e) (X2 results))))
          | Panic msg => Some (mkPair (task1 s) (task2 s) (ctx2 s) (PairPanicked msg))
          | Blocked => None
          end
      | Receiving2 results =>
          match ReceiveWatch (rv (task2 s)) (ctx2 s) pick with
          | Ok ((v, e), rv') =>
              Some (mkPair (task1 s) (mkTask (at_pc (task2 s)) rv') (ctx2 s)
                           (Returning (mkTuple2 (X1 results) (mkResult v e))))
          | Panic msg => Some (mkPair (task1 s) (task2 s) (ctx2 s) (PairPanicked msg))
          | Blocked => None
          end
      | Returning results =>
          let errs := [Error (X1 results); Error (X2 results)] in
          Some (mkPair (task1 s) (task2 s) (ctx2 s)
                       (PairReturned results (first_nonnil errs)))
      | PairReturned _ _ | PairPanicked _ => None
      end
  end.

(** The record of a task that has sent it: in the buffer when the caller
    has not yet run its receive on the handle ([untouched]), and in the
    buffer or taken once it has. *)
Definition record_in {T} (untouched : bool) (c : chan (rdvData T)) : Prop :=
  (exists d, buf c = [d] /\ chanOpen d = true) \/ (untouched = false /\ buf c = []).

(** What holds of a task of a collect-all combinator all along a run. *)
Definition task_inv {T} (untouched : bool) (t : task T) : Prop :=
  let c := ch (rv t) in
  cap c = 1 /\
  match at_pc t with
  | Call => buf c = [] /\ closed c = false
  | Send d => buf c = [] /\ closed c = false /\ chanOpen d = true
  | Close _ => closed c = false /\ record_in untouched c
  | Exited => closed c = true /\ record_in untouched c
  | Finish _ | Crashed _ => False
  end.

(** What holds of a run of [RunSlice] all along. *)
Definition slice_inv {T} (n : nat) (s : slice_state T) : Prop :=
  List.length (tasks s) = n /\
  match caller s with
  | Receiving i results =>
      i <= n /\ List.length results = n /\
      forall j t, tasks s !! j = Some t -> task_inv (bool_decide (i <= j)) t
  | SliceReturned results err =>
      List.length results = n /\ err = first_error results /\
      forall j t, tasks s !! j = Some t -> task_inv false t
  | SlicePanicked _ => False
  end.

(** The caller has written [x] as entry [i] of [results]. *)
Definition entry_written {T} (i : nat) (x : ResultWithError T) (s : slice_state T) : Prop :=
  match caller s with
  | Receiving k results => i < k /\ results !! i = Some x
  | SliceReturned results _ => results !! i = Some x
  | SlicePanicked _ => True
  end.

(** The statements that the goroutine of a task has to run before its
    record is in the channel. *)
Definition to_deliver {T} (p : pc T) : nat :=
  match p with
  | Call => 2
  | Send _ => 1
  | _ => 0
  end.

(** The run has returned. *)
Definition returned {T} (s : slice_state T) : Prop :=
  exists results err, caller s = SliceReturned results err.


(** What the wrapped function [f] returns when it finds the token in
    state [c], as a result entry. *)
Definition wrapped {T} `{Zero T} (c : Context) (f : Context -> outcome T)
  : ResultWithError T :=
  match SafeFunc0E (CtxApply c f) tt with
  | Returned v e => mkResult v e
  | Panicked _ => zero
  end.

(** A record as a result entry. *)
Definition as_result {T} (d : rdvData T) : ResultWithError T :=
  mkResult (value d) (err d).

(** What holds of a run of [RunSlice] as long as the token has not
    fired. *)
Definition live_inv {T} `{Zero T} (funcs : list (Context -> outcome T))
    (s : slice_state T) : Prop :=
  ctx s = Live ->
  (forall j t f, tasks s !! j = Some t -> funcs !! j = Some f ->
     (forall d, at_pc t = Send d -> as_result d = wrapped Live f) /\
     (forall d, d ∈ buf (ch (rv t)) -> as_result d = wrapped Live f)) /\
  match caller s with
  | Receiving i results =>
      forall j f, j < i -> funcs !! j = Some f -> results !! j = Some (wrapped Live f)
  | SliceReturned results _ =>
      forall j f, funcs !! j = Some f -> results !! j = Some (wrapped Live f)
  | SlicePanicked _ => True
  end.

(** A state of [Run2] on two functions of the same type, as a state of
    [RunSlice] on the list of the two. *)
Definition pair_as_slice {T} (s : pair_state T T) : slice_state T :=
  let entries results := [X1 results; X2 results] in
  mkSlice [task1 s; task2 s] (ctx2 s)
    match caller2 s with
    | Receiving1 results => Receiving 0 (entries results)
    | Receiving2 results => Receiving 1 (entries results)
    | Returning results => Receiving 2 (entries results)
    | PairReturned results err => SliceReturned (entries results) err
    | PairPanicked msg => SlicePanicked msg
    end.

End rdvext.

(** ** Package rdvext: the fail-fast combinators *)

Module rdvexteg.
Import util gochan context rdv errgroup.

(** A member of the group: the goroutine of [GoEg] with its handle, and
    the inner task that the function of [CtxApplyWatch] launches when it
    is called. *)
Record member (T : Type) : Type := mkMember { outer : task T; inner : option (task T) }.
Arguments mkMember {T} _ _.
Arguments outer {T} _.
Arguments inner {T} _.

(** The function that [CtxApplyWatch(ctx, f)] returns, one statement at a
    time: [rv := Go(fc)] launches the inner task, then
    [return rv.ReceiveWatch(ctx)].  The result is the inner task after the
    statement and, when the call is over, what it did. *)
Definition CtxApplyWatch_step {T} `{Zero T} (ctx : Context) (pick : bool)
    (inner : option (task T)) : option (option (task T) * option (outcome T)) :=
  match inner with
  | None => Some (Some (launch T), None)
  | Some it =>
      match ReceiveWatch (rv it) ctx pick with
      | Ok ((v, e), rv') => Some (Some (mkTask (at_pc it) rv'), Some (Returned v e))
      | Panic msg => Some (Some it, Some (Panicked (AnyString msg)))
      | Blocked => None
      end
  end.

(** The inner goroutine, started by [Go(CtxApply(ctx, f))]. *)
Definition inner_step {T} `{Zero T} (f : Context -> outcome T) (ctx : Context)
    (m : member T) : option (member T) :=
  match inner m with
  | Some it =>
      match Go_step (Some (CtxApply ctx f)) it with
      | Some it' => Some (mkMember (outer m) (Some it'))
      | None => None
      end
  | None => None
  end.

(** The goroutine of [GoEg(eg, CtxApplyWatch(egCtx, f))]: the call of the
    wrapped function runs the statements of [CtxApplyWatch_step]; once
    the function of [GoEg] has returned its error, the group takes it. *)
Definition outer_step {T} `{Zero T} (pick : bool) (g : Group) (m : member T)
  : option (member T * Group) :=
  match at_pc (outer m) with
  | Call =>
      match CtxApplyWatch_step (gctx g) pick (inner m) with
      | Some (inner', None) => Some (mkMember (outer m) inner', g)
      | Some (inner', Some o) =>
          match GoEg_step (Some (fun _ => o)) (outer m) with
          | Some t' => Some (mkMember t' inner', g)
          | None => None
          end
      | None => None
      end
  | Finish e => Some (mkMember (mkTask Exited (rv (outer m))) (inner m), finish e g)
  | _ =>
      match GoEg_step None (outer m) with
      | Some t' => Some (mkMember t' (inner m), g)
      | None => None
      end
  end.

(** The events of a run: the inner or the outer goroutine of member [j]
    runs its next statement, the caller's token fires, the caller of the
    combinator runs its next statement. *)
Inductive event : Type :=
| EgInner (j : nat)
| EgOuter (j : nat) (pick : bool)
| EgFire (r : reason)
| EgMain (pick : bool).

(** The caller in [RunSliceEg]: in [eg.Wait()], in the receive loop at
    index [i], returned (a nil slice is [None]), or stopped by a panic. *)
Inductive sliceEg_pc (T : Type) : Type :=
| Joining
| Draining (i : nat) (results : list T) (err : error)
| SliceEgReturned (results : option (list T)) (err : error)
| SliceEgPanicked (msg : string).
Arguments Joining {T}.
Arguments Draining {T} _ _ _.
Arguments SliceEgReturned {T} _ _.
Arguments SliceEgPanicked {T} _.

Record sliceEg_state (T : Type) : Type :=
  mkSliceEg { members : list (member T); parent : Context; group : Group;
              caller : sliceEg_pc T }.
Arguments mkSliceEg {T} _ _ _ _.
Arguments members {T} _.
Arguments parent {T} _.
Arguments group {T} _.
Arguments caller {T} _.

(** [RunSliceEg(ctx, funcs...)] after its first loop. *)
Definition RunSliceEg_start {T} (c : Context) (funcs : list (Context -> outcome T))
  : sliceEg_state T :=
  mkSliceEg ((fun _ => mkMember (launch T) None) <$> funcs) c
            (Nat.iter (List.length funcs) Go_add (WithContext c)) Joining.

(** One event of a run of [RunSliceEg]. *)
Definition RunSliceEg_step {T} `{Zero T} (funcs : list (Context -> outcome T))
    (ev : event) (s : sliceEg_state T) : option (sliceEg_state T) :=
  match ev with
  | EgInner j =>
      match funcs !! j, members s !! j with
      | Some f, Some m =>
          match inner_step f (gctx (group s)) m with
          | Some m' => Some (mkSliceEg (<[j := m']> (members s)) (parent s) (group s) (caller s))
          | None => None
          end
      | _, _ => None
      end
  | EgOuter j pick =>
      match members s !! j with
      | Some m =>
          match outer_step pick (group s) m with
          | Some (m', g') => Some (mkSliceEg (<[j := m']> (members s)) (parent s) g' (caller s))
          | None => None
          end
      | None => None
      end
  | EgFire r =>
      match parent s with
      | Live => Some (mkSliceEg (members s) (Fired r) (parent_fired r (group s)) (caller s))
      | Fired _ => None
      end
  | EgMain _ =>
      match caller s with
      | Joining =>
          match Wait (group s) with
          | Some (err, g') =>
              match err with
              | Some _ => Some (mkSliceEg (members s) (parent s) g' (SliceEgReturned None err))
              | None =>
                  Some (mkSliceEg (members s) (parent s) g'
                          (Draining 0 (replicate (List.length funcs) zero) err))
              end
          | None => None
          end
      | Draining i results err =>
          match members s !! i with
          | Some m =>
              match Receive (rv (outer m)) with
              | Ok ((v, _), rv') =>
                  Some (mkSliceEg
                          (<[i := mkMember (mkTask (at_pc (outer m)) rv') (inner m)]> (members s))
                          (parent s) (group s) (Draining (S i) (<[i := v]> results) err))
              | Panic msg => Some (mkSliceEg (members s) (parent s) (group s) (SliceEgPanicked msg))
              | Blocked => None
              end
          | None =>
              Some (mkSliceEg (members s) (parent s) (group s) (SliceEgReturned (Some results) err))
          end
      | SliceEgReturned _ _ | SliceEgPanicked _ => None
      end
  end.

(** The caller in [Run2Eg]. *)
Inductive pairEg_pc (T1 T2 : Type) : Type :=
| JoiningPair (results : Tuple2 T1 T2)
| DrainingX1 (results : Tuple2 T1 T2) (err : error)
| DrainingX2 (results : Tuple2 T1 T2) (err : error)
| PairEgReturned (results : Tuple2 T1 T2) (err : error)
| PairEgPanicked (msg : string).
Arguments JoiningPair {T1 T2} _.
Arguments DrainingX1 {T1 T2} _ _.
Arguments DrainingX2 {T1 T2} _ _.
Arguments PairEgReturned {T1 T2} _ _.
Arguments PairEgPanicked {T1 T2} _.

Record pairEg_state (T1 T2 : Type) : Type :=
  mkPairEg { member1 : member T1; member2 : member T2; parent2 : Context;
             group2 : Group; caller2 : pairEg_pc T1 T2 }.
Arguments mkPairEg {T1 T2} _ _ _ _ _.
Arguments member1 {T1 T2} _.
Arguments member2 {T1 T2} _.
Arguments parent2 {T1 T2} _.
Arguments group2 {T1 T2} _.
Arguments caller2 {T1 T2} _.

(** [Run2Eg(ctx, f1, f2)] after the two launches. *)
Definition Run2Eg_start {T1 T2} `{Zero T1, Zero T2} (c : Context) : pairEg_state T1 T2 :=
  mkPairEg (mkMember (launch T1) None) (mkMember (launch T2) None) c
           (Go_add (Go_add (WithContext c))) (JoiningPair zero).

(** One event of a run of [Run2Eg]; the members are numbered 0 and 1.
    After a successful [eg.Wait()] the two handles are read with
    [ReceiveWatch(ctx)], on the caller's own token. *)
Definition Run2Eg_step {T1 T2} `{Zero T1, Zero T2}
    (f1 : Context -> outcome T1) (f2 : Context -> outcome T2)
    (ev : event) (s : pairEg_state T1 T2) : option (pairEg_state T1 T2) :=
  match ev with
  | EgInner 0 =>
      match inner_step f1 (gctx (group2 s)) (member1 s) with
      | Some m' => Some (mkPairEg m' (member2 s) (parent2 s) (group2 s) (caller2 s))
      | None => None
      end
  | EgInner 1 =>
      match inner_step f2 (gctx (group2 s)) (member2 s) with
      | Some m' => Some (mkPairEg (member1 s) m' (parent2 s) (group2 s) (caller2 s))
      | None => None
      end
  | EgInner _ => None
  | EgOuter 0 pick =>
      match outer_step pick (group2 s) (member1 s) with
      | Some (m', g') => Some (mkPairEg m' (member2 s) (parent2 s) g' (caller2 s))
      | None => None
      end
  | EgOuter 1 pick =>
      match outer_step pick (group2 s) (member2 s) with
      | Some (m', g') => Some (mkPairEg (member1 s) m' (parent2 s) g' (caller2 s))
      | None => None
      end
  | EgOuter _ _ => None
  | EgFire r =>
      match parent2 s with
      | Live =>
          Some (mkPairEg (member1 s) (member2 s) (Fired r) (parent_fired r (group2 s))
                         (caller2 s))
      | Fired _ => None
      end
  | EgMain pick =>
      let returned c := Some (mkPairEg (member1 s) (member2 s) (parent2 s) (group2 s) c) in
      match caller2 s with
      | JoiningPair results =>
          match Wait (group2 s) with
          | Some (err, g') =>
              match err with
              | Some _ =>
                  Some (mkPairEg (member1 s) (member2 s) (parent2 s) g'
                                 (PairEgReturned results err))
              | None =>
                  Some (mkPairEg (member1 s) (member2 s) (parent2 s) g'
                                 (DrainingX1 results err))
              end
          | None => None
          end
      | DrainingX1 results err =>
          let m := member1 s in
          match ReceiveWatch (rv (outer m)) (parent2 s) pick with
          | Ok ((v, _), rv') =>
              Some (mkPairEg (mkMember (mkTask (at_pc (outer m)) rv') (inner m)) (member2 s)
                             (parent2 s) (group2 s)
                             (DrainingX2 (mkTuple2 v (X2 results)) err))
          | Panic msg => returned (PairEgPanicked msg)
          | Blocked => None
          end
      | DrainingX2 results err =>
          let m := member2 s in
          match ReceiveWatch (rv (outer m)) (parent2 s) pick with
          | Ok ((v, _), rv') =>
              Some (mkPairEg (member1 s) (mkMember (mkTask (at_pc (outer m)) rv') (inner m))
                             (parent2 s) (group2 s)
                             (PairEgReturned (mkTuple2 (X1 results) v) err))
          | Panic msg => returned (PairEgPanicked msg)
          | Blocked => None
          end
      | PairEgReturned _ _ | PairEgPanicked _ => None
      end
  end.

(** Whether a member is still to finish, as the wait group counts it. *)
Definition unfinished {T} (m : member T) : nat :=
  match at_pc (outer m) with
  | Exited => 0
  | _ => 1
  end.

(** The handle of the member holds the record [d]. *)
Definition holds {T} (m : member T) (d : rdvData T) : Prop :=
  buf (ch (rv (outer m))) = [d] /\ chanOpen d = true.

(** The value that the handle of the member holds. *)
Definition delivered {T} `{Zero T} (m : member T) : T :=
  match buf (ch (rv (outer m))) with
  | d :: _ => value d
  | [] => zero
  end.

(** What holds of a member until the caller reads its handle. *)
Definition member_inv {T} (g : Group) (m : member T) : Prop :=
  let c := ch (rv (outer m)) in
  cap c = 1 /\
  match inner m with
  | Some it =>
      rdvext.task_inv (match at_pc (outer m) with Call => true | _ => false end) it
  | None => at_pc (outer m) = Call
  end /\
  match at_pc (outer m) with
  | Call => buf c = [] /\ closed c = false
  | Send d => buf c = [] /\ closed c = false /\ chanOpen d = true
  | Close e => closed c = false /\ exists d, holds m d /\ rdv.err d = e
  | Finish e => closed c = true /\ exists d, holds m d /\ rdv.err d = e
  | Exited =>
      closed c = true /\
      exists d, holds m d /\ (rdv.err d <> None -> errgroup.err g <> None)
  | Crashed _ => False
  end.

(** What holds of a run of [RunSliceEg] while its caller is in
    [eg.Wait()]. *)
Definition join_inv {T} (n : nat) (s : sliceEg_state T) : Prop :=
  caller s = Joining /\
  List.length (members s) = n /\
  wg (group s) = sum_list_with unfinished (members s) /\
  forall j m, members s !! j = Some m -> member_inv (group s) m.

(** What holds of a run of [RunSliceEg] once [eg.Wait()] has returned nil,
    [vals] being the values that the handles held then. *)
Definition drain_inv {T} (vals : list T) (s : sliceEg_state T) : Prop :=
  List.length (members s) = List.length vals /\
  match caller s with
  | Joining => False
  | Draining i results err =>
      err = None /\ List.length results = List.length vals /\ i <= List.length vals /\
      (forall j, j < i -> results !! j = vals !! j) /\
      (forall j m, i <= j -> members s !! j = Some m ->
         at_pc (outer m) = Exited /\ exists d, holds m d /\ vals !! j = Some (value d))
  | SliceEgReturned results err => results = Some vals /\ err = None
  | SliceEgPanicked _ => False
  end.

(** The goroutine of the member is over, and its inner task is as a task
    of [Go] is. *)
Definition settled {T} (m : member T) : Prop :=
  at_pc (outer m) = Exited /\
  match inner m with
  | Some it => rdvext.task_inv false it
  | None => False
  end.

(** What holds of a run of [RunSliceEg] all along. *)
Definition after_join {T} (n : nat) (s : sliceEg_state T) : Prop :=
  match caller s with
  | Joining => join_inv n s
  | Draining _ _ _ =>
      (exists vals, List.length vals = n /\ drain_inv vals s) /\
      forall j m, members s !! j = Some m -> settled m
  | SliceEgReturned results err =>
      (forall j m, members s !! j = Some m -> settled m) /\
      match results with
      | None => err <> None
      | Some vals => err = None /\ List.length vals = n
      end
  | SliceEgPanicked _ => False
  end.

(** What holds of a run of [Run2Eg] while its caller is in [eg.Wait()]. *)
Definition pair_join_inv {T1 T2} (s : pairEg_state T1 T2) : Prop :=
  wg (group2 s) = unfinished (member1 s) + unfinished (member2 s) /\
  member_inv (group2 s) (member1 s) /\ member_inv (group2 s) (member2 s).

(** The goroutine of the member is over. *)
Definition over {T} (m : member T) : Prop := at_pc (outer m) = Exited.

(** The goroutine of the member is over and its handle holds a record
    with the value [v]. *)
Definition ready {T} (m : member T) (v : T) : Prop :=
  over m /\ exists d, holds m d /\ value d = v.

(** What holds of a run of [Run2Eg] once [eg.Wait()] has returned nil,
    [v1] and [v2] being the values that the handles held then. *)
Definition pair_drain_inv {T1 T2} (v1 : T1) (v2 : T2) (s : pairEg_state T1 T2) : Prop :=
  match caller2 s with
  | JoiningPair _ => False
  | DrainingX1 _ err => err = None /\ ready (member1 s) v1 /\ ready (member2 s) v2
  | DrainingX2 results err =>
      err = None /\ over (member1 s) /\ ready (member2 s) v2 /\
      (parent2 s = Live -> X1 results = v1)
  | PairEgReturned results err =>
      err = None /\ over (member1 s) /\ over (member2 s) /\
      (parent2 s = Live -> results = mkTuple2 v1 v2)
  | PairEgPanicked _ => False
  end.

(** What holds of a run of [Run2Eg] all along. *)
Definition pairEg_inv {T1 T2} `{Zero T1, Zero T2} (s : pairEg_state T1 T2) : Prop :=
  match caller2 s with
  | JoiningPair results => results = zero /\ pair_join_inv s
  | DrainingX1 _ _ | DrainingX2 _ _ => exists v1 v2, pair_drain_inv v1 v2 s
  | PairEgReturned results err =>
      over (member1 s) /\ over (member2 s) /\ (err <> None -> results = zero)
  | PairEgPanicked _ => False
  end.








End rdvexteg.

(** ** A call of the function of [CtxApplyWatch] *)

Module watch.
Import util gochan context rdv rdvexteg.

(** The events of a call: the goroutine of the inner task runs its next
    statement, the token fires, the call runs its next statement. *)
Inductive event : Type :=
| WInner
| WFire (r : reason)
| WCall (pick : bool).

(** The inner task once launched, the token, and what the call did once
    it is over. *)
Record state (T : Type) : Type :=
  mkState { winner : option (task T); wctx : Context; wresult : option (outcome T) }.
Arguments mkState {T} _ _ _.
Arguments winner {T} _.
Arguments wctx {T} _.
Arguments wresult {T} _.

(** The function that [CtxApplyWatch(ctx, f)] returned is called. *)
Definition start {T} (c : Context) : state T := mkState None c None.

Definition step {T} `{Zero T} (f : Context -> outcome T) (ev : event) (s : state T)
  : option (state T) :=
  match ev with
  | WInner =>
      match winner s with
      | Some it =>
          match Go_step (Some (CtxApply (wctx s) f)) it with
          | Some it' => Some (mkState (Some it') (wctx s) (wresult s))
          | None => None
          end
      | None => None
      end
  | WFire r =>
      match wctx s with
      | Live => Some (mkState (winner s) (Fired r) (wresult s))
      | Fired _ => None
      end
  | WCall pick =>
      match wresult s with
      | Some _ => None
      | None =>
          match CtxApplyWatch_step (wctx s) pick (winner s) with
          | Some (inner', o) => Some (mkState inner' (wctx s) o)
          | None => None
          end
      end
  end.

(** What holds of a call all along. *)
Definition inv {T} `{Zero T} (f : Context -> outcome T) (s : state T) : Prop :=
  match winner s with
  | Some it =>
      rdvext.task_inv (match wresult s with None => true | Some _ => false end) it /\
      task_produced f it
  | None => wresult s = None
  end /\
  match wresult s with
  | Some o =>
      exists v e, o = Returned v e /\
        (produced f v e \/ (v = zero /\ e = Err (wctx s) /\ e <> None))
  | None => True
  end.

End watch.

(** ** Go multiple: [GoSlice], [Go2], [GoSliceEg], [Go2Eg] *)

(** Each of the four is [rdv.Go(f)] for an [f] that calls one of the
    [Run] combinators.  The call of [f] in the goroutine of [Go] is then
    itself a run with goroutines of its own: a state is the state of that
    run together with the goroutine and handle of [Go], and the call is
    over when the run has returned (or panicked). *)
Module gomulti.
Import util gochan context rdv.

(** The zero value of a slice type is the nil slice. *)
Global Instance slice_zero {A} : Zero (list A) := [].

(** The events: one of the run of the combinator, or the next statement
    of the goroutine of [Go]. *)
Inductive event (E : Type) : Type :=
| Inner (e : E)
| Outer.
Arguments Inner {E} _.
Arguments Outer {E}.

Record state (S T : Type) : Type := mkState { body : S; handle : task T }.
Arguments mkState {S T} _ _.
Arguments body {S T} _.
Arguments handle {S T} _.

Definition start {S T} (b : S) : state S T := mkState b (launch T).

(** [step] is the step of the combinator, and [result] what its call has
    done when it is over. *)
Definition step_of {S E T} `{Zero T} (step : E -> S -> option S)
    (result : S -> option (outcome T)) (ev : event E) (s : state S T)
  : option (state S T) :=
  match ev with
  | Inner e =>
      match step e (body s) with
      | Some b' => Some (mkState b' (handle s))
      | None => None
      end
  | Outer =>
      let f := match result (body s) with
               | Some o => Some (fun _ : unit => o)
               | None => None
               end in
      match Go_step f (handle s) with
      | Some t' => Some (mkState (body s) t')
      | None => None
      end
  end.



Definition RunSliceEg_result {T} (s : rdvexteg.sliceEg_state T)
  : option (outcome (option (list T))) :=
  match rdvexteg.caller s with
  | rdvexteg.SliceEgReturned results err => Some (Returned results err)
  | rdvexteg.SliceEgPanicked msg => Some (Panicked (AnyString msg))
  | _ => None
  end.

Definition Run2Eg_result {T1 T2} (s : rdvexteg.pairEg_state T1 T2)
  : option (outcome (Tuple2 T1 T2)) :=
  match rdvexteg.caller2 s with
  | rdvexteg.PairEgReturned results err => Some (Returned results err)
  | rdvexteg.PairEgPanicked msg => Some (Panicked (AnyString msg))
  | _ => None
  end.





(** [GoSliceEg(ctx, funcs...)]. *)
Definition GoSliceEg_start {T} (c : Context) (funcs : list (Context -> outcome T))
  : state (rdvexteg.sliceEg_state T) (option (list T)) :=
  start (rdvexteg.RunSliceEg_start c funcs).

Definition GoSliceEg_step {T} `{Zero T} (funcs : list (Context -> outcome T)) :=
  step_of (rdvexteg.RunSliceEg_step funcs) RunSliceEg_result.

(** [Go2Eg(ctx, f1, f2)]. *)
Definition Go2Eg_start {T1 T2} `{Zero T1, Zero T2} (c : Context)
  : state (rdvexteg.pairEg_state T1 T2) (Tuple2 T1 T2) :=
  start (rdvexteg.Run2Eg_start c).

Definition Go2Eg_step {T1 T2} `{Zero T1, Zero T2}
    (f1 : Context -> outcome T1) (f2 : Context -> outcome T2) :=
  step_of (rdvexteg.Run2Eg_step f1 f2) Run2Eg_result.

(** The goroutine of [Go] is about to send the record [d], or has sent
    it. *)
Definition sent {S T} (s : state S T) (d : rdvData T) : Prop :=
  at_pc (handle s) = Send d \/ d ∈ buf (ch (rv (handle s))).

(** What holds all along: the record of the handle is what the wrapper
    makes of what the call has done. *)
Definition record_inv {S T} `{Zero T} (result : S -> option (outcome T))
    (s : state S T) : Prop :=
  rdvext.task_inv true (handle s) /\
  forall d, sent s d ->
    exists o, result (body s) = Some o /\
              SafeFunc0E (fun _ => o) tt = Returned (value d) (err d).

End gomulti.

(** ** The obsolete design: waiters and promises *)

Module obsolete.
Import util gochan context.

(** [ResultWithError] of the obsolete package. *)
Record ResultWithError (T : Type) : Type := mkResult { Value : T; Error : error }.
Arguments mkResult {T} _ _.
Arguments Value {T} _.
Arguments Error {T} _.

(** The fields of [preWaiter] that are references (the context, the two
    channels, the [*sync.Once]) live in the heap below; a [preWaiter]
    value itself carries the field [Err].  Methods with a value receiver
    work on a copy of this struct. *)
Record preWaiter : Type := mkPreWaiter { Err : error }.

(** [SingleWaiter]: its field [P]; [ComplCh] is a reference. *)
Record SingleWaiter : Type := mkSingleWaiter { P : preWaiter }.

(** The goroutine started by [Go]: it calls the wrapped function, stores
    the result through [pResult], closes [ComplCh]. *)
Inductive runner_pc (T : Type) : Type :=
| RunCall
| RunStore (res : T) (err : error)
| RunCloseCompl
| RunExited.
Arguments RunCall {T}.
Arguments RunStore {T} _ _.
Arguments RunCloseCompl {T}.
Arguments RunExited {T}.

(** The goroutine started by the first [Wait]: it receives from [ComplCh]
    and closes [WaitCh]. *)
Inductive closer_pc : Type :=
| NotStarted
| CloserRecv
| CloserClose
| CloserExited.

(** What a promise made by [Async] shares between its goroutines and its
    callers: the context, the channels, whether the [sync.Once] has run,
    and the struct [promiseImpl] (its [ResWE], written through [pResWE],
    and its [Waiter]). *)
Record heap (T : Type) : Type :=
  mkHeap { Ctx : Context;
           WaitCh : chan error;
           ActiveGate : chan bool;
           WaitChGate : bool;
           ComplCh : chan unit;
           ResWE : ResultWithError T;
           Waiter : SingleWaiter;
           runner : runner_pc T;
           closer : closer_pc }.
Arguments mkHeap {T} _ _ _ _ _ _ _ _ _.
Arguments Ctx {T} _.
Arguments WaitCh {T} _.
Arguments ActiveGate {T} _.
Arguments WaitChGate {T} _.
Arguments ComplCh {T} _.
Arguments ResWE {T} _.
Arguments Waiter {T} _.
Arguments runner {T} _.
Arguments closer {T} _.

(** [Async(ctx, f)], which is [MakeSingleWaiter] and [Go]: both channels
    unbuffered, the gate holding [true] again once [Go] has returned, the
    goroutine of [Go] started, [Err] nil. *)
Definition Async {T} `{Zero T} (ctx : Context) : heap T :=
  mkHeap ctx (make error 0) (mkChan [true] 1 false) false (make unit 0)
         (mkResult zero None) (mkSingleWaiter (mkPreWaiter None)) RunCall NotStarted.

(** [preWaiter.ErrWait], on the copy [w] of the receiver: the function
    given to [WaitChGate.Do] runs the select and assigns [w.Err], on the
    copy; when the Once has run already, nothing is done; the method
    returns the field [Err] of the copy. *)
Definition ErrWait {T} (w : preWaiter) (h : heap T) (pick : bool) : result (error * heap T) :=
  let once_done c := mkHeap (Ctx h) c (ActiveGate h) true (ComplCh h) (ResWE h)
                            (Waiter h) (runner h) (closer h) in
  let after_do : result (preWaiter * heap T) :=
    if WaitChGate h then Ok (w, h)
    else
      let from_channel '(errW, c) := Ok (mkPreWaiter errW, once_done c) in
      let from_done := Ok (mkPreWaiter (context.Err (Ctx h)), once_done (WaitCh h)) in
      match recv (WaitCh h), Ctx h with
      | None, Live => Blocked
      | None, Fired _ => from_done
      | Some got, Live => from_channel got
      | Some got, Fired _ => if pick then from_channel got else from_done
      end in
  match after_do with
  | Ok (w', h') => Ok (Err w', h')
  | Panic msg => Panic msg
  | Blocked => Blocked
  end.

(** The first statement of [SingleWaiter.Wait]: the receive from the gate
    and, when it gives [true], the close of the gate and the start of the
    goroutine that will close [WaitCh]. *)
Definition Wait_gate {T} (h : heap T) : result (heap T) :=
  match recv (ActiveGate h) with
  | None => Blocked
  | Some (active, gate) =>
      if active then
        match close gate with
        | Ok gate' =>
            Ok (mkHeap (Ctx h) (WaitCh h) gate' (WaitChGate h) (ComplCh h) (ResWE h)
                       (Waiter h) (runner h) CloserRecv)
        | Panic msg => Panic msg
        | Blocked => Blocked
        end
      else
        Ok (mkHeap (Ctx h) (WaitCh h) gate (WaitChGate h) (ComplCh h) (ResWE h)
                   (Waiter h) (runner h) (closer h))
  end.

(** The rest of [SingleWaiter.Wait], on the copy [w] of the receiver:
    [return w.P.ErrWait()]. *)
Definition Wait_rest {T} (w : SingleWaiter) (h : heap T) (pick : bool)
  : result (error * heap T) :=
  ErrWait (P w) h pick.

(** [promiseImpl.Await], from the return of [P.Waiter.Wait()] on: [Wait]
    is called on a copy of the field [Waiter]. *)
Definition Await_rest {T} (h : heap T) (pick : bool) : result ((T * error) * heap T) :=
  match Wait_rest (Waiter h) h pick with
  | Ok (errW, h') =>
      let value := Value (ResWE h') in
      let err := Error (ResWE h') in
      let err := match errW with Some _ => errW | None => err end in
      Ok ((value, err), h')
  | Panic msg => Panic msg
  | Blocked => Blocked
  end.

(** The caller of a promise: between calls (with the outcomes of the calls
    of [Await] made so far, the first one first), or inside [Await],
    after the gate. *)
Inductive awaiter (T : Type) : Type :=
| Idle (outcomes : list (T * error))
| Awaiting (outcomes : list (T * error))
| AwaitPanicked (msg : string).
Arguments Idle {T} _.
Arguments Awaiting {T} _.
Arguments AwaitPanicked {T} _.

Inductive event : Type :=
| ObRunner
| ObCloser
| ObFire (r : reason)
| ObAwait (pick : bool).

(** One event of the life of a promise for the task function [f]. *)
Definition promise_step {T} `{Zero T} (f : func1 Context T) (ev : event)
    (s : heap T * awaiter T) : option (heap T * awaiter T) :=
  let '(h, a) := s in
  match ev with
  | ObRunner =>
      match runner h with
      | RunCall =>
          let fs := SafeFunc1E f in
          match fs (Ctx h) with
          | Returned res err =>
              Some (mkHeap (Ctx h) (WaitCh h) (ActiveGate h) (WaitChGate h) (ComplCh h)
                           (ResWE h) (Waiter h) (RunStore res err) (closer h), a)
          | Panicked _ => None
          end
      | RunStore res err =>
          Some (mkHeap (Ctx h) (WaitCh h) (ActiveGate h) (WaitChGate h) (ComplCh h)
                       (mkResult res err) (Waiter h) RunCloseCompl (closer h), a)
      | RunCloseCompl =>
          match close (ComplCh h) with
          | Ok c =>
              Some (mkHeap (Ctx h) (WaitCh h) (ActiveGate h) (WaitChGate h) c
                           (ResWE h) (Waiter h) RunExited (closer h), a)
          | _ => None
          end
      | RunExited => None
      end
  | ObCloser =>
      match closer h with
      | CloserRecv =>
          match recv (ComplCh h) with
          | Some (_, c) =>
              Some (mkHeap (Ctx h) (WaitCh h) (ActiveGate h) (WaitChGate h) c
                           (ResWE h) (Waiter h) (runner h) CloserClose, a)
          | None => None
          end
      | CloserClose =>
          match close (WaitCh h) with
          | Ok c =>
              Some (mkHeap (Ctx h) c (ActiveGate h) (WaitChGate h) (ComplCh h)
                           (ResWE h) (Waiter h) (runner h) CloserExited, a)
          | _ => None
          end
      | NotStarted | CloserExited => None
      end
  | ObFire r =>
      match Ctx h with
      | Live =>
          Some (mkHeap (Fired r) (WaitCh h) (ActiveGate h) (WaitChGate h) (ComplCh h)
                       (ResWE h) (Waiter h) (runner h) (closer h), a)
      | Fired _ => None
      end
  | ObAwait pick =>
      match a with
      | Idle outcomes =>
          match Wait_gate h with
          | Ok h' => Some (h', Awaiting outcomes)
          | Panic msg => Some (h, AwaitPanicked msg)
          | Blocked => None
          end
      | Awaiting outcomes =>
          match Await_rest h pick with
          | Ok (r, h') => Some (h', Idle (outcomes ++ [r]))
          | Panic msg => Some (h, AwaitPanicked msg)
          | Blocked => None
          end
      | AwaitPanicked _ => None
      end
  end.

(** The gate of a waiter: it holds [true] until the first [Wait] takes it,
    and is closed and empty from then on. *)
Definition gate_inv {T} (h : heap T) : Prop :=
  ActiveGate h = mkChan [true] 1 false \/
  (buf (ActiveGate h) = [] /\ closed (ActiveGate h) = true).

(** What holds of a promise as long as its token has not fired. *)
Definition promise_inv {T} `{Zero T} (f : func1 Context T) (s : heap T * awaiter T) : Prop :=
  let '(h, a) := s in
  Ctx h = Live ->
  Waiter h = mkSingleWaiter (mkPreWaiter None) /\
  buf (ComplCh h) = [] /\ buf (WaitCh h) = [] /\
  match runner h with
  | RunCall => True
  | RunStore res err => SafeFunc1E f Live = Returned res err
  | RunCloseCompl | RunExited =>
      SafeFunc1E f Live = Returned (Value (ResWE h)) (Error (ResWE h))
  end /\
  (closed (ComplCh h) = true -> runner h = RunExited) /\
  (closer h = CloserClose \/ closer h = CloserExited -> runner h = RunExited) /\
  (closed (WaitCh h) = true -> runner h = RunExited) /\
  (WaitChGate h = true -> closed (WaitCh h) = true) /\
  match a with
  | Idle outcomes | Awaiting outcomes =>
      forall r, r ∈ outcomes -> SafeFunc1E f Live = Returned r.1 r.2
  | AwaitPanicked _ => True
  end.

End obsolete.

(** * Properties *)

(** Take apart the conjunctions, disjunctions and existentials among the
    hypotheses. *)
Ltac split_hyps :=
  repeat match goal with
         | H : _ /\ _ |- _ => destruct H
         | H : _ \/ _ |- _ => destruct H
         | H : exists _, _ |- _ => destruct H
         end.

Ltac crush := split_hyps; simplify_eq/=; try done; try congruence.

(** ** Schedules *)

Section run_facts.
Context {E S : Type} (step : E -> S -> option S).

Lemma run_cons (ev : E) (sched : list E) (s : S) :
  run step (ev :: sched) s =
  match step ev s with
  | Some s' => run step sched s'
  | None => None
  end.
Proof. done. Qed.

Lemma run_app (sched1 sched2 : list E) (s : S) :
  run step (sched1 ++ sched2) s =
  match run step sched1 s with
  | Some s' => run step sched2 s'
  | None => None
  end.
Proof.
  revert s. induction sched1 as [|ev sched1 IH]; intros s; simpl; [done|].
  destruct (step ev s); [apply IH | done].
Qed.

(** A property of the start that every event preserves holds all along. *)
Lemma run_invariant (P : S -> Prop) :
  (forall ev s s', P s -> step ev s = Some s' -> P s') ->
  forall sched s s', P s -> run step sched s = Some s' -> P s'.
Proof.
  intros Hstep. induction sched as [|ev sched IH]; intros s s' HP; simpl.
  - intros [= <-]. done.
  - destruct (step ev s) as [s1|] eqn:Hs; [|done]. eauto.
Qed.

End run_facts.

(** ** The fault-safety wrapper *)

Section SafeFunc0E_facts.
Import util.
Context {U : Type} `{Zero U}.

Lemma SafeFunc0E_returns (f : func0 U) :
  exists res err, SafeFunc0E f tt = Returned res err.
Proof.
  unfold SafeFunc0E. destruct (f tt) as [r e|v]; simpl; eauto.
Qed.

Lemma SafeFunc0E_never_panics (f : func0 U) (v : any) :
  SafeFunc0E f tt <> Panicked v.
Proof.
  destruct (SafeFunc0E_returns f) as (r & e & ->). done.
Qed.

Lemma ErrorOf_message (v : any) : Error (ErrorOf v) = Sprintf_v v.
Proof. done. Qed.

(** X3: what [SafeFunc0E] does meet: [SafeFunc0E f] never panics; when [f]
    returns, it returns the same value and error; when [f] panics with a
    payload that is an error, it returns the zero value and that error;
    when [f] panics with any other payload that is not nil, it returns the
    zero value and the [ErrorOf] of the payload, whose message is the
    payload as [%v] prints it. *)
Theorem SafeFunc0E_contract (f : func0 U) :
  (exists res err, SafeFunc0E f tt = Returned res err) /\
  (forall res err, f tt = Returned res err -> SafeFunc0E f tt = Returned res err) /\
  (forall e, f tt = Panicked (AnyError e) -> SafeFunc0E f tt = Returned zero (Some e)) /\
  (forall v, f tt = Panicked v -> v <> AnyNil -> (forall e, v <> AnyError e) ->
     SafeFunc0E f tt = Returned zero (Some (ErrorOf v)) /\
     Error (ErrorOf v) = Sprintf_v v).
Proof.
  split; [apply SafeFunc0E_returns|].
  unfold SafeFunc0E. split; [|split].
  - intros res err ->. done.
  - intros e ->. done.
  - intros v -> Hnil Herr. destruct v as [|s|n|e]; simpl; try done.
    by destruct (Herr e).
Qed.

End SafeFunc0E_facts.

(** The contract on the panicking function of the examples. *)
Lemma SafeFunc0E_contract_witness :
  util.SafeFunc0E (fun _ => util.Panicked (AnyString "f2 panicked")) tt =
  util.Returned 0%Z (Some (ErrorOf (AnyString "f2 panicked"))).
Proof.
  destruct (SafeFunc0E_contract (U := Z)
              (fun _ => util.Panicked (AnyString "f2 panicked")))
    as (_ & _ & _ & Hpanic).
  destruct (Hpanic (AnyString "f2 panicked")) as [Hres _];
    [reflexivity | discriminate | intros e; discriminate |].
  exact Hres.
Defined.

(** C1, the code at the failing input.  [f] panics with a nil payload, as
    [panic(err)] does when [err] is nil: [recover] returns nil, the
    deferred function takes it for a return of [f], and the wrapper
    returns the zero value and a nil error, as if [f] had succeeded,
    where its documentation promises an error whenever [f] panics. *)
Lemma SafeFunc0E_nil_payload :
  util.SafeFunc0E (fun _ => util.Panicked (U := Z) AnyNil) tt = util.Returned 0%Z None /\
  util.SafeFunc0E (fun _ => util.Panicked (U := Z) AnyNil) tt <>
    util.Returned 0%Z (Some (ErrorOf AnyNil)).
Proof. split; [reflexivity | discriminate]. Qed.

(** ** The rendezvous primitive *)

Section ReceiveWatch_facts.
Import util gochan context rdv.
Context {T : Type} `{Zero T}.

Lemma ReceiveWatch_Live (rv : Rdv T) (pick : bool) :
  ReceiveWatch rv Live pick = Receive rv.
Proof.
  unfold ReceiveWatch, Receive. by destruct (recv (ch rv)) as [[data c]|].
Qed.

Lemma ReceiveWatch_Fired_empty (rv : Rdv T) (r : reason) (pick : bool) :
  recv (ch rv) = None ->
  ReceiveWatch rv (Fired r) pick = Ok ((zero, Err (Fired r)), rv).
Proof. unfold ReceiveWatch. by intros ->. Qed.

Lemma ReceiveWatch_both (rv : Rdv T) (r : reason) (pick : bool) :
  recv (ch rv) <> None ->
  ReceiveWatch rv (Fired r) pick =
  if pick then Receive rv else Ok ((zero, Err (Fired r)), rv).
Proof.
  unfold ReceiveWatch, Receive. destruct (recv (ch rv)) as [[data c]|]; [|done].
  by destruct pick.
Qed.


End ReceiveWatch_facts.



Section handle_facts.
Import util gochan context errgroup rdv handle.
Context {T : Type} `{Zero T} (f : Context -> outcome T).

Lemma inv_start (eg : bool) (c : Context) (g : Group) : inv (T := T) eg (start eg c g).
Proof. destruct eg; repeat split; eauto. Qed.

Lemma recv_empty_open (A : Type) `{Zero A} (c : chan A) :
  buf c = [] -> closed c = false -> recv c = None.
Proof. unfold recv. by intros -> ->. Qed.

Lemma recv_empty_closed (A : Type) `{Zero A} (c : chan A) :
  buf c = [] -> closed c = true -> recv c = Some (zero, c).
Proof. unfold recv. by intros -> ->. Qed.

Lemma body_step_inv (eg : bool) (s : state T) (t' : task T) :
  inv eg s ->
  body_step (if eg then Finish else fun _ => Exited) (Some (CtxApply (hctx s) f)) (htask s)
    = Some t' ->
  inv eg (mkState t' (hctx s) (hgroup s) (taken s)).
Proof.
  destruct s as [[p [c]] cx g tk]. unfold inv, body_step; simpl.
  intros (Hcap & Hg & Hpc). destruct p as [|d|e|e| |msg]; simpl.
  - destruct (SafeFunc0E_returns (CtxApply cx f)) as (r & e & ->).
    intros [= <-]; simpl. destruct Hpc as (? & ? & ?). done.
  - destruct Hpc as (Hbuf & Hcl & Htk & Hopen).
    unfold send. rewrite Hcl, Hbuf, Hcap. simpl.
    intros [= <-]; simpl. repeat split; try done.
    left. eauto.
  - destruct Hpc as (Hcl & Hsent). unfold close. rewrite Hcl.
    intros [= <-]; simpl. destruct eg; done.
  - done.
  - done.
  - done.
Qed.


Lemma Receive_Ok_inv (rv rv' : Rdv T) (r : T * error) :
  Receive rv = Ok (r, rv') ->
  exists d rest, buf (ch rv) = d :: rest /\ chanOpen d = true /\
    r = (value d, err d) /\ rv' = mkRdv (mkChan rest (cap (ch rv)) (closed (ch rv))).
Proof.
  unfold Receive, recv. destruct (buf (ch rv)) as [|d rest] eqn:Hbuf.
  - destruct (closed (ch rv)); simpl; done.
  - destruct (chanOpen d) eqn:Hopen; simpl; [|done].
    intros [= <- <-]. eauto 10.
Qed.

Lemma taken_step (eg : bool) (s : state T) (r : T * error) (rv' : Rdv T) :
  inv eg s ->
  Receive (rv (htask s)) = Ok (r, rv') ->
  inv eg (mkState (mkTask (at_pc (htask s)) rv') (hctx s) (hgroup s) (taken s ++ [r])).
Proof.
  intros Hinv (d & rest & Hbuf & Hopen & -> & ->)%Receive_Ok_inv.
  destruct s as [[p [c]] cx g tk]. unfold inv in *; simpl in *.
  destruct Hinv as (Hcap & Hg & Hpc). split; [done|]. split; [done|].
  assert (Hsent : sent_once c tk ->
            sent_once (mkChan rest (cap c) (closed c)) (tk ++ [(value d, err d)])).
  { intros [(d' & Hb & _ & ->)|(Hb & _)]; [|congruence].
    right. rewrite Hbuf in Hb. injection Hb as -> ->. simpl. eauto. }
  destruct p; simpl; try (destruct Hpc as (Hb & _); congruence);
    intuition.
Qed.

Lemma inv_step (eg : bool) (ev : event) (s s' : state T) :
  inv eg s -> step f ev s = Some s' -> inv eg s'.
Proof.
  intros Hinv. destruct ev as [|r| |pick]; unfold step.
  - destruct (hgroup s) as [g|] eqn:Hg.
    + destruct eg; [|destruct Hinv as (_ & Hn & _); congruence].
      destruct (at_pc (htask s)) eqn:Hpc;
        try (unfold GoEg_step;
             destruct (body_step _ _ _) as [t'|] eqn:Hb; [|done]; intros [= <-];
             rewrite <- Hg; by apply (body_step_inv true)).
      intros [= <-]. destruct s as [[p [c]] cx g' tk]. unfold inv in *; simpl in *.
      subst. intuition eauto.
    + destruct eg; [destruct Hinv as (_ & [? Hn] & _); congruence|].
      unfold Go_step. destruct (body_step _ _ _) as [t'|] eqn:Hb; [|done].
      intros [= <-]. rewrite <- Hg. by apply (body_step_inv false).
  - destruct (hctx s); [|done]. intros [= <-]. done.
  - destruct (Receive _) as [| |[r rv']] eqn:Hr; try done.
    intros [= <-]. by apply taken_step.
  - destruct (ReceiveWatch _ _ _) as [| |[r rv']] eqn:Hr; try done.
    intros [= <-]. unfold via_channel.
    destruct (hctx s) as [|r0] eqn:Hc.
    + rewrite ReceiveWatch_Live in Hr.
      destruct (Receive_Ok_inv _ _ _ Hr) as (d & rest & Hbuf & _).
      unfold recv. rewrite Hbuf. rewrite <- Hc. by apply taken_step.
    + destruct (recv (ch (rv (htask s)))) as [got|] eqn:Hrecv.
      * rewrite ReceiveWatch_both in Hr by congruence. destruct pick.
        -- rewrite <- Hc. by apply taken_step.
        -- injection Hr as <- <-. by destruct s as [[p [c]] cx g tk].
      * rewrite ReceiveWatch_Fired_empty in Hr by done.
        injection Hr as <- <-. by destruct s as [[p [c]] cx g tk].
Qed.

Lemma inv_run (eg : bool) (c : Context) (g : Group) (sched : list event) (s : state T) :
  run (step f) sched (start eg c g) = Some s -> inv eg s.
Proof.
  apply (run_invariant (step f) (inv eg)); [|apply inv_start].
  intros ev s1 s2. apply inv_step.
Qed.

Lemma goroutine_progress (eg : bool) (s : state T) :
  inv eg s -> at_pc (htask s) <> Exited -> exists s', step f HGo s = Some s'.
Proof.
  destruct s as [[p [c]] cx g tk]. unfold inv, step; simpl.
  intros (Hcap & Hg & Hpc) Hne.
  destruct eg.
  - destruct Hg as [g' ->].
    destruct p as [|d|e|e| |msg]; try done; unfold GoEg_step, body_step; simpl.
    + destruct (SafeFunc0E_returns (CtxApply cx f)) as (r & e & ->). eauto.
    + destruct Hpc as (Hbuf & Hcl & _). unfold send. rewrite Hcl, Hbuf, Hcap. simpl. eauto.
    + destruct Hpc as (Hcl & _). unfold close. rewrite Hcl. eauto.
    + eauto.
  - rewrite Hg.
    destruct p as [|d|e|e| |msg]; try done; unfold Go_step, body_step; simpl.
    + destruct (SafeFunc0E_returns (CtxApply cx f)) as (r & e & ->). eauto.
    + destruct Hpc as (Hbuf & Hcl & _). unfold send. rewrite Hcl, Hbuf, Hcap. simpl. eauto.
    + destruct Hpc as (Hcl & _). unfold close. rewrite Hcl. eauto.
    + by destruct Hpc.
Qed.

Lemma remaining_step (eg : bool) (ev : event) (s s' : state T) :
  inv eg s -> step f ev s = Some s' ->
  remaining eg (at_pc (htask s')) + own_steps [ev] = remaining eg (at_pc (htask s)).
Proof.
  intros Hinv. destruct ev as [|r| |pick]; unfold step; simpl.
  - destruct s as [[p [c]] cx g tk]. unfold inv in Hinv; simpl in *.
    destruct Hinv as (Hcap & Hg & Hpc).
    destruct eg.
    + destruct Hg as [g' ->].
      destruct p as [|d|e|e| |msg]; try done; unfold GoEg_step, body_step; simpl.
      * destruct (SafeFunc0E_returns (CtxApply cx f)) as (r & e & ->). by intros [= <-].
      * destruct Hpc as (Hbuf & Hcl & _). unfold send. rewrite Hcl, Hbuf, Hcap. simpl.
        by intros [= <-].
      * destruct Hpc as (Hcl & _). unfold close. rewrite Hcl. by intros [= <-].
      * by intros [= <-].
    + rewrite Hg.
      destruct p as [|d|e|e| |msg]; try done; unfold Go_step, body_step; simpl.
      * destruct (SafeFunc0E_returns (CtxApply cx f)) as (r & e & ->). by intros [= <-].
      * destruct Hpc as (Hbuf & Hcl & _). unfold send. rewrite Hcl, Hbuf, Hcap. simpl.
        by intros [= <-].
      * destruct Hpc as (Hcl & _). unfold close. rewrite Hcl. by intros [= <-].
  - destruct (hctx s); [|done]. intros [= <-]. simpl. lia.
  - destruct (Receive _) as [| |[r rv']]; try done. intros [= <-]. simpl. lia.
  - destruct (ReceiveWatch _ _ _) as [| |[r rv']]; try done. intros [= <-]. simpl. lia.
Qed.

Lemma own_steps_app (sched1 sched2 : list event) :
  own_steps (sched1 ++ sched2) = own_steps sched1 + own_steps sched2.
Proof.
  induction sched1 as [|[] sched1 IH]; simpl; lia.
Qed.

Lemma remaining_run (eg : bool) (sched : list event) (s s' : state T) :
  inv eg s -> run (step f) sched s = Some s' ->
  remaining eg (at_pc (htask s')) + own_steps sched = remaining eg (at_pc (htask s)).
Proof.
  revert s. induction sched as [|ev sched IH]; intros s Hinv Hrun; simpl in Hrun.
  - injection Hrun as <-. simpl. lia.
  - destruct (step f ev s) as [s1|] eqn:Hs; [|done].
    pose proof (remaining_step _ _ _ _ Hinv Hs) as H1.
    pose proof (IH s1 (inv_step _ _ _ _ Hinv Hs) Hrun) as H2.
    change (ev :: sched) with ([ev] ++ sched). rewrite own_steps_app. lia.
Qed.


(** C9: the goroutine started by [Go] or [GoEg] never crashes and is never
    blocked, whatever the token and the receivers do and even when nobody
    receives: as long as it has not exited its next statement can run, and
    the send of its record goes through, the channel having capacity 1; it
    exits after exactly three statements of its own (four with the report
    to the group), and then it has written exactly one record. *)
Theorem goroutine_never_blocks (eg : bool) (c : Context) (g : Group)
    (sched : list event) (s : state T) :
  run (step f) sched (start eg c g) = Some s ->
  (forall msg, at_pc (htask s) <> Crashed msg) /\
  (at_pc (htask s) <> Exited -> exists s', step f HGo s = Some s') /\
  (forall d, at_pc (htask s) = Send d -> exists c', send (ch (rv (htask s))) d = Ok c') /\
  cap (ch (rv (htask s))) = 1 /\
  remaining eg (at_pc (htask s)) + own_steps sched = (if eg then 4 else 3) /\
  (at_pc (htask s) = Exited ->
   List.length (buf (ch (rv (htask s)))) + List.length (taken s) = 1).
Proof.
  intros Hrun. pose proof (inv_run _ _ _ _ _ Hrun) as Hinv.
  split; [|split; [|split; [|split; [|split]]]].
  - intros msg Hpc. destruct Hinv as (_ & _ & Hp). by rewrite Hpc in Hp.
  - by apply (goroutine_progress eg).
  - intros d Hpc. destruct Hinv as (Hcap & _ & Hp). rewrite Hpc in Hp.
    destruct Hp as (Hbuf & Hcl & _). unfold send. rewrite Hcl, Hbuf, Hcap. simpl. eauto.
  - by destruct Hinv.
  - rewrite (remaining_run eg sched _ s (inv_start eg c g) Hrun). by destruct eg.
  - intros Hpc. destruct Hinv as (_ & _ & Hp). rewrite Hpc in Hp.
    destruct Hp as (_ & [(d & -> & _ & ->)|(-> & r & ->)]); done.
Qed.

Lemma closed_empty_panics (s : state T) :
  buf (ch (rv (htask s))) = [] -> closed (ch (rv (htask s))) = true ->
  receive_panics s.
Proof.
  intros Hbuf Hcl. unfold receive_panics, Receive, ReceiveWatch.
  rewrite (recv_empty_closed _ _ Hbuf Hcl). simpl. split; [done|].
  intros [|r] pick [?|?]; subst; done.
Qed.

(** C7: once a receive has taken the record of a handle, every further
    [Receive], and every [ReceiveWatch] that takes the channel case,
    panics with the closed-rendezvous message: at once when the goroutine
    has run its deferred close, and otherwise as soon as it has, which is
    its next statement and can run.  No call returns a record again; a
    [ReceiveWatch] can only return the zero value with the error of a
    token that is done. *)
Theorem second_receive_panics (eg : bool) (c : Context) (g : Group)
    (sched : list event) (s : state T) :
  run (step f) sched (start eg c g) = Some s ->
  taken s <> [] ->
  (receive_panics s \/
   (Receive (rv (htask s)) = Blocked /\
    exists s', step f HGo s = Some s' /\ receive_panics s')) /\
  (forall r rv', Receive (rv (htask s)) <> Ok (r, rv')) /\
  (forall cx pick r rv', ReceiveWatch (rv (htask s)) cx pick = Ok (r, rv') ->
     via_channel (rv (htask s)) cx pick = false /\ r = (zero, Err cx) /\ Err cx <> None).
Proof.
  intros Hrun Htaken. pose proof (inv_run _ _ _ _ _ Hrun) as Hinv.
  assert (Hbuf : buf (ch (rv (htask s))) = []).
  { assert (Hsent : sent_once (ch (rv (htask s))) (taken s) ->
                      buf (ch (rv (htask s))) = []).
    { intros [(d & _ & _ & ?)|(? & _)]; done. }
    destruct Hinv as (_ & _ & Hp).
    destruct (at_pc (htask s)); [| | | | |done]; try (by destruct Hp as (? & _));
      apply Hsent, Hp. }
  split; [|split].
  - destruct (closed (ch (rv (htask s)))) eqn:Hcl.
    + left. by apply closed_empty_panics.
    + right. split.
      { unfold Receive. by rewrite (recv_empty_open _ _ Hbuf Hcl). }
      destruct s as [[p [ch0]] cx g0 tk]; simpl in *.
      destruct Hinv as (Hcap & Hg & Hp).
      destruct p as [|d|e|e| |msg]; simpl in Hp;
        try (by destruct Hp as (_ & _ & ?)); try (by destruct Hp as (_ & _ & ? & _));
        try (destruct Hp as (? & ? & _); congruence);
        try (destruct Hp as (? & _); congruence); try done.
      destruct g0 as [g0|]; unfold step, Go_step, GoEg_step, body_step, close; simpl;
        rewrite Hcl; (eexists; split; [reflexivity|]); by apply closed_empty_panics.
  - intros r rv' Hr. destruct (Receive_Ok_inv _ _ _ Hr) as (d & rest & Hb & _). congruence.
  - intros cx pick r rv' Hr. unfold via_channel, ReceiveWatch in *.
    unfold recv in *. rewrite Hbuf in *.
    destruct (closed (ch (rv (htask s)))); simpl in *.
    + destruct cx as [|r0]; [done|]. destruct pick; [done|].
      injection Hr as <- <-. by destruct r0.
    + destruct cx as [|r0]; [done|]. injection Hr as <- <-. by destruct r0.
Qed.

End handle_facts.

(** A task that nobody receives from: its goroutine runs its three
    statements and leaves one record in the channel. *)
Lemma goroutine_never_blocks_witness :
  let f : context.Context -> util.outcome Z := fun _ => util.Returned 7%Z None in
  let s := handle.mkState
             (rdv.mkTask rdv.Exited
                (rdv.mkRdv (gochan.mkChan [rdv.mkData 7%Z None true] 1 true)))
             context.Live None [] in
  run (handle.step f) [handle.HGo; handle.HGo; handle.HGo]
      (handle.start false context.Live (errgroup.WithContext context.Live)) = Some s /\
  List.length (gochan.buf (rdv.ch (rdv.rv (handle.htask s)))) + List.length (handle.taken s) = 1.
Proof.
  intros f s.
  assert (Hrun : run (handle.step f) [handle.HGo; handle.HGo; handle.HGo]
                   (handle.start false context.Live (errgroup.WithContext context.Live))
                 = Some s) by reflexivity.
  split; [exact Hrun|].
  destruct (goroutine_never_blocks f false _ _ _ _ Hrun) as (_ & _ & _ & _ & _ & Hone).
  apply Hone. reflexivity.
Defined.

(** A task whose record was received after the send: the goroutine closes
    the channel, and no [Receive] returns a record any more. *)
Lemma second_receive_panics_witness :
  let f : context.Context -> util.outcome Z := fun _ => util.Returned 7%Z None in
  let s := handle.mkState
             (rdv.mkTask rdv.Exited (rdv.mkRdv (gochan.mkChan [] 1 true)))
             context.Live None [(7%Z, None)] in
  run (handle.step f) [handle.HGo; handle.HGo; handle.HReceive; handle.HGo]
      (handle.start false context.Live (errgroup.WithContext context.Live)) = Some s /\
  forall r rv', rdv.Receive (rdv.rv (handle.htask s)) <> gochan.Ok (r, rv').
Proof.
  intros f s.
  assert (Hrun : run (handle.step f) [handle.HGo; handle.HGo; handle.HReceive; handle.HGo]
                   (handle.start false context.Live (errgroup.WithContext context.Live))
                 = Some s) by reflexivity.
  split; [exact Hrun|].
  destruct (second_receive_panics f false _ _ _ _ Hrun) as (_ & Hnever & _).
  - discriminate.
  - exact Hnever.
Defined.

(** ** The collect-all combinators *)

Section collect_all_facts.
Import util gochan context errgroup rdv rdvext.


Context {T : Type} `{Zero T}.

Lemma task_inv_weaken (b : bool) (t : task T) : task_inv true t -> task_inv b t.
Proof.
  unfold task_inv, record_in. intros (Hcap & Hp). split; [done|].
  destruct (at_pc t); try done; destruct Hp as (? & [?|[? _]]); eauto; done.
Qed.

Lemma Go_step_task_inv (b : bool) (f : func0 T) (t t' : task T) :
  task_inv b t -> Go_step (Some f) t = Some t' -> task_inv b t'.
Proof.
  destruct t as [p [c]]. unfold task_inv, Go_step, body_step; simpl.
  intros (Hcap & Hp). destruct p as [|d|e|e| |msg]; try done.
  - destruct (SafeFunc0E_returns f) as (r & e & ->). intros [= <-]. simpl. by destruct Hp.
  - destruct Hp as (Hbuf & Hcl & Hopen). unfold send. rewrite Hcl, Hbuf, Hcap. simpl.
    intros [= <-]. simpl. repeat split; try done. left. eauto.
  - destruct Hp as (Hcl & Hrec). unfold close. rewrite Hcl. intros [= <-]. done.
Qed.

Lemma Go_step_progress (b : bool) (f : func0 T) (t : task T) :
  task_inv b t -> at_pc t <> Exited -> exists t', Go_step (Some f) t = Some t'.
Proof.
  destruct t as [p [c]]. unfold task_inv, Go_step, body_step; simpl.
  intros (Hcap & Hp) Hne. destruct p as [|d|e|e| |msg]; try done.
  - destruct (SafeFunc0E_returns f) as (r & e & ->). eauto.
  - destruct Hp as (Hbuf & Hcl & Hopen). unfold send. rewrite Hcl, Hbuf, Hcap. simpl. eauto.
  - destruct Hp as (Hcl & Hrec). unfold close. rewrite Hcl. eauto.
Qed.

(** A [ReceiveWatch] on a task that the caller has not received from does
    not panic, and leaves the task as it may be after the caller has
    passed. *)
Lemma ReceiveWatch_task_inv (t : task T) (cx : Context) (pick : bool) :
  task_inv true t ->
  match ReceiveWatch (rv t) cx pick with
  | Ok (_, rv') => task_inv false (mkTask (at_pc t) rv')
  | Panic _ => False
  | Blocked => True
  end.
Proof.
  intros Hinv. pose proof (task_inv_weaken false t Hinv) as Hweak.
  destruct t as [p [c]]. unfold task_inv, record_in, ReceiveWatch, recv in *; simpl in *.
  destruct Hinv as (Hcap & Hp).
  destruct (buf c) as [|d rest] eqn:Hbuf.
  - destruct (closed c) eqn:Hcl.
    + destruct p; crush.
    + destruct cx; [done|]. simpl. by rewrite Hbuf, Hcl.
  - assert (Hd : chanOpen d = true /\ rest = []).
    { destruct p; crush. }
    destruct Hd as (Hopen & ->).
    assert (Htaken : task_inv false (mkTask p (mkRdv (mkChan [] (cap c) (closed c))))).
    { unfold task_inv, record_in; simpl. split; [done|].
      destruct p; try done; try (destruct Hp as (? & _); congruence).
      all: destruct Hp as (? & _); eauto. }
    destruct cx as [|r]; simpl; rewrite Hopen; simpl; [done|].
    destruct pick; [done|]. simpl. by rewrite Hbuf.
Qed.

Lemma task_inv_passed (b : bool) (t : task T) : task_inv b t -> task_inv false t.
Proof. destruct b; [apply task_inv_weaken | done]. Qed.

Lemma launch_task_inv : task_inv true (launch T).
Proof. by repeat split. Qed.

Context (funcs : list (Context -> outcome T)).

Lemma slice_inv_start (c : Context) :
  slice_inv (List.length funcs) (RunSlice_start c funcs).
Proof.
  unfold slice_inv, RunSlice_start; simpl.
  rewrite length_fmap, length_replicate. split; [done|]. split; [lia|]. split; [done|].
  intros j t. rewrite list_lookup_fmap. destruct (funcs !! j); simpl; [|done].
  intros [= <-]. apply launch_task_inv.
Qed.

Lemma slice_inv_step (ev : event) (s s' : slice_state T) :
  slice_inv (List.length funcs) s -> RunSlice_step funcs ev s = Some s' ->
  slice_inv (List.length funcs) s'.
Proof.
  destruct s as [ts cx cl]. unfold slice_inv, RunSlice_step; simpl.
  intros (Hlen & Hcl). destruct ev as [j|r|pick].
  - destruct (funcs !! j) as [f|]; [|done].
    destruct (ts !! j) as [t|] eqn:Ht; [|done].
    destruct (Go_step _ t) as [t'|] eqn:Hstep; [|done]. intros [= <-]; simpl.
    rewrite length_insert. split; [done|].
    assert (Hts : forall b, (forall k u, ts !! k = Some u -> task_inv (b k) u) ->
                            forall k u, <[j:=t']> ts !! k = Some u -> task_inv (b k) u).
    { intros b Hall k u [(-> & <- & _)|(_ & Hk)]%list_lookup_insert_Some; [|eauto].
      eapply Go_step_task_inv; eauto. }
    destruct cl as [i results|results err|msg]; [| |done].
    + destruct Hcl as (Hi & Hres & Hall). split; [done|]. split; [done|].
      apply (Hts (fun k => bool_decide (i <= k))), Hall.
    + destruct Hcl as (Hres & Herr & Hall). split; [done|]. split; [done|].
      apply (Hts (fun _ => false)), Hall.
  - destruct cx; [|done]. intros [= <-]. done.
  - destruct cl as [i results|results err|msg]; [| done | done].
    destruct Hcl as (Hi & Hres & Hall).
    destruct (ts !! i) as [t|] eqn:Ht.
    + pose proof (lookup_lt_Some _ _ _ Ht) as Hlt.
      pose proof (Hall i t Ht) as Hti. rewrite bool_decide_eq_true_2 in Hti by lia.
      pose proof (ReceiveWatch_task_inv t cx pick Hti) as Hrw.
      destruct (ReceiveWatch (rv t) cx pick) as [| |[[v e] rv']]; [done|done|].
      intros [= <-]; simpl. rewrite !length_insert.
      split; [done|]. split; [lia|]. split; [done|].
      intros k u [(<- & <- & _)|(Hne & Hk)]%list_lookup_insert_Some.
      * rewrite bool_decide_eq_false_2 by lia. done.
      * specialize (Hall k u Hk). repeat case_bool_decide; try done; lia.
    + intros [= <-]; simpl. split; [done|]. split; [done|]. split; [done|].
      intros k u Hk. eapply task_inv_passed, Hall, Hk.
Qed.

Lemma slice_inv_run (c : Context) (sched : list event) (s : slice_state T) :
  run (RunSlice_step funcs) sched (RunSlice_start c funcs) = Some s ->
  slice_inv (List.length funcs) s.
Proof.
  apply (run_invariant (RunSlice_step funcs) (slice_inv (List.length funcs)));
    [|apply slice_inv_start].
  intros ev s1 s2. apply slice_inv_step.
Qed.

Lemma entry_written_step (i : nat) (x : ResultWithError T) (ev : event)
    (s s' : slice_state T) :
  entry_written i x s -> RunSlice_step funcs ev s = Some s' -> entry_written i x s'.
Proof.
  destruct s as [ts cx cl]. unfold entry_written, RunSlice_step; simpl.
  intros Hw. destruct ev as [j|r|pick].
  - destruct (funcs !! j); [|done]. destruct (ts !! j); [|done].
    destruct (Go_step _ _); [|done]. by intros [= <-].
  - destruct cx; [|done]. by intros [= <-].
  - destruct cl as [k results|results err|msg]; [|done|done].
    destruct Hw as (Hik & Hx). destruct (ts !! k) as [t|].
    + destruct (ReceiveWatch _ _ _) as [| |[[v e] rv']]; [done| |]; intros [= <-]; simpl.
      * done.
      * split; [lia|]. rewrite list_lookup_insert_ne by lia. done.
    + by intros [= <-].
Qed.

Lemma Go_step_to_deliver (b : bool) (f : func0 T) (t t' : task T) :
  task_inv b t -> Go_step (Some f) t = Some t' ->
  to_deliver (at_pc t') = pred (to_deliver (at_pc t)).
Proof.
  destruct t as [p [c]]. unfold task_inv, Go_step, body_step; simpl.
  intros (Hcap & Hp). destruct p as [|d|e|e| |msg]; try done.
  - destruct (SafeFunc0E_returns f) as (r & e & ->). by intros [= <-].
  - destruct Hp as (Hbuf & Hcl & Hopen). unfold send. rewrite Hcl, Hbuf, Hcap. simpl.
    by intros [= <-].
  - destruct Hp as (Hcl & Hrec). unfold close. rewrite Hcl. by intros [= <-].
Qed.

(** The goroutine of the task that the caller waits for can run until its
    record is in the channel. *)
Lemma deliver (k : nat) :
  forall (s : slice_state T) (i : nat) (results : list (ResultWithError T)) (t : task T),
    slice_inv (List.length funcs) s ->
    caller s = Receiving i results -> tasks s !! i = Some t ->
    to_deliver (at_pc t) = k ->
    exists sched s1 t1,
      run (RunSlice_step funcs) sched s = Some s1 /\
      caller s1 = Receiving i results /\ tasks s1 !! i = Some t1 /\
      to_deliver (at_pc t1) = 0.
Proof.
  induction k as [|k IH]; intros s i results t Hinv Hcl Ht Hk.
  - exists [], s, t. done.
  - pose proof Hinv as (Hlen & Hc). rewrite Hcl in Hc. destruct Hc as (_ & _ & Hall).
    pose proof (Hall i t Ht) as Hti.
    destruct (lookup_lt_is_Some_2 funcs i) as [f Hf].
    { rewrite <- Hlen. by eapply lookup_lt_Some. }
    destruct (Go_step_progress _ (CtxApply (ctx s) f) t Hti) as [t' Hstep].
    { intros Hpc. rewrite Hpc in Hk. done. }
    assert (Hs : RunSlice_step funcs (EvTask i) s
                 = Some (mkSlice (<[i:=t']> (tasks s)) (ctx s) (caller s))).
    { unfold RunSlice_step. by rewrite Hf, Ht, Hstep. }
    destruct (IH (mkSlice (<[i:=t']> (tasks s)) (ctx s) (caller s)) i results t')
      as (sched & s1 & t1 & Hrun & ? & ? & ?).
    + by eapply slice_inv_step.
    + done.
    + simpl. apply list_lookup_insert_eq. by eapply lookup_lt_Some.
    + rewrite (Go_step_to_deliver _ _ _ _ Hti Hstep), Hk. done.
    + exists (EvTask i :: sched), s1, t1. rewrite run_cons, Hs. done.
Qed.

Lemma can_return_from (k : nat) :
  forall (s : slice_state T) (i : nat) (results : list (ResultWithError T)),
    slice_inv (List.length funcs) s ->
    caller s = Receiving i results -> List.length funcs - i = k ->
    exists sched s', run (RunSlice_step funcs) sched s = Some s' /\ returned s'.
Proof.
  induction k as [|k IH]; intros s i results Hinv Hcl Hk.
  - pose proof Hinv as (Hlen & Hc). rewrite Hcl in Hc. destruct Hc as (Hi & _ & _).
    exists [EvMain true]. eexists. rewrite run_cons. unfold RunSlice_step. rewrite Hcl.
    rewrite (lookup_ge_None_2 (tasks s) i) by lia. split; [done|].
    unfold returned; simpl; eauto.
  - pose proof Hinv as (Hlen & _).
    destruct (lookup_lt_is_Some_2 (tasks s) i) as [t Ht]; [lia|].
    destruct (deliver _ s i results t Hinv Hcl Ht eq_refl)
      as (sched1 & s1 & t1 & Hrun1 & Hcl1 & Ht1 & Hd1).
    assert (Hinv1 : slice_inv (List.length funcs) s1).
    { revert Hrun1. apply (run_invariant (RunSlice_step funcs)); [|done].
      intros ev sa sb. apply slice_inv_step. }
    pose proof Hinv1 as (Hlen1 & Hc1). rewrite Hcl1 in Hc1.
    destruct Hc1 as (_ & _ & Hall1). pose proof (Hall1 i t1 Ht1) as Hti.
    rewrite bool_decide_eq_true_2 in Hti by lia.
    assert (Hrw : exists r rv', ReceiveWatch (rv t1) (ctx s1) true = Ok (r, rv')).
    { destruct t1 as [p [c]]. unfold task_inv, record_in in Hti; simpl in *.
      destruct Hti as (_ & Hp). unfold ReceiveWatch, recv; simpl.
      destruct p; try done; destruct Hp as (_ & [(d & -> & ->)|(? & _)]); try done;
        destruct (ctx s1); simpl; eauto. }
    destruct Hrw as ([v e] & rv' & Hrw).
    assert (Hs : exists s2, RunSlice_step funcs (EvMain true) s1 = Some s2 /\
                            exists results2, caller s2 = Receiving (S i) results2).
    { unfold RunSlice_step. rewrite Hcl1, Ht1, Hrw. eexists. split; [done|]. simpl. eauto. }
    destruct Hs as (s2 & Hs2 & results2 & Hcl2).
    destruct (IH s2 (S i) results2) as (sched2 & s' & Hrun2 & Hret).
    + by eapply slice_inv_step.
    + done.
    + lia.
    + exists (sched1 ++ EvMain true :: sched2), s'. split; [|done].
      rewrite run_app, Hrun1, run_cons, Hs2. done.
Qed.

Lemma can_return (s : slice_state T) :
  slice_inv (List.length funcs) s ->
  exists sched s', run (RunSlice_step funcs) sched s = Some s' /\ returned s'.
Proof.
  intros Hinv. destruct (caller s) as [i results|results err|msg] eqn:Hcl.
  - by eapply can_return_from.
  - exists [], s. unfold returned. eauto.
  - destruct Hinv as (_ & Hc). by rewrite Hcl in Hc.
Qed.

(** C5, amended: [RunSlice] can always go on to return, whatever the
    token does; the results it returns have one entry per input function;
    and the entry of a task is the zero value with the error of the
    token's reason ([Canceled] or [DeadlineExceeded]) whenever, at the
    time the caller runs its receive for that task, the token is done and
    the record of the task is not in its channel. *)
Theorem RunSlice_results (c : Context) (sched : list event) (s : slice_state T) :
  run (RunSlice_step funcs) sched (RunSlice_start c funcs) = Some s ->
  (exists sched' s', run (RunSlice_step funcs) sched' s = Some s' /\ returned s') /\
  (forall results err, caller s = SliceReturned results err ->
     List.length results = List.length funcs /\
     forall pre pick post s1 i results1 t r,
       sched = pre ++ EvMain pick :: post ->
       run (RunSlice_step funcs) pre (RunSlice_start c funcs) = Some s1 ->
       caller s1 = Receiving i results1 -> tasks s1 !! i = Some t ->
       ctx s1 = Fired r -> recv (ch (rv t)) = None ->
       results !! i =
       Some (mkResult zero
               (Some (match r with Cancelled => Canceled | TimedOut => DeadlineExceeded end)))).
Proof.
  intros Hrun. pose proof (slice_inv_run _ _ _ Hrun) as Hinv.
  split; [by apply can_return|].
  intros results err Hcl. split.
  { destruct Hinv as (_ & Hc). rewrite Hcl in Hc. by destruct Hc. }
  intros pre pick post s1 i results1 t r -> Hpre Hcl1 Ht Hcx Hempty.
  rewrite run_app, Hpre, run_cons in Hrun.
  destruct (RunSlice_step funcs (EvMain pick) s1) as [s2|] eqn:Hs2; [|done].
  pose proof (slice_inv_run _ _ _ Hpre) as (Hlen1 & Hc1).
  rewrite Hcl1 in Hc1. destruct Hc1 as (_ & Hres1 & _).
  set (x := mkResult (T := T) zero
              (Some (match r with Cancelled => Canceled | TimedOut => DeadlineExceeded end))).
  assert (Hw : entry_written i x s2).
  { unfold RunSlice_step in Hs2. rewrite Hcl1, Ht, Hcx in Hs2.
    rewrite ReceiveWatch_Fired_empty in Hs2 by done. injection Hs2 as <-.
    unfold entry_written; simpl. split; [lia|].
    rewrite list_lookup_insert_eq.
    - unfold x. by destruct r.
    - rewrite Hres1, <- Hlen1. by eapply lookup_lt_Some. }
  assert (Hw' : entry_written i x s).
  { revert Hrun. apply (run_invariant (RunSlice_step funcs)); [|done].
    intros ev sa sb. apply entry_written_step. }
  unfold entry_written in Hw'. by rewrite Hcl in Hw'.
Qed.

End collect_all_facts.

(** Two tasks and a token that fires before either has delivered: both
    entries are the zero value with [Canceled]. *)
Lemma RunSlice_results_witness :
  let f : context.Context -> util.outcome Z := fun _ => util.Returned 7%Z None in
  let sched := [rdvext.EvFire context.Cancelled; rdvext.EvMain true; rdvext.EvMain true;
                rdvext.EvMain true] in
  exists s results err,
    run (rdvext.RunSlice_step [f; f]) sched (rdvext.RunSlice_start context.Live [f; f]) = Some s /\
    rdvext.caller s = rdvext.SliceReturned results err /\
    List.length results = 2 /\
    results !! 1 = Some (rdvext.mkResult 0%Z (Some Canceled)).
Proof.
  intros f sched.
  destruct (run (rdvext.RunSlice_step [f; f]) sched
              (rdvext.RunSlice_start context.Live [f; f])) as [s|] eqn:Hrun;
    [|discriminate Hrun].
  exists s.
  assert (Hs : rdvext.caller s =
               rdvext.SliceReturned
                 [rdvext.mkResult 0%Z (Some Canceled); rdvext.mkResult 0%Z (Some Canceled)]
                 (Some Canceled)).
  { injection Hrun as <-. reflexivity. }
  eexists _, _. split; [reflexivity|]. split; [exact Hs|].
  destruct (RunSlice_results [f; f] context.Live sched s Hrun) as (_ & Hres).
  destruct (Hres _ _ Hs) as (Hlen & Hentry).
  split; [exact Hlen|].
  apply (Hentry [rdvext.EvFire context.Cancelled; rdvext.EvMain true] true [rdvext.EvMain true]
           (rdvext.mkSlice [rdv.launch Z; rdv.launch Z] (context.Fired context.Cancelled)
              (rdvext.Receiving 1 [rdvext.mkResult 0%Z (Some Canceled); zero]))
           1 [rdvext.mkResult 0%Z (Some Canceled); zero] (rdv.launch Z) context.Cancelled);
    reflexivity.
Defined.

(** C5 as stated fails when a task delivers after the token has fired and
    before the caller reaches its receive.  With two tasks, the token
    fires while the record of task 1 is not ready (its goroutine has not
    even called its function); task 1 then delivers; the caller's receive
    for task 0 returns [Canceled]; its select for task 1 finds both cases
    ready and takes the channel: entry 1 is the record of the task, not
    the zero value with [Canceled]. *)
Lemma RunSlice_late_record :
  let f0 : context.Context -> util.outcome Z := fun _ => util.Returned 5%Z None in
  let f1 : context.Context -> util.outcome Z := fun _ => util.Returned 7%Z None in
  exists s1 t1 s2,
    run (rdvext.RunSlice_step [f0; f1]) [rdvext.EvFire context.Cancelled]
        (rdvext.RunSlice_start context.Live [f0; f1]) = Some s1 /\
    rdvext.ctx s1 = context.Fired context.Cancelled /\
    rdvext.tasks s1 !! 1 = Some t1 /\ rdv.at_pc t1 = rdv.Call /\
    gochan.recv (rdv.ch (rdv.rv t1)) = None /\
    run (rdvext.RunSlice_step [f0; f1])
        [rdvext.EvTask 1; rdvext.EvTask 1; rdvext.EvMain true; rdvext.EvMain true;
         rdvext.EvMain true] s1 = Some s2 /\
    rdvext.caller s2 =
      rdvext.SliceReturned [rdvext.mkResult 0%Z (Some Canceled); rdvext.mkResult 7%Z None]
                           (Some Canceled).
Proof.
  intros f0 f1. eexists _, _, _.
  split; [reflexivity|]. split; [reflexivity|]. split; [reflexivity|].
  split; [reflexivity|]. split; [reflexivity|]. split; reflexivity.
Qed.

Section Run2_facts.
Import util gochan context errgroup rdv rdvext.
Context {T1 T2 : Type} `{Zero T1, Zero T2}.
Context (f1 : Context -> outcome T1) (f2 : Context -> outcome T2).




End Run2_facts.



(** ** The fail-fast combinators *)

Section fail_fast_facts.
Import util gochan context errgroup rdv rdvexteg.

(** With no function, nothing but the token and the caller can move, and
    the group stays empty and without error. *)
Lemma RunSliceEg_empty_run {T} `{Zero T} (c : Context) (sched : list event)
    (s : sliceEg_state T) :
  run (RunSliceEg_step []) sched (RunSliceEg_start c []) = Some s ->
  members s = [] /\ wg (group s) = 0 /\ errgroup.err (group s) = None /\
  (caller s = Joining \/ caller s = Draining 0 [] None \/
   caller s = SliceEgReturned (Some []) None).
Proof.
  apply (run_invariant (RunSliceEg_step []) (fun s =>
           members s = [] /\ wg (group s) = 0 /\ errgroup.err (group s) = None /\
           (caller s = Joining \/ caller s = Draining 0 [] None \/
            caller s = SliceEgReturned (Some []) None))).
  - intros ev [ms p g cl]; simpl. intros s' (-> & Hwg & Herr & Hcl).
    unfold RunSliceEg_step; simpl. destruct ev as [j|j pick|r|pick]; try done.
    + destruct p; [|done]. intros [= <-]; simpl. done.
    + destruct Hcl as [->|[->| ->]]; [| |done].
      * unfold Wait. rewrite Hwg, Herr. intros [= <-]; simpl. split_and!; eauto.
      * intros [= <-]; simpl. split_and!; eauto.
  - simpl. split_and!; eauto.
Qed.

End fail_fast_facts.

(** C10: called with no function, [RunSlice] returns an empty results
    slice and a nil error with the first statement its caller runs, and
    [RunSliceEg] an empty (non-nil) slice and a nil error with the first
    two: nothing else has to happen first.  No run returns anything
    else. *)
Theorem no_functions_no_blocking :
  (forall (T : Type) (HT : Zero T) (c : context.Context) (pick : bool),
     run (rdvext.RunSlice_step (T := T) []) [rdvext.EvMain pick]
         (rdvext.RunSlice_start c [])
     = Some (rdvext.mkSlice [] c (rdvext.SliceReturned [] None))) /\
  (forall (T : Type) (HT : Zero T) (c : context.Context) (sched : list rdvext.event)
          (s : rdvext.slice_state T) results err,
     run (rdvext.RunSlice_step []) sched (rdvext.RunSlice_start c []) = Some s ->
     rdvext.caller s = rdvext.SliceReturned results err ->
     results = [] /\ err = None) /\
  (forall (T : Type) (HT : Zero T) (c : context.Context) (p1 p2 : bool),
     run (rdvexteg.RunSliceEg_step (T := T) []) [rdvexteg.EgMain p1; rdvexteg.EgMain p2]
         (rdvexteg.RunSliceEg_start c [])
     = Some (rdvexteg.mkSliceEg [] c
               (errgroup.mkGroup 0 None (context.fire context.Cancelled c))
               (rdvexteg.SliceEgReturned (Some []) None))) /\
  (forall (T : Type) (HT : Zero T) (c : context.Context) (sched : list rdvexteg.event)
          (s : rdvexteg.sliceEg_state T) results err,
     run (rdvexteg.RunSliceEg_step []) sched (rdvexteg.RunSliceEg_start c []) = Some s ->
     rdvexteg.caller s = rdvexteg.SliceEgReturned results err ->
     results = Some [] /\ err = None).
Proof.
  split; [|split; [|split]].
  - reflexivity.
  - intros T HT c sched s results err Hrun Hcl.
    pose proof (slice_inv_run _ _ _ _ Hrun) as (_ & Hc). rewrite Hcl in Hc.
    destruct Hc as (Hlen & -> & _). destruct results; [done|discriminate Hlen].
  - reflexivity.
  - intros T HT c sched s results err Hrun Hcl.
    destruct (RunSliceEg_empty_run _ _ _ Hrun) as (_ & _ & _ & [Hc|[Hc|Hc]]);
      rewrite Hcl in Hc; by simplify_eq.
Qed.

(** With no function and a live token, the only event that can happen is
    a statement of the caller. *)
Lemma no_functions_no_blocking_witness :
  rdvext.caller (rdvext.mkSlice (T := Z) [] context.Live (rdvext.SliceReturned [] None))
  = rdvext.SliceReturned [] None /\
  ([] : list (rdvext.ResultWithError Z)) = [] /\ (None : error) = None.
Proof.
  destruct no_functions_no_blocking as (Hfirst & Hall & _).
  split; [reflexivity|].
  apply (Hall Z _ context.Live [rdvext.EvMain true]
           (rdvext.mkSlice [] context.Live (rdvext.SliceReturned [] None))).
  - exact (Hfirst Z _ context.Live true).
  - reflexivity.
Defined.

Section RunSliceEg_facts.
Import util gochan context errgroup rdv rdvexteg.
Context {T : Type} `{Zero T}.

Lemma sum_list_with_insert (f : member T -> nat) (ms : list (member T)) (j : nat)
    (m m' : member T) :
  ms !! j = Some m ->
  sum_list_with f (<[j:=m']> ms) + f m = sum_list_with f ms + f m'.
Proof.
  revert j. induction ms as [|m0 ms IH]; intros [|j]; simpl; try done.
  - intros [= ->]. lia.
  - intros Hj. specialize (IH j Hj). lia.
Qed.

Lemma sum_list_with_zero (f : member T -> nat) (ms : list (member T)) (j : nat)
    (m : member T) :
  sum_list_with f ms = 0 -> ms !! j = Some m -> f m = 0.
Proof.
  intros Hsum Hj.
  assert (Hin : m ∈ ms) by (apply list_elem_of_lookup; eauto).
  pose proof (sum_list_with_in m f ms Hin) as Hle. lia.
Qed.

Lemma member_inv_err_mono (g g' : Group) (m : member T) :
  (errgroup.err g <> None -> errgroup.err g' <> None) ->
  member_inv g m -> member_inv g' m.
Proof.
  unfold member_inv. intros Hmono (Hcap & Hin & Hp). split; [done|]. split; [done|].
  destruct (at_pc (outer m)); try done.
  destruct Hp as (Hcl & d & Hd & Herr). split; [done|]. exists d. split; [done|]. eauto.
Qed.

Lemma finish_err_mono (e : error) (g : Group) :
  errgroup.err g <> None -> errgroup.err (finish e g) <> None.
Proof. unfold finish. destruct e, (errgroup.err g); simpl; done. Qed.

Lemma outer_step_inv (pick : bool) (g g' : Group) (m m' : member T) :
  member_inv g m -> 1 <= wg g -> outer_step pick g m = Some (m', g') ->
  member_inv g' m' /\
  (errgroup.err g <> None -> errgroup.err g' <> None) /\
  wg g' + unfinished m = wg g + unfinished m'.
Proof.
  destruct m as [[p [c]] it]. unfold member_inv, outer_step, unfinished, holds; simpl.
  intros (Hcap & Hin & Hp) Hwg.
  destruct p as [|d|e|e| |msg]; simpl; try done.
  - (* the call of the function of CtxApplyWatch *)
    unfold CtxApplyWatch_step. destruct it as [it|].
    + pose proof (ReceiveWatch_task_inv it (gctx g) pick Hin) as Hrw.
      destruct (ReceiveWatch (rv it) (gctx g) pick) as [| |[[v e] rv']]; [done|done|].
      unfold GoEg_step, body_step, SafeFunc0E; simpl. intros [= <- <-]; simpl.
      destruct Hp as (? & ?). split_and!; try done.
    + destruct Hp as (? & ?). intros [= <- <-]; simpl. split_and!; done.
  - destruct Hp as (Hbuf & Hcl & Hopen).
    unfold GoEg_step, body_step, send; simpl. rewrite Hcl, Hbuf, Hcap; simpl.
    intros [= <- <-]; simpl. split_and!; try done; [by destruct it|]. eauto.
  - destruct Hp as (Hcl & d & (Hbuf & Hopen) & Herr).
    unfold GoEg_step, body_step, close; simpl. rewrite Hcl.
    intros [= <- <-]; simpl. split_and!; try done; [by destruct it|]. eauto.
  - destruct Hp as (Hcl & d & (Hbuf & Hopen) & Herr).
    intros [= <- <-]; simpl. split_and!; try done.
    + by destruct it.
    + exists d. split_and!; try done. intros Hne. unfold finish.
      destruct e as [e|]; [|congruence]. destruct (errgroup.err g); simpl; done.
    + apply finish_err_mono.
    + unfold finish. destruct e, (errgroup.err g); simpl; lia.
Qed.

Lemma inner_step_inv (f : Context -> outcome T) (cx : Context) (g : Group)
    (m m' : member T) :
  member_inv g m -> inner_step f cx m = Some m' ->
  member_inv g m' /\ outer m' = outer m.
Proof.
  destruct m as [o it]. unfold member_inv, inner_step; simpl.
  intros (Hcap & Hin & Hp). destruct it as [it|]; [|done].
  destruct (Go_step _ it) as [it'|] eqn:Hstep; [|done]. intros [= <-]; simpl.
  split; [|done]. split; [done|]. split; [|done].
  eapply Go_step_task_inv; eauto.
Qed.

Context (funcs : list (Context -> outcome T)).

Lemma unfinished_at_start {A : Type} (l : list A) :
  sum_list_with unfinished ((fun _ => mkMember (launch T) None) <$> l) = List.length l.
Proof. induction l as [|x l IH]; [done|]. simpl. f_equal. exact IH. Qed.

Lemma wg_iter_Go_add (n : nat) (g : Group) : wg (Nat.iter n Go_add g) = n + wg g.
Proof. induction n as [|n IH]; simpl; [done|]. by rewrite IH. Qed.

Lemma join_inv_start (c : Context) :
  join_inv (List.length funcs) (RunSliceEg_start c funcs).
Proof.
  unfold join_inv, RunSliceEg_start; simpl. split; [done|].
  rewrite length_fmap, wg_iter_Go_add, unfinished_at_start. split; [done|]. split.
  - simpl. lia.
  - intros j m. rewrite list_lookup_fmap. destruct (funcs !! j); simpl; [|done].
    intros [= <-]. by split_and!.
Qed.

Lemma join_inv_step (ev : event) (s s' : sliceEg_state T) :
  join_inv (List.length funcs) s -> RunSliceEg_step funcs ev s = Some s' ->
  caller s' = Joining -> join_inv (List.length funcs) s'.
Proof.
  destruct s as [ms p g cl]. unfold join_inv, RunSliceEg_step; simpl.
  intros (-> & Hlen & Hwg & Hall). destruct ev as [j|j pick|r|pick].
  - destruct (funcs !! j) as [f|]; [|done]. destruct (ms !! j) as [m|] eqn:Hm; [|done].
    destruct (inner_step f (gctx g) m) as [m'|] eqn:Hstep; [|done].
    intros [= <-] _; simpl.
    destruct (inner_step_inv _ _ g _ _ (Hall j m Hm) Hstep) as (Hinv' & Hout).
    rewrite length_insert. split_and!; try done.
    + pose proof (sum_list_with_insert unfinished ms j m m' Hm) as Hsum.
      unfold unfinished in Hsum at 2 4. rewrite Hout in Hsum.
      unfold unfinished in Hwg, Hsum |- *. lia.
    + intros k u [(-> & <- & _)|(_ & Hk)]%list_lookup_insert_Some; eauto.
  - destruct (ms !! j) as [m|] eqn:Hm; [|done].
    destruct (outer_step pick g m) as [[m' g']|] eqn:Hstep; [|done].
    intros [= <-] _; simpl.
    assert (Hun : unfinished m = 1).
    { clear Hwg. destruct m as [[p0 r0] it0].
      unfold outer_step, unfinished, GoEg_step, body_step in *; simpl in *.
      by destruct p0. }
    assert (Hge : 1 <= wg g).
    { pose proof (sum_list_with_in m unfinished ms) as Hle.
      rewrite Hwg, <- Hun. apply Hle, list_elem_of_lookup. eauto. }
    destruct (outer_step_inv _ _ _ _ _ (Hall j m Hm) Hge Hstep) as (Hinv' & Hmono & Hcount).
    rewrite length_insert. split_and!; try done.
    + pose proof (sum_list_with_insert unfinished ms j m m' Hm). lia.
    + intros k u [(-> & <- & _)|(_ & Hk)]%list_lookup_insert_Some; [done|].
      eapply member_inv_err_mono; eauto.
  - destruct p; [|done]. intros [= <-] _; simpl. by split_and!.
  - unfold Wait. destruct (wg g); [|done].
    destruct (errgroup.err g); intros [= <-]; done.
Qed.

Lemma joining_run (c : Context) (sched : list event) (s : sliceEg_state T) :
  run (RunSliceEg_step funcs) sched (RunSliceEg_start c funcs) = Some s ->
  caller s = Joining -> join_inv (List.length funcs) s.
Proof.
  apply (run_invariant (RunSliceEg_step funcs)
           (fun s => caller s = Joining -> join_inv (List.length funcs) s)).
  - intros ev s1 s2 Hinv Hstep Hcl. eapply join_inv_step; [|done..].
    apply Hinv. destruct s1 as [ms p g cl]. unfold RunSliceEg_step in Hstep; simpl in *.
    destruct ev as [j|j pick|r|pick].
    + destruct (funcs !! j); [|done]. destruct (ms !! j); [|done].
      destruct (inner_step _ _ _); [|done]. by simplify_eq.
    + destruct (ms !! j); [|done]. destruct (outer_step _ _ _) as [[? ?]|]; [|done].
      by simplify_eq.
    + destruct p; [|done]. by simplify_eq.
    + destruct cl as [|i results e|results e|msg]; try done.
      destruct (ms !! i).
      * destruct (Receive _) as [| |[[v e'] rv']]; by simplify_eq.
      * by simplify_eq.
  - intros _. apply join_inv_start.
Qed.

(** When [eg.Wait()] can return and the group has no error, every member
    has exited, and its handle holds a record without error. *)
Lemma joined_members (s : sliceEg_state T) (g' : Group) (j : nat) (m : member T) :
  join_inv (List.length funcs) s -> Wait (group s) = Some (None, g') ->
  members s !! j = Some m ->
  at_pc (outer m) = Exited /\
  exists d, holds m d /\ rdv.err d = None /\ delivered m = value d.
Proof.
  intros (Hcl & Hlen & Hwg & Hall) Hwait Hm. unfold Wait in Hwait.
  destruct (wg (group s)) eqn:Hz; [|done]. injection Hwait as Herr _.
  pose proof (sum_list_with_zero unfinished _ j m (eq_sym Hwg) Hm) as Hun.
  pose proof (Hall j m Hm) as (_ & _ & Hp). unfold unfinished in Hun.
  destruct (at_pc (outer m)); try done. split; [done|].
  destruct Hp as (_ & d & Hd & Himp). exists d. split; [done|]. split.
  - destruct (rdv.err d); [|done]. by destruct Himp.
  - unfold delivered. by destruct Hd as (-> & _).
Qed.

Lemma join_step (s s' : sliceEg_state T) (g' : Group) (pick : bool) :
  join_inv (List.length funcs) s -> Wait (group s) = Some (None, g') ->
  RunSliceEg_step funcs (EgMain pick) s = Some s' ->
  drain_inv (delivered <$> members s) s'.
Proof.
  intros Hinv Hwait. pose proof Hinv as (Hcl & Hlen & _).
  unfold RunSliceEg_step. rewrite Hcl, Hwait. intros [= <-].
  unfold drain_inv; simpl. rewrite length_fmap, length_replicate.
  split_and!; try done; try lia.
  intros j m _ Hm. destruct (joined_members s g' j m Hinv Hwait Hm) as (Hpc & d & Hd & _ & Hv).
  split; [done|]. exists d. split; [done|]. rewrite list_lookup_fmap, Hm. simpl. by rewrite Hv.
Qed.

Lemma drain_inv_step (vals : list T) (ev : event) (s s' : sliceEg_state T) :
  drain_inv vals s -> RunSliceEg_step funcs ev s = Some s' -> drain_inv vals s'.
Proof.
  destruct s as [ms p g cl]. unfold drain_inv, RunSliceEg_step; simpl.
  intros (Hlen & Hc).
  assert (Hother : forall i j (m' : member T),
            (forall k m, i <= k -> ms !! k = Some m ->
               at_pc (outer m) = Exited /\ exists d, holds m d /\ vals !! k = Some (value d)) ->
            (forall m, ms !! j = Some m -> i <= j -> outer m' = outer m) ->
            forall k m, i <= k -> <[j:=m']> ms !! k = Some m ->
               at_pc (outer m) = Exited /\ exists d, holds m d /\ vals !! k = Some (value d)).
  { intros i j m' Hall Hsame k m Hik [(-> & <- & Hlt)|(_ & Hk)]%list_lookup_insert_Some;
      [|eauto].
    destruct (lookup_lt_is_Some_2 ms k Hlt) as [m0 Hm0].
    destruct (Hall k m0 Hik Hm0) as (Hpc & d & (Hb & Ho) & Hv).
    unfold holds. rewrite (Hsame m0 Hm0 Hik). eauto. }
  destruct ev as [j|j pick|r|pick].
  - destruct (funcs !! j) as [f|]; [|done]. destruct (ms !! j) as [m|] eqn:Hm; [|done].
    destruct (inner_step f (gctx g) m) as [m'|] eqn:Hstep; [|done].
    intros [= <-]; simpl. rewrite length_insert. split; [done|].
    assert (Hout : outer m' = outer m).
    { unfold inner_step in Hstep. destruct (inner m); [|done].
      destruct (Go_step _ _); [|done]. by injection Hstep as <-. }
    destruct cl as [|i results e|results e|msg]; try done.
    destruct Hc as (? & ? & ? & ? & Hall). split_and!; try done.
    apply Hother; [done|]. intros m0 Hm0 _. congruence.
  - destruct (ms !! j) as [m|] eqn:Hm; [|done].
    destruct (outer_step pick g m) as [[m' g']|] eqn:Hstep; [|done].
    intros [= <-]; simpl. rewrite length_insert. split; [done|].
    destruct cl as [|i results e|results e|msg]; try done.
    destruct Hc as (? & ? & ? & ? & Hall). split_and!; try done.
    apply Hother; [done|]. intros m0 Hm0 Hij. exfalso.
    rewrite Hm in Hm0. injection Hm0 as <-.
    destruct (Hall j m Hij Hm) as (Hpc & _).
    unfold outer_step, GoEg_step, body_step in Hstep. by rewrite Hpc in Hstep.
  - destruct p; [|done]. by intros [= <-].
  - destruct cl as [|i results e|results e|msg]; try done.
    destruct Hc as (-> & Hres & Hi & Hlow & Hall).
    destruct (ms !! i) as [m|] eqn:Hm.
    + destruct (Hall i m (le_n i) Hm) as (Hpc & d & (Hb & Ho) & Hv).
      unfold Receive, recv. rewrite Hb. simpl. rewrite Ho. simpl.
      intros [= <-]; simpl. rewrite !length_insert.
      pose proof (lookup_lt_Some _ _ _ Hm) as Hlt.
      split; [done|]. split_and!; try done; try lia.
      * intros j Hj. destruct (decide (j = i)) as [->|Hne].
        -- rewrite list_lookup_insert_eq by lia. done.
        -- rewrite list_lookup_insert_ne by done. apply Hlow. lia.
      * intros k u Hk [(-> & _)|(_ & Hu)]%list_lookup_insert_Some; [lia|].
        apply Hall; [lia|done].
    + intros [= <-]; simpl. split; [done|]. split; [|done]. f_equal.
      apply lookup_ge_None_1 in Hm.
      apply list_eq. intros j. destruct (decide (j < i)) as [Hj|Hj]; [by apply Hlow|].
      rewrite !lookup_ge_None_2 by lia. done.
Qed.

(** Once [eg.Wait()] has returned nil the caller needs nobody: its
    remaining statements can run one after the other. *)
Lemma drain_runs (vals : list T) (k : nat) :
  forall (s : sliceEg_state T) (i : nat) (results : list T) (e : error),
    drain_inv vals s -> caller s = Draining i results e -> List.length vals - i = k ->
    exists s', run (RunSliceEg_step funcs) (replicate (S k) (EgMain true)) s = Some s' /\
               caller s' = SliceEgReturned (Some vals) None.
Proof.
  induction k as [|k IH]; intros s i results e Hinv Hcl Hk.
  - pose proof Hinv as (Hlen & Hc). rewrite Hcl in Hc. destruct Hc as (_ & _ & Hi & _).
    destruct (RunSliceEg_step funcs (EgMain true) s) as [s'|] eqn:Hstep.
    + exists s'. change (replicate 1 (EgMain true)) with [EgMain true].
      rewrite run_cons, Hstep. split; [done|].
      pose proof (drain_inv_step _ _ _ _ Hinv Hstep) as (_ & Hc').
      unfold RunSliceEg_step in Hstep. rewrite Hcl in Hstep.
      rewrite (lookup_ge_None_2 (members s) i) in Hstep by lia.
      injection Hstep as <-. simpl in *. by destruct Hc' as (-> & ->).
    + unfold RunSliceEg_step in Hstep. rewrite Hcl in Hstep.
      by rewrite (lookup_ge_None_2 (members s) i) in Hstep by lia.
  - pose proof Hinv as (Hlen & Hc). rewrite Hcl in Hc.
    destruct Hc as (_ & _ & Hi & _ & Hall).
    destruct (lookup_lt_is_Some_2 (members s) i) as [m Hm]; [lia|].
    destruct (Hall i m (le_n i) Hm) as (Hpc & d & (Hb & Ho) & Hv).
    assert (Hstep : exists s1 results1,
              RunSliceEg_step funcs (EgMain true) s = Some s1 /\
              caller s1 = Draining (S i) results1 e).
    { unfold RunSliceEg_step. rewrite Hcl, Hm. unfold Receive, recv. rewrite Hb. simpl.
      rewrite Ho. simpl. eauto. }
    destruct Hstep as (s1 & results1 & Hstep & Hcl1).
    destruct (IH s1 (S i) results1 e) as (s' & Hrun & Hret).
    + by eapply drain_inv_step.
    + done.
    + lia.
    + exists s'. split; [|done].
      change (replicate (S (S k)) (EgMain true))
        with (EgMain true :: replicate (S k) (EgMain true)).
      by rewrite run_cons, Hstep.
Qed.

(** X11: when [eg.Wait()] returns nil,
    every member has delivered a record without error; [RunSliceEg] reads
    the handles with [Receive], which neither blocks nor panics then: its
    remaining statements run without any other event, and whatever else
    happens meanwhile [RunSliceEg] returns the delivered values in the
    order of the arguments, with a nil error. *)
Lemma RunSliceEg_drains_in_order (c : Context) (pre : list event)
    (s1 : sliceEg_state T) (g' : Group) :
  run (RunSliceEg_step funcs) pre (RunSliceEg_start c funcs) = Some s1 ->
  caller s1 = Joining -> Wait (group s1) = Some (None, g') ->
  List.length (members s1) = List.length funcs /\
  (forall j m, members s1 !! j = Some m ->
     exists d, holds m d /\ rdv.err d = None /\ delivered m = value d) /\
  (exists s2,
     run (RunSliceEg_step funcs) (replicate (List.length funcs + 2) (EgMain true)) s1
       = Some s2 /\
     caller s2 = SliceEgReturned (Some (delivered <$> members s1)) None) /\
  (forall post s2 results err,
     run (RunSliceEg_step funcs) post s1 = Some s2 ->
     caller s2 = SliceEgReturned results err ->
     results = Some (delivered <$> members s1) /\ err = None).
Proof.
  intros Hpre Hcl Hwait. pose proof (joining_run _ _ _ Hpre Hcl) as Hinv.
  pose proof Hinv as (_ & Hlen & _).
  split; [done|]. split; [|split].
  - intros j m Hm. by destruct (joined_members s1 g' j m Hinv Hwait Hm).
  - destruct (RunSliceEg_step funcs (EgMain true) s1) as [s'|] eqn:Hstep.
    + pose proof (join_step _ _ _ _ Hinv Hwait Hstep) as Hdrain.
      assert (Hcl' : caller s' = Draining 0 (replicate (List.length funcs) zero) None).
      { unfold RunSliceEg_step in Hstep. rewrite Hcl, Hwait in Hstep. by injection Hstep as <-. }
      destruct (drain_runs _ _ s' 0 _ _ Hdrain Hcl' eq_refl) as (s2 & Hrun & Hret).
      exists s2. split; [|done].
      replace (List.length funcs + 2) with (S (S (List.length funcs))) by lia.
      change (replicate (S (S (List.length funcs))) (EgMain true))
        with (EgMain true :: replicate (S (List.length funcs)) (EgMain true)).
      rewrite run_cons, Hstep. rewrite length_fmap, Hlen, Nat.sub_0_r in Hrun. done.
    + unfold RunSliceEg_step in Hstep. by rewrite Hcl, Hwait in Hstep.
  - intros post s2 results err.
    set (vals := delivered <$> members s1).
    intros Hrun Hret.
    assert (Hready : forall g, wg g = 0 /\ errgroup.err g = None <->
                               exists g0, Wait g = Some (None, g0)).
    { intros g. unfold Wait. split.
      - intros (-> & ->). eauto.
      - intros (g0 & Hg0). destruct (wg g); [|done]. by injection Hg0 as -> _. }
    assert (Hfinal : (join_inv (List.length funcs) s2 /\
                      (wg (group s2) = 0 /\ errgroup.err (group s2) = None) /\
                      delivered <$> members s2 = vals) \/ drain_inv vals s2).
    { revert Hrun.
      apply (run_invariant (RunSliceEg_step funcs)
               (fun s => (join_inv (List.length funcs) s /\
                          (wg (group s) = 0 /\ errgroup.err (group s) = None) /\
                          delivered <$> members s = vals) \/ drain_inv vals s)).
      2: { left. split; [done|]. split; [|done]. apply Hready. eauto. }
      intros ev sa sb [(Ha & Hw & Hv)|Hd] Hstep; [|right; by eapply drain_inv_step].
      destruct (proj1 (Hready _) Hw) as (ga & Hwa).
      assert (Hdec : caller sb = Joining \/ caller sb <> Joining)
        by (destruct (caller sb); [left|right..]; done).
      destruct Hdec as [Hj|Hj].
      - left. split; [by eapply join_inv_step|].
        pose proof Ha as (Hca & _ & _ & _).
        destruct sa as [ms p g cl]. unfold RunSliceEg_step in Hstep; simpl in *. subst cl.
        destruct ev as [j|j pick|r|pick].
        + destruct (funcs !! j) as [f|]; [|done]. destruct (ms !! j) as [m|] eqn:Hm; [|done].
          destruct (inner_step f (gctx g) m) as [m'|] eqn:Hin; [|done].
          injection Hstep as <-; simpl. split; [done|]. rewrite <- Hv.
          apply list_eq. intros k. rewrite !list_lookup_fmap.
          destruct (decide (k = j)) as [->|Hne].
          * rewrite list_lookup_insert_eq by (by eapply lookup_lt_Some). rewrite Hm. simpl.
            unfold inner_step in Hin. destruct (inner m); [|done].
            destruct (Go_step _ _); [|done]. by injection Hin as <-.
          * by rewrite list_lookup_insert_ne.
        + exfalso. destruct (ms !! j) as [m|] eqn:Hm; [|done].
          destruct (joined_members _ ga j m Ha Hwa Hm) as (Hpc & _).
          simpl in *. unfold outer_step, GoEg_step, body_step in Hstep.
          by rewrite Hpc in Hstep.
        + destruct p; [|done]. by injection Hstep as <-.
        + exfalso. rewrite Hwa in Hstep. injection Hstep as <-. done.
      - right. pose proof Ha as (Hca & _ & _ & _).
        destruct ev as [j|j pick|r|pick].
        + exfalso. apply Hj. destruct sa as [ms p g cl].
          unfold RunSliceEg_step in Hstep; simpl in *.
          destruct (funcs !! j); [|done]. destruct (ms !! j); [|done].
          destruct (inner_step _ _ _); [|done]. by injection Hstep as <-.
        + exfalso. apply Hj. destruct sa as [ms p g cl].
          unfold RunSliceEg_step in Hstep; simpl in *.
          destruct (ms !! j); [|done]. destruct (outer_step _ _ _) as [[? ?]|]; [|done].
          by injection Hstep as <-.
        + exfalso. apply Hj. destruct sa as [ms p g cl].
          unfold RunSliceEg_step in Hstep; simpl in *.
          destruct p; [|done]. by injection Hstep as <-.
        + rewrite <- Hv. by eapply join_step. }
    destruct Hfinal as [((Hj & _) & _)|(_ & Hd)]; [congruence|].
    rewrite Hret in Hd. done.
Qed.

End RunSliceEg_facts.

Section Run2Eg_facts.
Import util gochan context errgroup rdv rdvexteg.
Context {T1 T2 : Type} `{Zero T1, Zero T2}.
Context (f1 : Context -> outcome T1) (f2 : Context -> outcome T2).


End Run2Eg_facts.



(** C4, the code at the failing input.  [f1] returns 7 and [f2] returns 8,
    both members deliver, and [eg.Wait()] returns nil; the caller's token
    then times out before [Run2Eg] reads the handles.  [Run2Eg] reads them
    with [ReceiveWatch(ctx)]: the select for the first handle finds both
    cases ready, takes the token, and the error it returns is dropped:
    [Run2Eg] returns the tuple (0, 8) and a nil error.  On the same
    schedule [RunSliceEg], which reads with [Receive], returns 7 and 8. *)
Lemma Run2Eg_drain_races_the_token :
  let g1 : context.Context -> util.outcome Z := fun _ => util.Returned 7%Z None in
  let g2 : context.Context -> util.outcome Z := fun _ => util.Returned 8%Z None in
  let member j := [rdvexteg.EgOuter j true; rdvexteg.EgInner j; rdvexteg.EgInner j;
                   rdvexteg.EgInner j; rdvexteg.EgOuter j true; rdvexteg.EgOuter j true;
                   rdvexteg.EgOuter j true; rdvexteg.EgOuter j true] in
  (exists s,
     run (rdvexteg.Run2Eg_step g1 g2)
         (member 0 ++ member 1 ++
          [rdvexteg.EgMain true; rdvexteg.EgFire context.TimedOut;
           rdvexteg.EgMain false; rdvexteg.EgMain true])
         (rdvexteg.Run2Eg_start context.Live) = Some s /\
     rdvexteg.caller2 s = rdvexteg.PairEgReturned (util.mkTuple2 0%Z 8%Z) None) /\
  (exists s,
     run (rdvexteg.RunSliceEg_step [g1; g2])
         (member 0 ++ member 1 ++
          [rdvexteg.EgMain true; rdvexteg.EgFire context.TimedOut;
           rdvexteg.EgMain false; rdvexteg.EgMain true; rdvexteg.EgMain true])
         (rdvexteg.RunSliceEg_start context.Live [g1; g2]) = Some s /\
     rdvexteg.caller s = rdvexteg.SliceEgReturned (Some [7%Z; 8%Z]) None).
Proof.
  intros g1 g2 member. split; eexists; (split; [vm_compute; reflexivity | reflexivity]).
Qed.

(** ** The obsolete promise *)

(** C8, the code at the failing input.  The token of a promise times out
    before the task has finished, and [Await] is called twice: the first
    call returns the zero value and [DeadlineExceeded], the second the
    zero value and a nil error.  [ErrWait] assigns the error to the field
    [Err] of its receiver, which is a copy, so that the second call, for
    which the [sync.Once] does nothing, returns the [Err] of the stored
    struct: nil.  Once the task has finished, a third call returns its
    result. *)
Lemma Await_twice_differs :
  let f : util.func1 context.Context Z := fun _ => util.Returned 7%Z None in
  (exists h,
     run (obsolete.promise_step f)
         [obsolete.ObFire context.TimedOut; obsolete.ObAwait true; obsolete.ObAwait true;
          obsolete.ObAwait true; obsolete.ObAwait true]
         (obsolete.Async context.Live, obsolete.Idle [])
     = Some (h, obsolete.Idle [(0%Z, Some DeadlineExceeded); (0%Z, None)])) /\
  (exists h,
     run (obsolete.promise_step f)
         [obsolete.ObFire context.TimedOut; obsolete.ObAwait true; obsolete.ObAwait true;
          obsolete.ObAwait true; obsolete.ObAwait true;
          obsolete.ObRunner; obsolete.ObRunner; obsolete.ObAwait true; obsolete.ObAwait true]
         (obsolete.Async context.Live, obsolete.Idle [])
     = Some (h, obsolete.Idle [(0%Z, Some DeadlineExceeded); (0%Z, None); (7%Z, None)])) /\
  (exists h1 h2,
     obsolete.ErrWait (obsolete.mkPreWaiter None)
       (obsolete.Async (T := Z) (context.Fired context.TimedOut)) true
     = gochan.Ok (Some DeadlineExceeded, h1) /\
     obsolete.ErrWait (obsolete.P (obsolete.Waiter h1)) h1 true = gochan.Ok (None, h2)).
Proof.
  intros f. split; [|split].
  - eexists. vm_compute. reflexivity.
  - eexists. vm_compute. reflexivity.
  - eexists _, _. split; vm_compute; reflexivity.
Qed.

(** ** More on package util *)

Section util_more.
Import util.

(** X1: [ToError] never returns nil, not even for nil; it keeps the message:
    the error it returns prints as [%v] prints its argument; and an error
    goes through it unchanged, so that converting twice is converting
    once. *)
Theorem ToError_keeps_message (x : any) :
  exists e, ToError x = Some e /\ Error e = Sprintf_v x /\ ToError (AnyError e) = Some e.
Proof. destruct x; simpl; eauto. Qed.

(** X2: wrapping a wrapped function changes nothing: [SafeFunc0E] and
    [SafeFunc1E] are idempotent. *)
Theorem SafeFunc_idempotent {T1 U : Type} `{Zero U} :
  (forall f : func0 U, SafeFunc0E (SafeFunc0E f) tt = SafeFunc0E f tt) /\
  (forall (f : func1 T1 U) (t1 : T1), SafeFunc1E (SafeFunc1E f) t1 = SafeFunc1E f t1).
Proof.
  split.
  - intros f. unfold SafeFunc0E. by destruct (f tt) as [r e|[]].
  - intros f t1. unfold SafeFunc1E. by destruct (f t1) as [r e|[]].
Qed.

(** X4: the wrappers for functions without an error result: none of them
    panics; when [f] returns, [SafeFunc0VE] returns the error of [f],
    [SafeFunc0] the value of [f] with a nil error, and [SafeFunc0V] nil;
    when [f] panics with a payload that is not nil, each returns the error
    that [ToError] makes of the payload, [SafeFunc0] with the zero
    value. *)
Theorem SafeFunc0_family {U : Type} `{Zero U}
    (fe : unit -> call error) (fu : unit -> call U) (fv : unit -> call unit) :
  ((exists err, SafeFunc0VE fe tt = Ret err) /\
   (exists res err, SafeFunc0 fu tt = Returned res err) /\
   (exists err, SafeFunc0V fv tt = Ret err)) /\
  ((forall e, fe tt = Ret e -> SafeFunc0VE fe tt = Ret e) /\
   (forall u, fu tt = Ret u -> SafeFunc0 fu tt = Returned u None) /\
   (forall u, fv tt = Ret u -> SafeFunc0V fv tt = Ret None)) /\
  (forall v, v <> AnyNil ->
     (fe tt = Pan v -> SafeFunc0VE fe tt = Ret (ToError v)) /\
     (fu tt = Pan v -> SafeFunc0 fu tt = Returned zero (ToError v)) /\
     (fv tt = Pan v -> SafeFunc0V fv tt = Ret (ToError v))).
Proof.
  unfold SafeFunc0VE, SafeFunc0, SafeFunc0V, SafeFunc0VE, SafeFunc0E.
  split; [|split].
  - split_and!.
    + destruct (fe tt) as [e|[]]; simpl; eauto.
    + destruct (fu tt) as [u|[]]; simpl; eauto.
    + destruct (fv tt) as [u|[]]; simpl; eauto.
  - split_and!.
    + by intros e ->.
    + by intros u ->.
    + by intros u ->.
  - intros v Hv. split_and!; intros ->; by destruct v.
Qed.

End util_more.

(** A function without results that panics with a string. *)
Lemma SafeFunc0_family_witness :
  util.SafeFunc0V (fun _ => util.Pan (AnyString "boom")) tt
  = util.Ret (Some (ErrorOf (AnyString "boom"))).
Proof.
  destruct (SafeFunc0_family (U := Z)
              (fun _ => util.Ret None) (fun _ => util.Ret 0%Z)
              (fun _ => util.Pan (AnyString "boom"))) as (_ & _ & Hpanic).
  destruct (Hpanic (AnyString "boom")) as (_ & _ & Hv); [discriminate|].
  apply Hv. reflexivity.
Defined.

(** ** More on the rendezvous primitive *)

Section handle_more.
Import util gochan context errgroup rdv handle.
Context {T : Type} `{Zero T} (f : Context -> outcome T).

Lemma body_step_produced (after : error -> pc T) (c : Context) (t t' : task T) :
  (forall e d, after e <> Send d) ->
  task_produced f t -> body_step after (Some (CtxApply c f)) t = Some t' ->
  task_produced f t'.
Proof.
  destruct t as [p [ch0]]. unfold task_produced, body_step; simpl.
  intros Hafter (Hsend & Hbuf) Hstep. destruct p as [|d|e|e| |msg]; try done.
  - destruct (SafeFunc0E (CtxApply c f) tt) as [res err|v] eqn:Hfs;
      injection Hstep as <-; simpl; (split; [|done]); [|done].
    intros d [= <-]. simpl. by exists c.
  - unfold send in Hstep. destruct (closed ch0); [injection Hstep as <-; by split|].
    destruct (_ <? _)%nat; [|done]. injection Hstep as <-; simpl. split; [done|].
    intros d' [Hd'| ->%list_elem_of_singleton]%elem_of_app; eauto.
  - unfold close in Hstep. destruct (closed ch0); injection Hstep as <-; simpl;
      (split; [|done]); [done|]. intros d Hd. by destruct (Hafter e d).
Qed.

Lemma Receive_produced (rv0 rv' : Rdv T) (r : T * error) :
  (forall d, d ∈ buf (ch rv0) -> produced f (value d) (err d)) ->
  Receive rv0 = Ok (r, rv') ->
  produced f r.1 r.2 /\
  (forall d, d ∈ buf (ch rv') -> produced f (value d) (err d)).
Proof.
  intros Hbuf (d & rest & Hb & _ & -> & ->)%Receive_Ok_inv. rewrite Hb in Hbuf. simpl.
  split; [apply Hbuf; left|]. intros d' Hd'. apply Hbuf. by right.
Qed.


Lemma recv_open (c c' : chan (rdvData T)) (d : rdvData T) :
  recv c = Some (d, c') -> chanOpen d = true ->
  exists rest, buf c = d :: rest /\ c' = mkChan rest (cap c) (closed c).
Proof.
  unfold recv. destruct (buf c) as [|d0 rest].
  - destruct (closed c); [|done]. by intros [= <- <-].
  - intros [= <- <-] _. eauto.
Qed.

Lemma records_inv_step (ev : event) (s s' : state T) :
  records_inv f s -> step f ev s = Some s' -> records_inv f s'.
Proof.
  intros (Htask & Htaken). destruct ev as [|r| |pick]; unfold step.
  - destruct (hgroup s) as [g|].
    + destruct (at_pc (htask s)) eqn:Hpc;
        try (unfold GoEg_step; destruct (body_step _ _ _) as [t'|] eqn:Hb; [|done];
             intros [= <-]; split; [|done]; by eapply (body_step_produced Finish)).
      intros [= <-]. split; [|done]. destruct Htask as (_ & Hbuf). by split.
    + unfold Go_step. destruct (body_step _ _ _) as [t'|] eqn:Hb; [|done].
      intros [= <-]. split; [|done]. by eapply (body_step_produced (fun _ => Exited)).
  - destruct (hctx s); [|done]. by intros [= <-].
  - destruct (Receive _) as [| |[r rv']] eqn:Hr; try done. intros [= <-].
    destruct Htask as (Hsend & Hbuf).
    destruct (Receive_produced _ _ _ Hbuf Hr) as (Hr1 & Hbuf').
    split; [by split|]. simpl. intros r0 [?| ->%list_elem_of_singleton]%elem_of_app; eauto.
  - destruct Htask as (Hsend & Hbuf). unfold ReceiveWatch, via_channel.
    assert (Hchan : forall d c0, recv (ch (rv (htask s))) = Some (d, c0) ->
              (if negb (chanOpen d) then Panic closed_rendezvous
               else Ok (value d, err d, mkRdv c0)) = Ok (value d, err d, mkRdv c0) ->
              records_inv f (mkState (mkTask (at_pc (htask s)) (mkRdv c0)) (hctx s)
                               (hgroup s) (taken s ++ [(value d, err d)]))).
    { intros d c0 Hrecv Hopen. destruct (chanOpen d) eqn:Ho; [|done].
      destruct (recv_open _ _ _ Hrecv Ho) as (rest & Hb & ->).
      rewrite Hb in Hbuf. split; [split; [done|]|]; simpl.
      - intros d' Hd'. apply Hbuf. by right.
      - intros r0 [?| ->%list_elem_of_singleton]%elem_of_app; [eauto|].
        apply Hbuf. by left. }
    destruct (recv (ch (rv (htask s)))) as [[d c0]|] eqn:Hrecv.
    + destruct (hctx s) as [|r0] eqn:Hcx.
      * destruct (negb (chanOpen d)) eqn:Hn; [done|]. intros [= <-].
        rewrite <- Hcx. apply Hchan; [done|]. by rewrite Hn.
      * destruct pick.
        -- destruct (negb (chanOpen d)) eqn:Hn; [done|]. intros [= <-].
           rewrite <- Hcx. apply Hchan; [done|]. by rewrite Hn.
        -- intros [= <-]. split; [split|]; simpl; done.
    + destruct (hctx s); [done|]. intros [= <-]. split; [split|]; simpl; done.
Qed.

Lemma records_inv_run (eg : bool) (c : Context) (g : Group) (sched : list event)
    (s : state T) :
  run (step f) sched (start eg c g) = Some s -> records_inv f s.
Proof.
  apply (run_invariant (step f) (records_inv f)).
  - intros ev s1 s2. apply records_inv_step.
  - destruct eg; (split; [split|]); simpl; intros ? Hin; try done; by inversion Hin.
Qed.

(** X5: exactly-once delivery: on every schedule at most one record is ever
    taken from a handle, by whatever receivers, and it is what the wrapped
    task function returned: its value and error, or the zero value and
    the error made of its panic. *)
Theorem handle_delivers_once (eg : bool) (c : Context) (g : Group)
    (sched : list event) (s : state T) :
  run (step f) sched (start eg c g) = Some s ->
  List.length (taken s) <= 1 /\
  forall v e, (v, e) ∈ taken s ->
    exists c', SafeFunc0E (CtxApply c' f) tt = Returned v e.
Proof.
  intros Hrun. split.
  - pose proof (inv_run _ _ _ _ _ _ Hrun) as (_ & _ & Hp).
    assert (Hs : sent_once (ch (rv (htask s))) (taken s) -> List.length (taken s) <= 1).
    { intros [(_ & _ & _ & ->)|(_ & r & ->)]; simpl; lia. }
    destruct (at_pc (htask s)); try done; try (apply Hs, Hp).
    + destruct Hp as (_ & _ & ->). simpl. lia.
    + destruct Hp as (_ & _ & -> & _). simpl. lia.
  - intros v e Hin. destruct (records_inv_run _ _ _ _ _ Hrun) as (_ & Htaken).
    apply (Htaken (v, e) Hin).
Qed.


End handle_more.

(** A task whose record is taken once it was sent. *)
Lemma handle_delivers_once_witness :
  let f : context.Context -> util.outcome Z := fun _ => util.Returned 7%Z None in
  exists s,
    run (handle.step f) [handle.HGo; handle.HGo; handle.HReceive]
        (handle.start false context.Live (errgroup.WithContext context.Live)) = Some s /\
    List.length (handle.taken s) <= 1.
Proof.
  intros f.
  eassert (Hrun : run (handle.step f) [handle.HGo; handle.HGo; handle.HReceive]
                    (handle.start false context.Live (errgroup.WithContext context.Live))
                  = Some _) by (vm_compute; reflexivity).
  eexists. split; [exact Hrun|].
  destruct (handle_delivers_once f false _ _ _ _ Hrun) as (Hlen & _). exact Hlen.
Defined.


(** ** The function of [CtxApplyWatch] *)

Section watch_facts.
Import util gochan context rdv rdvexteg watch.
Context {T : Type} `{Zero T} (f : Context -> outcome T).



End watch_facts.


(** ** More on the collect-all combinators *)

Section collect_all_more.
Import util gochan context errgroup rdv rdvext.
Context {T : Type} `{Zero T}.

(** X8: [Run2] on two functions of one type is [RunSlice] on the list of the
    two: on every schedule the two runs go through matching states, block
    at the same events, and return the same entries and the same summary
    error. *)
Theorem Run2_is_RunSlice_of_two (f1 f2 : Context -> outcome T) (c : Context)
    (sched : list event) :
  run (RunSlice_step [f1; f2]) sched (RunSlice_start c [f1; f2]) =
  pair_as_slice <$> run (Run2_step f1 f2) sched (Run2_start c).
Proof.
  change (RunSlice_start c [f1; f2]) with (pair_as_slice (Run2_start (T1 := T) (T2 := T) c)).
  generalize (Run2_start (T1 := T) (T2 := T) c). intros s. revert s.
  induction sched as [|ev sched IH]; intros s; [done|].
  rewrite !run_cons.
  assert (Hstep : RunSlice_step [f1; f2] ev (pair_as_slice s)
                  = pair_as_slice <$> Run2_step f1 f2 ev s).
  { destruct s as [t1 t2 cx cl]. unfold RunSlice_step, Run2_step, pair_as_slice; simpl.
    destruct ev as [[|[|j]]|r|pick]; simpl.
    - by destruct (Go_step _ t1).
    - by destruct (Go_step _ t2).
    - done.
    - by destruct cx.
    - destruct cl as [results|results|results|results err|msg]; simpl; try done.
      + by destruct (ReceiveWatch (rv t1) cx pick) as [| |[[v e] rv']].
      + by destruct (ReceiveWatch (rv t2) cx pick) as [| |[[v e] rv']].
      + destruct results as [[v1 [e1|]] [v2 [e2|]]]; done. }
  rewrite Hstep. destruct (Run2_step f1 f2 ev s) as [s'|]; simpl; [apply IH|done].
Qed.

Context (funcs : list (Context -> outcome T)).


Lemma live_inv_step (ev : event) (s s' : slice_state T) :
  slice_inv (List.length funcs) s -> live_inv funcs s ->
  RunSlice_step funcs ev s = Some s' -> live_inv funcs s'.
Proof.
  destruct s as [ts cx cl]. unfold live_inv, slice_inv, RunSlice_step; simpl.
  intros (Hlen & Hsl) Hinv Hstep. destruct ev as [j|r|pick].
  - destruct (funcs !! j) as [f|] eqn:Hf; [|done].
    destruct (ts !! j) as [t|] eqn:Ht; [|done].
    destruct (Go_step _ t) as [t'|] eqn:Hgo; [|done]. injection Hstep as <-; simpl.
    intros ->. destruct (Hinv eq_refl) as (Hts & Hcl). split; [|done].
    intros k u g [(<- & <- & _)|(_ & Hk)]%list_lookup_insert_Some Hg; [|eauto].
    rewrite Hf in Hg. injection Hg as <-.
    destruct (Hts j t f Ht Hf) as (Hsend & Hbuf).
    destruct t as [p [c0]]. unfold Go_step, body_step in Hgo; simpl in *.
    destruct p as [|d|e|e| |msg]; try done.
    + unfold wrapped in *.
      destruct (SafeFunc0E (CtxApply Live f) tt) as [res err|v]; injection Hgo as <-; simpl;
        (split; [|done]); [|done].
      by intros d [= <-].
    + unfold send in Hgo. destruct (closed c0); [injection Hgo as <-; by split|].
      destruct (_ <? _)%nat; [|done]. injection Hgo as <-; simpl. split; [done|].
      intros d' [Hd'| ->%list_elem_of_singleton]%elem_of_app; eauto.
    + unfold close in Hgo. destruct (closed c0); injection Hgo as <-; simpl; by split.
  - destruct cx; [|done]. by injection Hstep as <-.
  - destruct cl as [i results|results err|msg]; [|done|done].
    destruct Hsl as (Hi & Hres & Hall).
    destruct (ts !! i) as [t|] eqn:Ht.
    + pose proof (lookup_lt_Some _ _ _ Ht) as Hlt.
      destruct (ReceiveWatch (rv t) cx pick) as [| |[[v e] rv']] eqn:Hrw; [done| |].
      { injection Hstep as <-. simpl. intros ->. by destruct (Hinv eq_refl). }
      injection Hstep as <-; simpl. intros ->. destruct (Hinv eq_refl) as (Hts & Hcl).
      rewrite ReceiveWatch_Live in Hrw.
      apply Receive_Ok_inv in Hrw as (d & rest & Hb & _ & [= -> ->] & ->).
      split.
      * intros k u g [(<- & <- & _)|(_ & Hk)]%list_lookup_insert_Some Hg; [|eauto].
        destruct (Hts i t g Ht Hg) as (Hsend & Hbuf). simpl. split; [done|].
        intros d' Hd'. apply Hbuf. rewrite Hb. by right.
      * intros k g Hk Hg. destruct (decide (k = i)) as [->|Hne].
        -- rewrite list_lookup_insert_eq by lia.
           destruct (Hts i t g Ht Hg) as (_ & Hbuf).
           f_equal. apply (Hbuf d). rewrite Hb. by left.
        -- rewrite list_lookup_insert_ne by done. apply Hcl; [lia|done].
    + injection Hstep as <-; simpl. intros ->. destruct (Hinv eq_refl) as (Hts & Hcl).
      split; [done|]. intros k g Hg. apply Hcl; [|done].
      apply lookup_ge_None in Ht. apply lookup_lt_Some in Hg. lia.
Qed.

(** X10: when the token has not fired by the time [RunSlice] returns, the
    results are what the functions return for a live token, wrapped and in
    argument order, and the summary error is the first of their errors: no
    schedule of the goroutines changes them.  A function that panics gives
    the entry with the zero value and the error of the panic. *)
Theorem RunSlice_live_results (c : Context) (sched : list event) (s : slice_state T)
    (results : list (ResultWithError T)) (e : error) :
  run (RunSlice_step funcs) sched (RunSlice_start c funcs) = Some s ->
  ctx s = Live -> caller s = SliceReturned results e ->
  results = wrapped Live <$> funcs /\ e = first_error (wrapped Live <$> funcs).
Proof.
  intros Hrun Hcx Hcl.
  assert (Hinv : slice_inv (List.length funcs) s /\ live_inv funcs s).
  { revert Hrun.
    apply (run_invariant (RunSlice_step funcs)
             (fun s => slice_inv (List.length funcs) s /\ live_inv funcs s)).
    - intros ev s1 s2 (Hsl & Hlv) Hstep. split.
      + by eapply slice_inv_step.
      + by eapply live_inv_step.
    - split; [apply slice_inv_start|].
      unfold live_inv, RunSlice_start; simpl. intros _. split; [|intros; lia].
      intros j t f. rewrite list_lookup_fmap. destruct (funcs !! j); simpl; [|done].
      intros [= <-] _. split; [done|]. simpl. by intros d ?%elem_of_nil. }
  destruct Hinv as ((_ & Hsl) & Hlv). specialize (Hlv Hcx) as (_ & Hlv).
  rewrite Hcl in Hsl, Hlv. destruct Hsl as (Hlen & -> & _).
  assert (Hres : results = wrapped Live <$> funcs).
  { apply list_eq. intros j. rewrite list_lookup_fmap.
    destruct (funcs !! j) as [f|] eqn:Hf; simpl; [by apply Hlv|].
    apply lookup_ge_None. apply lookup_ge_None in Hf. lia. }
  by rewrite Hres.
Qed.

End collect_all_more.

(** Three tasks, the second of which panics and the third of which fails;
    the goroutines run in reverse order. *)
Lemma RunSlice_live_results_witness :
  exists s results e,
    let funcs : list (context.Context -> util.outcome nat) :=
      [ fun _ => util.Returned 7 None;
        fun _ => util.Panicked (AnyString "boom");
        fun _ => util.Returned 0 (Some (ErrorsNew "failed")) ] in
    run (rdvext.RunSlice_step funcs)
        ([rdvext.EvTask 2; rdvext.EvTask 2; rdvext.EvTask 1; rdvext.EvTask 0;
          rdvext.EvTask 1; rdvext.EvTask 0; rdvext.EvTask 0]
         ++ replicate 4 (rdvext.EvMain true))
        (rdvext.RunSlice_start context.Live funcs) = Some s /\
    rdvext.caller s = rdvext.SliceReturned results e /\
    results = rdvext.wrapped context.Live <$> funcs /\
    e = Some (ErrorOf (AnyString "boom")).
Proof.
  set (funcs := [ fun _ => util.Returned 7 None;
                  fun _ => util.Panicked (AnyString "boom");
                  fun _ => util.Returned 0 (Some (ErrorsNew "failed")) ]
                : list (context.Context -> util.outcome nat)).
  eassert (Hrun : run (rdvext.RunSlice_step funcs)
        ([rdvext.EvTask 2; rdvext.EvTask 2; rdvext.EvTask 1; rdvext.EvTask 0;
          rdvext.EvTask 1; rdvext.EvTask 0; rdvext.EvTask 0]
         ++ replicate 4 (rdvext.EvMain true))
        (rdvext.RunSlice_start context.Live funcs) = Some _) by (vm_compute; reflexivity).
  match type of Hrun with _ = Some ?s0 => set (s := s0) in * end.
  eexists s, _, _. split; [exact Hrun|]. split; [reflexivity|].
  destruct (RunSlice_live_results funcs context.Live _ s _ _ Hrun eq_refl eq_refl) as (Hres & He).
  split; [exact Hres|]. reflexivity.
Defined.

(** ** More on the fail-fast combinators *)

Section RunSliceEg_more.
Import util gochan context errgroup rdv rdvexteg.
Context {T : Type} `{Zero T} (funcs : list (Context -> outcome T)).

Lemma settled_step (ev : event) (s s' : sliceEg_state T) :
  (forall j m, members s !! j = Some m -> settled m) ->
  RunSliceEg_step funcs ev s = Some s' ->
  forall j m, members s' !! j = Some m -> settled m.
Proof.
  destruct s as [ms p g cl]. unfold RunSliceEg_step; simpl. intros Hall.
  destruct ev as [j|j pick|r|pick].
  - destruct (funcs !! j) as [f|]; [|done]. destruct (ms !! j) as [m|] eqn:Hm; [|done].
    destruct (inner_step f (gctx g) m) as [m'|] eqn:Hstep; [|done].
    intros [= <-]; simpl.
    intros k u [(<- & <- & _)|(_ & Hk)]%list_lookup_insert_Some; [|eauto].
    destruct (Hall j m Hm) as (Hpc & Hin). unfold settled, inner_step in *.
    destruct (inner m) as [it|]; [|done].
    destruct (Go_step _ it) as [it'|] eqn:Hgo; [|done]. injection Hstep as <-; simpl.
    split; [done|]. eapply Go_step_task_inv; eauto.
  - destruct (ms !! j) as [m|] eqn:Hm; [|done].
    destruct (Hall j m Hm) as (Hpc & _).
    unfold outer_step, GoEg_step, body_step. by rewrite Hpc.
  - destruct p; [|done]. by intros [= <-].
  - destruct cl as [|i results e|results e|msg]; try done.
    + destruct (Wait g) as [[[e|] g']|]; [| |done]; by intros [= <-].
    + destruct (ms !! i) as [m|] eqn:Hm; [|by intros [= <-]].
      destruct (Receive _) as [| |[[v e'] rv']]; [done|by intros [= <-]|].
      intros [= <-]; simpl.
      intros k u [(<- & <- & _)|(_ & Hk)]%list_lookup_insert_Some; [|eauto].
      exact (Hall i m Hm).
Qed.

Lemma joined_settled (s : sliceEg_state T) :
  join_inv (List.length funcs) s -> wg (group s) = 0 ->
  forall j m, members s !! j = Some m -> settled m.
Proof.
  intros (Hcl & Hlen & Hwg & Hall) Hz j m Hm. rewrite Hz in Hwg.
  pose proof (sum_list_with_zero unfinished _ j m (eq_sym Hwg) Hm) as Hun.
  pose proof (Hall j m Hm) as (_ & Hin & Hp). unfold unfinished, settled in *.
  destruct (at_pc (outer m)); try done. split; [done|]. by destruct (inner m).
Qed.

Lemma after_join_step (ev : event) (s s' : sliceEg_state T) :
  after_join (List.length funcs) s -> RunSliceEg_step funcs ev s = Some s' ->
  after_join (List.length funcs) s'.
Proof.
  intros Hinv Hstep.
  assert (Hkept : match ev with EgMain _ => True | _ => caller s' = caller s end).
  { destruct s as [ms p g cl]. unfold RunSliceEg_step in Hstep; simpl in *.
    destruct ev as [j|j pick|r|pick]; [| | |done].
    - destruct (funcs !! j); [|done]. destruct (ms !! j); [|done].
      destruct (inner_step _ _ _); [|done]. by injection Hstep as <-.
    - destruct (ms !! j); [|done]. destruct (outer_step _ _ _) as [[? ?]|]; [|done].
      by injection Hstep as <-.
    - destruct p; [|done]. by injection Hstep as <-. }
  unfold after_join in *.
  destruct (caller s) as [|i results e|results e|msg] eqn:Hcl; [| | |done].
  - (* in eg.Wait() *)
    destruct (caller s') as [|i' results' e'|results' e'|msg'] eqn:Hcl'.
    + by eapply join_inv_step.
    + destruct ev as [j|j pick|r|pick]; try done.
      pose proof Hstep as Hstep0.
      unfold RunSliceEg_step in Hstep. rewrite Hcl in Hstep.
      destruct (Wait (group s)) as [[[e|] g']|] eqn:Hwait; [| |done].
      { injection Hstep as <-. done. }
      pose proof (join_step _ _ _ _ _ Hinv Hwait Hstep0) as Hdrain.
      assert (Hz : wg (group s) = 0).
      { unfold Wait in Hwait. by destruct (wg (group s)). }
      split.
      * exists (delivered <$> members s). split; [|done].
        rewrite length_fmap. by destruct Hinv as (_ & ? & _).
      * eapply settled_step; [|exact Hstep0]. by apply joined_settled.
    + destruct ev as [j|j pick|r|pick]; try done.
      pose proof Hstep as Hstep0.
      unfold RunSliceEg_step in Hstep. rewrite Hcl in Hstep.
      destruct (Wait (group s)) as [[[e|] g']|] eqn:Hwait; [| |done].
      * assert (Hz : wg (group s) = 0).
        { unfold Wait in Hwait. by destruct (wg (group s)). }
        split; [eapply settled_step; [|exact Hstep0]; by apply joined_settled|].
        injection Hstep as <-. simpl in Hcl'. by injection Hcl' as <- <-.
      * injection Hstep as <-. done.
    + destruct ev as [j|j pick|r|pick]; try done.
      unfold RunSliceEg_step in Hstep. rewrite Hcl in Hstep.
      destruct (Wait (group s)) as [[[e|] g']|] eqn:Hwait; [| |done];
        injection Hstep as <-; done.
  - (* in the receive loop *)
    destruct Hinv as ((vals & Hlen & Hdrain) & Hall).
    pose proof (drain_inv_step _ _ _ _ _ Hdrain Hstep) as Hdrain'.
    pose proof (settled_step _ _ _ Hall Hstep) as Hall'.
    assert (Hnj : caller s' <> Joining).
    { destruct Hdrain' as (_ & Hc). by destruct (caller s'). }
    destruct (caller s') as [|i' results' e'|results' e'|msg'] eqn:Hcl'; [done| | |].
    + split; [|done]. eauto.
    + split; [done|]. destruct Hdrain' as (_ & Hc). rewrite Hcl' in Hc.
      destruct Hc as (-> & ->). done.
    + destruct Hdrain' as (_ & Hc). by rewrite Hcl' in Hc.
  - (* returned *)
    destruct Hinv as (Hall & Hres).
    pose proof (settled_step _ _ _ Hall Hstep) as Hall'.
    destruct ev as [j|j pick|r|pick]; [| | |]; try (by rewrite Hkept).
    unfold RunSliceEg_step in Hstep. by rewrite Hcl in Hstep.
Qed.

(** X12: [RunSliceEg] never panics, and no goroutine that it starts, directly
    or through [CtxApplyWatch], ever crashes, whatever the functions do
    and on every schedule.  When it returns, every goroutine of its group
    is over; and it returns either a nil slice with an error, or a slice
    with one entry per function and a nil error. *)
Theorem RunSliceEg_returns (c : Context) (sched : list event) (s : sliceEg_state T) :
  run (RunSliceEg_step funcs) sched (RunSliceEg_start c funcs) = Some s ->
  (forall msg, caller s <> SliceEgPanicked msg) /\
  (forall j m msg, members s !! j = Some m ->
     at_pc (outer m) <> Crashed msg /\
     forall it, inner m = Some it -> at_pc it <> Crashed msg) /\
  (forall results e, caller s = SliceEgReturned results e ->
     (forall j m, members s !! j = Some m -> at_pc (outer m) = Exited) /\
     match results with
     | None => e <> None
     | Some vals => e = None /\ List.length vals = List.length funcs
     end).
Proof.
  intros Hrun.
  assert (Hinv : after_join (List.length funcs) s).
  { revert Hrun. apply (run_invariant (RunSliceEg_step funcs) (after_join (List.length funcs))).
    - intros ev s1 s2 Hinv Hstep. by eapply after_join_step.
    - apply join_inv_start. }
  unfold after_join in Hinv.
  assert (Hsettled : forall (m : member T) msg, settled m ->
            at_pc (outer m) <> Crashed msg /\
            forall it : task T, inner m = Some it -> at_pc it <> Crashed msg).
  { intros m msg (Hpc & Hin). split; [congruence|]. intros it Hit. rewrite Hit in Hin.
    destruct Hin as (_ & Hp). intros Hc. by rewrite Hc in Hp. }
  split_and!.
  - intros msg Hcl. by rewrite Hcl in Hinv.
  - intros j m msg Hm. destruct (caller s) as [|i results e|results e|msg'].
    + destruct Hinv as (_ & _ & _ & Hall). destruct (Hall j m Hm) as (_ & Hin & Hp).
      split; [intros Hc; by rewrite Hc in Hp|].
      intros it Hit. rewrite Hit in Hin. destruct Hin as (_ & Hq).
      intros Hc. by rewrite Hc in Hq.
    + destruct Hinv as (_ & Hall). eauto.
    + destruct Hinv as (Hall & _). eauto.
    + done.
  - intros results e Hcl. rewrite Hcl in Hinv. destruct Hinv as (Hall & Hres).
    split; [|done]. intros j m Hm. by destruct (Hall j m Hm).
Qed.

End RunSliceEg_more.

(** ** Where the error of [RunSliceEg] comes from *)

Section error_origin.
Import util gochan context errgroup rdv rdvexteg.
Context {T : Type} `{Zero T} (funcs : list (Context -> outcome T)).









End error_origin.

(** ** The promise of the obsolete package *)

Section promise_facts.
Import util gochan context obsolete.
Context {T : Type} `{Zero T} (f : func1 Context T).

Lemma gate_step (ev : event) (h h' : heap T) (a a' : awaiter T) :
  gate_inv h /\ (forall msg, a <> AwaitPanicked msg) ->
  promise_step f ev (h, a) = Some (h', a') ->
  gate_inv h' /\ (forall msg, a' <> AwaitPanicked msg).
Proof.
  unfold gate_inv, promise_step. intros (Hg & Ha). destruct ev as [| |r|pick].
  - destruct (runner h) as [|res err| |]; [| | |done].
    + destruct (SafeFunc1E f (Ctx h)); [|done]. by intros [= <- <-].
    + by intros [= <- <-].
    + destruct (close (ComplCh h)); [done|done|]. by intros [= <- <-].
  - destruct (closer h); [done| | |done].
    + destruct (recv (ComplCh h)) as [[u c]|]; [|done]. by intros [= <- <-].
    + destruct (close (WaitCh h)); [done|done|]. by intros [= <- <-].
  - destruct (Ctx h); [|done]. by intros [= <- <-].
  - destruct a as [outcomes|outcomes|msg]; [| |done].
    + unfold Wait_gate, recv, close.
      destruct Hg as [->|(Hb & Hc)]; simpl.
      * intros [= <- <-]; simpl. split; [by right|done].
      * rewrite Hb, Hc. simpl. intros [= <- <-]; simpl. split; [by right|done].
    + unfold Await_rest, Wait_rest, ErrWait.
      destruct (WaitChGate h); [intros [= <- <-]; by split|].
      destruct (recv (WaitCh h)) as [[e c]|], (Ctx h); try done;
        try destruct pick; intros [= <- <-]; by split.
Qed.

Lemma promise_inv_step (ev : event) (s s' : heap T * awaiter T) :
  promise_inv f s -> promise_step f ev s = Some s' -> promise_inv f s'.
Proof.
  destruct s as [h a], s' as [h' a']. unfold promise_inv, promise_step.
  intros Hinv Hstep Hlive'.
  assert (Hlive : Ctx h = Live).
  { destruct ev as [| |r|pick].
    - destruct (runner h) as [|res err| |]; [| | |done].
      + destruct (SafeFunc1E f (Ctx h)); [|done]. by injection Hstep as <- <-.
      + by injection Hstep as <- <-.
      + destruct (close (ComplCh h)); [done|done|]. by injection Hstep as <- <-.
    - destruct (closer h); [done| | |done].
      + destruct (recv (ComplCh h)) as [[u c]|]; [|done]. by injection Hstep as <- <-.
      + destruct (close (WaitCh h)); [done|done|]. by injection Hstep as <- <-.
    - destruct (Ctx h); [|done]. by injection Hstep as <- <-.
    - destruct a as [outcomes|outcomes|msg]; [| |done].
      + unfold Wait_gate in Hstep. destruct (recv (ActiveGate h)) as [[[|] gate]|]; [| |done].
        * destruct (close gate); [done| |]; by injection Hstep as <- <-.
        * by injection Hstep as <- <-.
      + unfold Await_rest, Wait_rest, ErrWait in Hstep.
        destruct (WaitChGate h); [by injection Hstep as <- <-|].
        destruct (recv (WaitCh h)) as [[e c]|], (Ctx h); try done;
          try destruct pick; by injection Hstep as <- <-. }
  destruct (Hinv Hlive) as (Hw & Hcb & Hwb & Hrun & Hcc & Hcl & Hwc & Hgate & Hout).
  clear Hinv Hlive'. destruct ev as [| |r|pick].
  - destruct (runner h) as [|res err| |] eqn:Hr; [| | |done].
    + rewrite Hlive in Hstep.
      destruct (SafeFunc1E f Live) as [res err|v] eqn:Hfs; [|done].
      injection Hstep as <- <-; simpl. split_and!; try done.
      * intros Hc. by specialize (Hcc Hc).
      * intros Hc. by specialize (Hcl Hc).
      * intros Hc. by specialize (Hwc Hc).
    + injection Hstep as <- <-; simpl. split_and!; try done.
      * intros Hc. by specialize (Hcc Hc).
      * intros Hc. by specialize (Hcl Hc).
      * intros Hc. by specialize (Hwc Hc).
    + unfold close in Hstep. destruct (closed (ComplCh h)) eqn:Hc; [done|].
      injection Hstep as <- <-; simpl. split_and!; done.
  - destruct (closer h) eqn:Hc; [done| | |done].
    + unfold recv in Hstep. rewrite Hcb in Hstep.
      destruct (closed (ComplCh h)) eqn:Hcd; [|done].
      injection Hstep as <- <-; simpl. split_and!; try done; intros _; by apply Hcc.
    + unfold close in Hstep. destruct (closed (WaitCh h)) eqn:Hcd; [done|].
      injection Hstep as <- <-; simpl. split_and!; try done.
      * intros _. apply Hcl. by left.
      * intros _. apply Hcl. by left.
  - rewrite Hlive in Hstep. by injection Hstep as <- <-.
  - destruct a as [outcomes|outcomes|msg]; [| |done].
    + unfold Wait_gate in Hstep. destruct (recv (ActiveGate h)) as [[[|] gate]|]; [| |done].
      * destruct (close gate); [done| |]; injection Hstep as <- <-; simpl; [done|].
        split_and!; try done. intros [?|?]; done.
      * injection Hstep as <- <-; simpl. done.
    + unfold Await_rest, Wait_rest, ErrWait in Hstep. rewrite Hw, Hlive in Hstep. simpl in Hstep.
      assert (Hres : closed (WaitCh h) = true ->
                forall r, r ∈ outcomes ++ [(Value (ResWE h), Error (ResWE h))] ->
                          SafeFunc1E f Live = Returned r.1 r.2).
      { intros Hcd r [Hr| ->%list_elem_of_singleton]%elem_of_app; [eauto|].
        simpl. specialize (Hwc Hcd). by rewrite Hwc in Hrun. }
      destruct (WaitChGate h) eqn:Hg.
      * injection Hstep as <- <-; simpl. rewrite Hg. split_and!; try done. by apply Hres, Hgate.
      * unfold recv in Hstep. rewrite Hwb in Hstep.
        destruct (closed (WaitCh h)) eqn:Hcd; [|done].
        injection Hstep as <- <-; simpl. rewrite Hcd. split_and!; try done. by apply Hres.
Qed.

(** X14: a call of [Await] never panics.  As long as the token has not fired,
    every call of [Await] that returns gives the result of the wrapped
    task function, the first call and the later ones alike.  And a first
    call can return: with the task run to its end and the waiter's
    goroutine through, it gives that result, whatever the token. *)
Theorem Await_before_the_token_fires (c : Context) :
  (forall (sched : list event) (h : heap T) (a : awaiter T),
     run (promise_step f) sched (Async c, Idle []) = Some (h, a) ->
     (forall msg, a <> AwaitPanicked msg) /\
     (Ctx h = Live -> forall outcomes,
        a = Idle outcomes \/ a = Awaiting outcomes ->
        forall r, r ∈ outcomes -> SafeFunc1E f Live = Returned r.1 r.2)) /\
  (exists h res err,
     SafeFunc1E f c = Returned res err /\
     run (promise_step f)
         [ObRunner; ObRunner; ObRunner; ObAwait true; ObCloser; ObCloser; ObAwait true]
         (Async c, Idle []) = Some (h, Idle [(res, err)])).
Proof.
  split.
  - intros sched h a Hrun. split.
    + assert (Hg : gate_inv h /\ (forall msg, a <> AwaitPanicked msg)); [|by destruct Hg].
      revert Hrun.
      apply (run_invariant (promise_step f)
               (fun s => gate_inv s.1 /\ (forall msg, s.2 <> AwaitPanicked msg))
               (fun ev '(h1, a1) '(h2, a2) => gate_step ev h1 h2 a1 a2)).
      split; [by left|done].
    + intros Hlive outcomes Ha r Hr.
      assert (Hinv : promise_inv f (h, a)).
      { revert Hrun. apply (run_invariant (promise_step f) (promise_inv f)).
        - intros ev s1 s2. apply promise_inv_step.
        - unfold promise_inv, Async; simpl. intros _. split_and!; try done.
          + by intros [?|?].
          + by intros r0 ?%elem_of_nil. }
      destruct (Hinv Hlive) as (_ & _ & _ & _ & _ & _ & _ & _ & Hout).
      destruct Ha as [-> | ->]; by apply Hout.
  - unfold SafeFunc1E. destruct (f c) as [r e|v] eqn:Hf.
    + eexists _, _, _. split; [reflexivity|].
      unfold run, promise_step, Async, SafeFunc1E; simpl. rewrite Hf. simpl.
      unfold Await_rest, Wait_rest, ErrWait; simpl. by destruct c.
    + eexists _, _, _. split; [reflexivity|].
      unfold run, promise_step, Async, SafeFunc1E; simpl. rewrite Hf. simpl.
      unfold Await_rest, Wait_rest, ErrWait; simpl. by destruct c.
Qed.

End promise_facts.

(** ** [Run2Eg] *)

Section Run2Eg_more.
Import util gochan context errgroup rdv rdvexteg.

(** On a handle that holds its record, [ReceiveWatch] neither blocks nor
    panics, and it returns the value of the record unless the token has
    fired and the select takes it. *)
Lemma ReceiveWatch_ready {T : Type} `{Zero T} (m : member T) (v : T) (c : Context)
    (pick : bool) :
  ready m v ->
  exists v' e rv', ReceiveWatch (rv (outer m)) c pick = Ok ((v', e), rv') /\
    (c = Live \/ pick = true -> v' = v).
Proof.
  intros (_ & d & (Hb & Ho) & <-). unfold ReceiveWatch, recv. rewrite Hb.
  destruct c, pick; simpl; rewrite ?Ho; simpl; eexists _, _, _;
    (split; [reflexivity|]); try done.
  by intros [?|?].
Qed.

Lemma inner_step_outer {T : Type} `{Zero T} (f : Context -> outcome T) (cx : Context)
    (m m' : member T) :
  inner_step f cx m = Some m' -> outer m' = outer m.
Proof.
  unfold inner_step. destruct (inner m); [|done].
  destruct (Go_step _ _); [|done]. by intros [= <-].
Qed.

Lemma outer_step_over {T : Type} `{Zero T} (pick : bool) (g : Group) (m : member T) :
  over m -> outer_step pick g m = None.
Proof. unfold over, outer_step, GoEg_step, body_step. by intros ->. Qed.

Lemma outer_step_unfinished {T : Type} `{Zero T} (pick : bool) (g g' : Group)
    (m m' : member T) :
  outer_step pick g m = Some (m', g') -> unfinished m = 1.
Proof.
  unfold unfinished. destruct (at_pc (outer m)) eqn:Hpc; try done.
  by rewrite outer_step_over.
Qed.

(** A member that is over, in a group without error, holds a record
    without error. *)
Lemma over_ready {T : Type} `{Zero T} (g : Group) (m : member T) :
  member_inv g m -> over m -> errgroup.err g = None -> ready m (delivered m).
Proof.
  unfold over. intros (_ & _ & Hp) Hpc Herr. rewrite Hpc in Hp.
  destruct Hp as (_ & d & Hd & _). split; [done|]. exists d. split; [done|].
  unfold delivered. by destruct Hd as (-> & _).
Qed.

Context {T1 T2 : Type} `{Zero T1, Zero T2}.
Context (f1 : Context -> outcome T1) (f2 : Context -> outcome T2).

Lemma pair_join_step (ev : event) (s s' : pairEg_state T1 T2) :
  pair_join_inv s -> Run2Eg_step f1 f2 ev s = Some s' ->
  (forall results, caller2 s' = JoiningPair results ->
     caller2 s = JoiningPair results /\ pair_join_inv s') /\
  (forall results, caller2 s = JoiningPair results ->
     caller2 s' = JoiningPair results \/ exists pick, ev = EgMain pick).
Proof.
  destruct s as [m1 m2 p g cl]. unfold pair_join_inv, Run2Eg_step; simpl.
  intros (Hwg & Hm1 & Hm2). destruct ev as [[|[|j]]|[|[|j]] pick|r|pick]; try done.
  - destruct (inner_step f1 (gctx g) m1) as [m'|] eqn:Hstep; [|done].
    intros [= <-]; simpl. split; [|eauto]. intros results ->. split; [done|].
    destruct (inner_step_inv _ _ g _ _ Hm1 Hstep) as (Hinv' & Hout).
    unfold unfinished in *. rewrite Hout. done.
  - destruct (inner_step f2 (gctx g) m2) as [m'|] eqn:Hstep; [|done].
    intros [= <-]; simpl. split; [|eauto]. intros results ->. split; [done|].
    destruct (inner_step_inv _ _ g _ _ Hm2 Hstep) as (Hinv' & Hout).
    unfold unfinished in *. rewrite Hout. done.
  - destruct (outer_step pick g m1) as [[m' g']|] eqn:Hstep; [|done].
    intros [= <-]; simpl. split; [|eauto]. intros results ->. split; [done|].
    pose proof (outer_step_unfinished _ _ _ _ _ Hstep) as Hun.
    destruct (outer_step_inv _ _ _ _ _ Hm1 ltac:(lia) Hstep) as (Hinv' & Hmono & Hcount).
    split_and!; [lia|done|]. by eapply member_inv_err_mono.
  - destruct (outer_step pick g m2) as [[m' g']|] eqn:Hstep; [|done].
    intros [= <-]; simpl. split; [|eauto]. intros results ->. split; [done|].
    pose proof (outer_step_unfinished _ _ _ _ _ Hstep) as Hun.
    destruct (outer_step_inv _ _ _ _ _ Hm2 ltac:(lia) Hstep) as (Hinv' & Hmono & Hcount).
    split_and!; [lia| |done]. by eapply member_inv_err_mono.
  - destruct p; [|done]. intros [= <-]; simpl. split; [|eauto]. intros results ->.
    split; [done|]. split_and!; [done| |]; by eapply member_inv_err_mono.
  - intros Hstep. split; [|eauto]. intros results Hcl'.
    destruct cl as [results0|results0 e|results0 e|results0 e|msg]; try done.
    + destruct (Wait g) as [[[e|] g']|]; [| |done]; by injection Hstep as <-.
    + destruct (ReceiveWatch _ _ _) as [| |[[v e'] rv']]; [done| |]; by injection Hstep as <-.
    + destruct (ReceiveWatch _ _ _) as [| |[[v e'] rv']]; [done| |]; by injection Hstep as <-.
Qed.

(** When [eg.Wait()] can return, both members are over; when it returns
    nil, each handle holds a record. *)
Lemma pair_joined (s : pairEg_state T1 T2) (e : error) (g' : Group) :
  pair_join_inv s -> Wait (group2 s) = Some (e, g') ->
  over (member1 s) /\ over (member2 s) /\
  (e = None -> ready (member1 s) (delivered (member1 s)) /\
               ready (member2 s) (delivered (member2 s))).
Proof.
  intros (Hwg & Hm1 & Hm2). unfold Wait. destruct (wg (group2 s)) eqn:Hz; [|done].
  intros [= <- _].
  assert (Hover : over (member1 s) /\ over (member2 s)).
  { unfold over, unfinished in *.
    destruct Hm1 as (_ & _ & Hp1), Hm2 as (_ & _ & Hp2).
    destruct (at_pc (outer (member1 s))), (at_pc (outer (member2 s))); try done; lia. }
  destruct Hover as (Ho1 & Ho2). split_and!; try done.
  intros Herr. split; by eapply over_ready.
Qed.

Lemma over_step (ev : event) (s s' : pairEg_state T1 T2) :
  over (member1 s) /\ over (member2 s) -> Run2Eg_step f1 f2 ev s = Some s' ->
  over (member1 s') /\ over (member2 s').
Proof.
  destruct s as [m1 m2 p g cl]. unfold Run2Eg_step; simpl. intros (Ho1 & Ho2).
  destruct ev as [[|[|j]]|[|[|j]] pick|r|pick]; try done.
  - destruct (inner_step f1 (gctx g) m1) as [m'|] eqn:Hstep; [|done].
    intros [= <-]; simpl. split; [|done]. unfold over. by rewrite (inner_step_outer _ _ _ _ Hstep).
  - destruct (inner_step f2 (gctx g) m2) as [m'|] eqn:Hstep; [|done].
    intros [= <-]; simpl. split; [done|]. unfold over. by rewrite (inner_step_outer _ _ _ _ Hstep).
  - by rewrite outer_step_over.
  - by rewrite outer_step_over.
  - destruct p; [|done]. by intros [= <-].
  - destruct cl as [results0|results0 e|results0 e|results0 e|msg]; try done.
    + destruct (Wait g) as [[[e|] g']|]; [| |done]; by intros [= <-].
    + destruct (ReceiveWatch _ _ _) as [| |[[v e'] rv']]; [done| |]; by intros [= <-].
    + destruct (ReceiveWatch _ _ _) as [| |[[v e'] rv']]; [done| |]; by intros [= <-].
Qed.

Lemma ready_inner_step {T : Type} `{Zero T} (f : Context -> outcome T) (cx : Context)
    (m m' : member T) (v : T) :
  inner_step f cx m = Some m' -> ready m v -> ready m' v.
Proof.
  intros Hstep. unfold ready, over, holds. by rewrite (inner_step_outer _ _ _ _ Hstep).
Qed.

Lemma pair_drain_step (v1 : T1) (v2 : T2) (ev : event) (s s' : pairEg_state T1 T2) :
  pair_drain_inv v1 v2 s -> Run2Eg_step f1 f2 ev s = Some s' -> pair_drain_inv v1 v2 s'.
Proof.
  intros Hinv Hstep.
  assert (Hover : over (member1 s) /\ over (member2 s)).
  { unfold pair_drain_inv in Hinv. destruct (caller2 s); try done.
    - by destruct Hinv as (_ & (? & _) & (? & _)).
    - by destruct Hinv as (_ & ? & (? & _) & _).
    - by destruct Hinv as (_ & ? & ? & _). }
  pose proof (over_step _ _ _ Hover Hstep) as (Ho1' & Ho2').
  destruct Hover as (Ho1 & Ho2).
  destruct s as [m1 m2 p g cl]. unfold pair_drain_inv, Run2Eg_step in *; simpl in *.
  destruct ev as [[|[|j]]|[|[|j]] pick|r|pick]; try done.
  - destruct (inner_step f1 (gctx g) m1) as [m'|] eqn:Hin; [|done].
    injection Hstep as <-; simpl in *.
    destruct cl as [results0|results0 e|results0 e|results0 e|msg]; try done.
    + destruct Hinv as (? & ? & ?). split_and!; try done. by eapply ready_inner_step.
    + destruct Hinv as (? & ? & ? & ?). by split_and!.
    + destruct Hinv as (? & ? & ? & ?). by split_and!.
  - destruct (inner_step f2 (gctx g) m2) as [m'|] eqn:Hin; [|done].
    injection Hstep as <-; simpl in *.
    destruct cl as [results0|results0 e|results0 e|results0 e|msg]; try done.
    + destruct Hinv as (? & ? & ?). split_and!; try done. by eapply ready_inner_step.
    + destruct Hinv as (? & ? & ? & ?). split_and!; try done. by eapply ready_inner_step.
    + destruct Hinv as (? & ? & ? & ?). by split_and!.
  - by rewrite outer_step_over in Hstep.
  - by rewrite outer_step_over in Hstep.
  - destruct p; [|done]. injection Hstep as <-; simpl.
    destruct cl as [results0|results0 e|results0 e|results0 e|msg]; try done.
    + destruct Hinv as (? & ? & ? & ?). by split_and!.
    + destruct Hinv as (? & ? & ? & ?). by split_and!.
  - destruct cl as [results0|results0 e|results0 e|results0 e|msg]; try done.
    + destruct Hinv as (-> & Hr1 & Hr2).
      destruct (ReceiveWatch_ready m1 v1 p pick Hr1) as (v' & e' & rv' & Hrw & Hv).
      rewrite Hrw in Hstep. injection Hstep as <-; simpl. split_and!; try done.
      intros ->. apply Hv. by left.
    + destruct Hinv as (-> & _ & Hr2 & Hx1).
      destruct (ReceiveWatch_ready m2 v2 p pick Hr2) as (v' & e' & rv' & Hrw & Hv).
      rewrite Hrw in Hstep. injection Hstep as <-; simpl. split_and!; try done.
      intros ->. destruct results0 as [x1 x2]; simpl in *. rewrite Hx1 by done.
      f_equal. apply Hv. by left.
Qed.

Lemma pairEg_inv_step (ev : event) (s s' : pairEg_state T1 T2) :
  pairEg_inv s -> Run2Eg_step f1 f2 ev s = Some s' -> pairEg_inv s'.
Proof.
  intros Hinv Hstep. unfold pairEg_inv in Hinv.
  destruct (caller2 s) as [results|results e|results e|results e|msg] eqn:Hcl; [| | | |done].
  - destruct Hinv as (-> & Hjoin).
    destruct (pair_join_step _ _ _ Hjoin Hstep) as (Hback & Hfwd).
    destruct (Hfwd _ Hcl) as [Hcl'|(pick & ->)].
    + unfold pairEg_inv. rewrite Hcl'. split; [done|]. by eapply Hback.
    + unfold Run2Eg_step in Hstep. rewrite Hcl in Hstep.
      destruct (Wait (group2 s)) as [[e g']|] eqn:Hwait; [|done].
      destruct (pair_joined _ _ _ Hjoin Hwait) as (Ho1 & Ho2 & Hready).
      destruct e as [e|]; injection Hstep as <-; unfold pairEg_inv; simpl.
      * done.
      * destruct (Hready eq_refl). eexists _, _. unfold pair_drain_inv; simpl. eauto.
  - destruct Hinv as (v1 & v2 & Hdrain).
    pose proof (pair_drain_step _ _ _ _ _ Hdrain Hstep) as Hdrain'.
    unfold pairEg_inv. pose proof Hdrain' as Hd. unfold pair_drain_inv in Hd.
    destruct (caller2 s'); try done; [by exists v1, v2..|].
    destruct Hd as (-> & ? & ? & _). by split_and!.
  - destruct Hinv as (v1 & v2 & Hdrain).
    pose proof (pair_drain_step _ _ _ _ _ Hdrain Hstep) as Hdrain'.
    unfold pairEg_inv. pose proof Hdrain' as Hd. unfold pair_drain_inv in Hd.
    destruct (caller2 s'); try done; [by exists v1, v2..|].
    destruct Hd as (-> & ? & ? & _). by split_and!.
  - destruct Hinv as (Ho1 & Ho2 & Hres).
    pose proof (over_step _ _ _ (conj Ho1 Ho2) Hstep) as (Ho1' & Ho2').
    assert (Hcl' : caller2 s' = PairEgReturned results e).
    { destruct s as [m1 m2 p g cl]. unfold Run2Eg_step in Hstep; simpl in *. subst cl.
      destruct ev as [[|[|j]]|[|[|j]] pick|r|pick]; try done.
      - destruct (inner_step _ _ _); [|done]. by injection Hstep as <-.
      - destruct (inner_step _ _ _); [|done]. by injection Hstep as <-.
      - destruct (outer_step _ _ _) as [[? ?]|]; [|done]. by injection Hstep as <-.
      - destruct (outer_step _ _ _) as [[? ?]|]; [|done]. by injection Hstep as <-.
      - destruct p; [|done]. by injection Hstep as <-. }
    unfold pairEg_inv. rewrite Hcl'. done.
Qed.

Lemma pairEg_inv_run (c : Context) (sched : list event) (s : pairEg_state T1 T2) :
  run (Run2Eg_step f1 f2) sched (Run2Eg_start c) = Some s -> pairEg_inv s.
Proof.
  apply (run_invariant (Run2Eg_step f1 f2) pairEg_inv).
  - intros ev s1 s2. apply pairEg_inv_step.
  - unfold pairEg_inv, pair_join_inv, Run2Eg_start; simpl. by split_and!.
Qed.

(** X15: [Run2Eg] never panics; when it returns, the two goroutines of its
    group are over; and when it returns an error, its results are the
    zero tuple. *)
Theorem Run2Eg_returns (c : Context) (sched : list event) (s : pairEg_state T1 T2) :
  run (Run2Eg_step f1 f2) sched (Run2Eg_start c) = Some s ->
  (forall msg, caller2 s <> PairEgPanicked msg) /\
  (forall results e, caller2 s = PairEgReturned results e ->
     at_pc (outer (member1 s)) = Exited /\ at_pc (outer (member2 s)) = Exited /\
     (e <> None -> results = mkTuple2 zero zero)).
Proof.
  intros Hinv%pairEg_inv_run. unfold pairEg_inv in Hinv. split.
  - intros msg Hcl. by rewrite Hcl in Hinv.
  - intros results e Hcl. by rewrite Hcl in Hinv.
Qed.

(** X16: what [Run2Eg] does right after a nil [eg.Wait()].  Both handles hold
    their record then, so the two selects of [ReceiveWatch] neither block
    nor panic: the three remaining statements of the caller run without
    any other event.  [Run2Eg] returns a nil error, and, if the caller's
    token has not fired by then, the two delivered values. *)
Theorem Run2Eg_drains_when_live (c : Context) (pre : list event)
    (s1 : pairEg_state T1 T2) (results1 : Tuple2 T1 T2) (g' : Group) :
  run (Run2Eg_step f1 f2) pre (Run2Eg_start c) = Some s1 ->
  caller2 s1 = JoiningPair results1 -> Wait (group2 s1) = Some (None, g') ->
  (exists s2,
     run (Run2Eg_step f1 f2) (replicate 3 (EgMain true)) s1 = Some s2 /\
     caller2 s2 =
       PairEgReturned (mkTuple2 (delivered (member1 s1)) (delivered (member2 s1))) None) /\
  (forall post s2 results e,
     run (Run2Eg_step f1 f2) post s1 = Some s2 ->
     caller2 s2 = PairEgReturned results e ->
     e = None /\
     (parent2 s2 = Live ->
      results = mkTuple2 (delivered (member1 s1)) (delivered (member2 s1)))).
Proof.
  intros Hpre Hcl Hwait. pose proof (pairEg_inv_run _ _ _ Hpre) as Hinv.
  unfold pairEg_inv in Hinv. rewrite Hcl in Hinv. destruct Hinv as (-> & Hjoin).
  set (v1 := delivered (member1 s1)). set (v2 := delivered (member2 s1)).
  assert (Hfirst : forall s pick g0,
            caller2 s = JoiningPair zero -> pair_join_inv s ->
            Wait (group2 s) = Some (None, g0) ->
            exists s', Run2Eg_step f1 f2 (EgMain pick) s = Some s' /\
              caller2 s' = DrainingX1 zero None /\
              pair_drain_inv (delivered (member1 s)) (delivered (member2 s)) s').
  { intros s pick g0 Hc Hj Hw. destruct (pair_joined _ _ _ Hj Hw) as (_ & _ & Hready).
    destruct (Hready eq_refl) as (Hr1 & Hr2).
    unfold Run2Eg_step. rewrite Hc, Hw. eexists. split; [reflexivity|].
    unfold pair_drain_inv; simpl. by split_and!. }
  split.
  - destruct (Hfirst s1 true g' Hcl Hjoin Hwait) as (sa & Hstep1 & Hcla & Hda).
    fold v1 v2 in Hda. unfold pair_drain_inv in Hda. rewrite Hcla in Hda.
    destruct Hda as (_ & Hr1 & Hr2).
    destruct (ReceiveWatch_ready _ v1 (parent2 sa) true Hr1) as (x1 & e1 & rv1 & Hrw1 & Hx1).
    rewrite (Hx1 (or_intror eq_refl)) in Hrw1.
    set (sb := mkPairEg (mkMember (mkTask (at_pc (outer (member1 sa))) rv1)
                                  (inner (member1 sa)))
                        (member2 sa) (parent2 sa) (group2 sa)
                        (DrainingX2 (mkTuple2 v1 (zero : T2)) None)).
    assert (Hb : Run2Eg_step f1 f2 (EgMain true) sa = Some sb).
    { unfold Run2Eg_step. by rewrite Hcla, Hrw1. }
    assert (Hr2b : ready (member2 sb) v2) by done.
    destruct (ReceiveWatch_ready _ v2 (parent2 sb) true Hr2b) as (x2 & e2 & rv2 & Hrw2 & Hx2).
    rewrite (Hx2 (or_intror eq_refl)) in Hrw2.
    set (sc := mkPairEg (member1 sb)
                        (mkMember (mkTask (at_pc (outer (member2 sb))) rv2)
                                  (inner (member2 sb)))
                        (parent2 sb) (group2 sb)
                        (PairEgReturned (mkTuple2 v1 v2) None)).
    assert (Hc : Run2Eg_step f1 f2 (EgMain true) sb = Some sc).
    { unfold Run2Eg_step. change (caller2 sb) with (DrainingX2 (mkTuple2 v1 (zero : T2)) None).
      by rewrite Hrw2. }
    exists sc. split; [|done].
    change (replicate 3 (EgMain true)) with [EgMain true; EgMain true; EgMain true].
    by rewrite run_cons, Hstep1, run_cons, Hb, run_cons, Hc.
  - intros post s2 results e Hrun Hret.
    assert (Hfinal : (caller2 s2 = JoiningPair zero /\ pair_join_inv s2 /\
                      (exists g0, Wait (group2 s2) = Some (None, g0)) /\
                      delivered (member1 s2) = v1 /\ delivered (member2 s2) = v2) \/
                     pair_drain_inv v1 v2 s2).
    { revert Hrun.
      apply (run_invariant (Run2Eg_step f1 f2)
               (fun s => (caller2 s = JoiningPair zero /\ pair_join_inv s /\
                          (exists g0, Wait (group2 s) = Some (None, g0)) /\
                          delivered (member1 s) = v1 /\ delivered (member2 s) = v2) \/
                         pair_drain_inv v1 v2 s)).
      2: { left. split_and!; eauto. }
      intros ev sa sb [(Hca & Hja & (ga & Hwa) & Hv1 & Hv2)|Hd] Hstep;
        [|right; by eapply pair_drain_step].
      destruct (pair_joined _ _ _ Hja Hwa) as (Ho1 & Ho2 & _).
      destruct (pair_join_step _ _ _ Hja Hstep) as (Hback & _).
      destruct ev as [j|j pick|r|pick].
      - left. unfold Run2Eg_step in Hstep. destruct j as [|[|j]]; [| |done].
        + destruct (inner_step f1 _ (member1 sa)) as [m'|] eqn:Hin; [|done].
          injection Hstep as <-.
          destruct (Hback zero Hca) as (_ & Hjb). simpl in *.
          split_and!; eauto. unfold delivered in *. by rewrite (inner_step_outer _ _ _ _ Hin).
        + destruct (inner_step f2 _ (member2 sa)) as [m'|] eqn:Hin; [|done].
          injection Hstep as <-.
          destruct (Hback zero Hca) as (_ & Hjb). simpl in *.
          split_and!; eauto. unfold delivered in *. by rewrite (inner_step_outer _ _ _ _ Hin).
      - exfalso. unfold Run2Eg_step in Hstep.
        destruct j as [|[|j]]; [| |done]; by rewrite outer_step_over in Hstep.
      - left. unfold Run2Eg_step in Hstep. destruct (parent2 sa); [|done].
        injection Hstep as <-.
        destruct (Hback zero Hca) as (_ & Hjb). simpl in *.
        split_and!; eauto.
        unfold Wait, parent_fired in *; simpl. destruct (wg (group2 sa)); [|done].
        injection Hwa as -> _. eauto.
      - right. destruct (Hfirst sa pick ga Hca Hja Hwa) as (s' & Hs' & _ & Hd).
        rewrite Hs' in Hstep. injection Hstep as <-. by rewrite Hv1, Hv2 in Hd. }
    destruct Hfinal as [(Hj & _)|Hd]; [congruence|].
    unfold pair_drain_inv in Hd. rewrite Hret in Hd. by destruct Hd as (-> & _ & _ & ?).
Qed.

End Run2Eg_more.

(** ** Go multiple *)

Section gomulti_facts.
Import util gochan context rdv gomulti.

Section any_body.
Context {S E T : Type} `{Zero T}.
Context (step : E -> S -> option S) (result : S -> option (outcome T)).

(** Once the call is over, it stays over, with the same results. *)
Hypothesis stable : forall e b b' o, result b = Some o -> step e b = Some b' ->
  result b' = Some o.

Lemma record_inv_step (ev : event E) (s s' : state S T) :
  record_inv result s -> step_of step result ev s = Some s' -> record_inv result s'.
Proof.
  destruct s as [b t]. unfold record_inv, step_of, sent; simpl.
  intros (Ht & Hrec). destruct ev as [e|].
  - destruct (step e b) as [b'|] eqn:Hstep; [|done]. intros [= <-]; simpl.
    split; [done|]. intros d Hd. destruct (Hrec d Hd) as (o & Ho & Hfs).
    exists o. split; [|done]. by eapply stable.
  - destruct (Go_step _ t) as [t'|] eqn:Hgo; [|done]. intros [= <-]; simpl.
    destruct t as [p [c]]. unfold Go_step, body_step in Hgo; simpl in *.
    pose proof Ht as (Hcap & Hp); simpl in *.
    destruct p as [|d0|e0|e0| |msg]; try done.
    + destruct (result b) as [o|] eqn:Ho; [|done].
      pose proof (Go_step_task_inv true (fun _ => o) _ t' Ht) as Ht'.
      unfold Go_step, body_step in Ht'; simpl in Ht'. specialize (Ht' Hgo).
      destruct (SafeFunc0E (fun _ => o) tt) as [res err|v] eqn:Hfs; injection Hgo as <-.
      * split; [done|]. simpl. intros d [[= <-]|Hd]; [by exists o|].
        apply Hrec. by right.
      * by destruct Ht' as (_ & ?).
    + destruct Hp as (Hbuf & Hcl & Hopen). unfold send in Hgo.
      rewrite Hcl, Hbuf, Hcap in Hgo. simpl in Hgo. injection Hgo as <-. simpl.
      split.
      * unfold rdvext.task_inv, rdvext.record_in; simpl. split_and!; try done. left. eauto.
      * intros d [?|Hd]; [done|]. apply Hrec. left.
        apply list_elem_of_singleton in Hd. by subst.
    + destruct Hp as (Hcl & Hin). unfold close in Hgo. rewrite Hcl in Hgo.
      injection Hgo as <-. simpl. split.
      * unfold rdvext.task_inv; simpl. by split_and!.
      * intros d [?|Hd]; [done|]. apply Hrec. by right.
Qed.

Lemma record_inv_run (b : S) (sched : list (event E)) (s : state S T) :
  run (step_of step result) sched (start b) = Some s ->
  record_inv result s /\ exists sched', run step sched' b = Some (body s).
Proof.
  apply (run_invariant (step_of step result)
           (fun s => record_inv result s /\ exists sched', run step sched' b = Some (body s))).
  - intros ev s1 s2 (Hinv & sched' & Hb) Hstep. split; [by eapply record_inv_step|].
    destruct ev as [e|]; unfold step_of in Hstep.
    + destruct (step e (body s1)) as [b'|] eqn:Hs; [|done]. injection Hstep as <-.
      exists (sched' ++ [e]). rewrite run_app, Hb. simpl. by rewrite Hs.
    + destruct (Go_step _ _); [|done]. injection Hstep as <-. eauto.
  - split; [|by exists []]. split; [apply launch_task_inv|].
    intros d [?|Hd]; [done|]. by apply elem_of_nil in Hd.
Qed.



End any_body.



Lemma RunSliceEg_result_stable {T : Type} `{Zero T} (funcs : list (Context -> outcome T))
    (e : rdvexteg.event) (b b' : rdvexteg.sliceEg_state T) (o : outcome (option (list T))) :
  RunSliceEg_result b = Some o -> rdvexteg.RunSliceEg_step funcs e b = Some b' ->
  RunSliceEg_result b' = Some o.
Proof.
  destruct b as [ms p g cl]. unfold RunSliceEg_result, rdvexteg.RunSliceEg_step; simpl.
  destruct cl as [|i results err|results err|msg]; try done; intros Ho;
    destruct e as [j|j pick|r|pick]; try done.
  all: try (destruct (funcs !! j); [|done]; destruct (ms !! j); [|done];
            destruct (rdvexteg.inner_step _ _ _); [|done]; by intros [= <-]).
  all: try (destruct (ms !! j); [|done];
            destruct (rdvexteg.outer_step _ _ _) as [[? ?]|]; [|done]; by intros [= <-]).
  all: destruct p; [|done]; by intros [= <-].
Qed.

Lemma Run2Eg_result_stable {T1 T2 : Type} `{Zero T1, Zero T2}
    (f1 : Context -> outcome T1) (f2 : Context -> outcome T2)
    (e : rdvexteg.event) (b b' : rdvexteg.pairEg_state T1 T2) (o : outcome (Tuple2 T1 T2)) :
  Run2Eg_result b = Some o -> rdvexteg.Run2Eg_step f1 f2 e b = Some b' ->
  Run2Eg_result b' = Some o.
Proof.
  destruct b as [m1 m2 p g cl]. unfold Run2Eg_result, rdvexteg.Run2Eg_step; simpl.
  destruct cl as [results|results err|results err|results err|msg]; try done; intros Ho;
    destruct e as [[|[|j]]|[|[|j]] pick|r|pick]; try done.
  all: try (destruct (rdvexteg.inner_step _ _ _); [|done]; by intros [= <-]).
  all: try (destruct (rdvexteg.outer_step _ _ _) as [[? ?]|]; [|done]; by intros [= <-]).
  all: destruct p; [|done]; by intros [= <-].
Qed.

(** What [record_inv] says of a record, when the call cannot have
    panicked. *)
Lemma sent_returned {S T : Type} `{Zero T} (result : S -> option (outcome T))
    (s : state S T) (d : rdvData T) :
  record_inv result s -> sent s d ->
  chanOpen d = true /\
  exists o, result (body s) = Some o /\
    SafeFunc0E (fun _ => o) tt = Returned (value d) (err d).
Proof.
  intros ((Hcap & Hp) & Hrec) Hd. split; [|by apply Hrec].
  destruct Hd as [Hd|Hd].
  - rewrite Hd in Hp. by destruct Hp as (_ & _ & ?).
  - unfold rdvext.record_in in Hp.
    destruct (at_pc (handle s)); try done.
    + destruct Hp as (Hb & _). rewrite Hb in Hd. by apply elem_of_nil in Hd.
    + destruct Hp as (Hb & _). rewrite Hb in Hd. by apply elem_of_nil in Hd.
    + destruct Hp as (_ & [(d0 & Hb & ?)|(? & _)]); [|done].
      rewrite Hb in Hd. apply list_elem_of_singleton in Hd. by subst.
    + destruct Hp as (_ & [(d0 & Hb & ?)|(? & _)]); [|done].
      rewrite Hb in Hd. apply list_elem_of_singleton in Hd. by subst.
Qed.


(** X18: the handles of [GoSliceEg] and [Go2Eg].  The goroutine of [Go] never
    crashes, and the record it sends is what [RunSliceEg] (or [Run2Eg])
    returned: a nil slice with an error or one value per function with a
    nil error, and for [Go2Eg] the zero tuple when there is an error. *)
Theorem Go_fail_fast_records :
  (forall (T : Type) (HT : Zero T) (funcs : list (Context -> outcome T)) (c : Context)
          (sched : list (event rdvexteg.event)) s,
     run (GoSliceEg_step funcs) sched (GoSliceEg_start c funcs) = Some s ->
     (forall msg, at_pc (handle s) <> Crashed msg) /\
     (forall d, sent s d ->
        chanOpen d = true /\
        rdvexteg.caller (body s) = rdvexteg.SliceEgReturned (value d) (err d) /\
        match value d with
        | None => err d <> None
        | Some vals => err d = None /\ List.length vals = List.length funcs
        end)) /\
  (forall (T1 T2 : Type) (HT1 : Zero T1) (HT2 : Zero T2)
          (f1 : Context -> outcome T1) (f2 : Context -> outcome T2) (c : Context)
          (sched : list (event rdvexteg.event)) s,
     run (Go2Eg_step f1 f2) sched (Go2Eg_start c) = Some s ->
     (forall msg, at_pc (handle s) <> Crashed msg) /\
     (forall d, sent s d ->
        chanOpen d = true /\
        rdvexteg.caller2 (body s) = rdvexteg.PairEgReturned (value d) (err d) /\
        (err d <> None -> value d = mkTuple2 zero zero))).
Proof.
  split.
  - intros T HT funcs c sched s Hrun.
    destruct (record_inv_run _ _ (RunSliceEg_result_stable funcs) _ _ _ Hrun)
      as (Hinv & schedb & Hbody).
    assert (Hjoin : rdvexteg.after_join (List.length funcs) (body s)).
    { revert Hbody.
      apply (run_invariant (rdvexteg.RunSliceEg_step funcs)
               (rdvexteg.after_join (List.length funcs))).
      - intros ev s1 s2 Hi Hstep. by eapply after_join_step.
      - apply join_inv_start. }
    unfold rdvexteg.after_join in Hjoin. split.
    + intros msg Hpc. destruct Hinv as ((_ & Hp) & _). by rewrite Hpc in Hp.
    + intros d Hd. destruct (sent_returned _ _ _ Hinv Hd) as (Hopen & o & Ho & Hfs).
      split; [done|]. unfold RunSliceEg_result in Ho.
      destruct (rdvexteg.caller (body s)) as [|i results e|results e|msg]; try done.
      injection Ho as <-. unfold SafeFunc0E in Hfs; simpl in Hfs.
      injection Hfs as <- <-. by destruct Hjoin as (_ & ?).
  - intros T1 T2 HT1 HT2 f1 f2 c sched s Hrun.
    destruct (record_inv_run _ _ (Run2Eg_result_stable f1 f2) _ _ _ Hrun)
      as (Hinv & schedb & Hbody).
    pose proof (pairEg_inv_run _ _ _ _ _ Hbody) as Hpair. unfold rdvexteg.pairEg_inv in Hpair.
    split.
    + intros msg Hpc. destruct Hinv as ((_ & Hp) & _). by rewrite Hpc in Hp.
    + intros d Hd. destruct (sent_returned _ _ _ Hinv Hd) as (Hopen & o & Ho & Hfs).
      split; [done|]. unfold Run2Eg_result in Ho.
      destruct (rdvexteg.caller2 (body s)) as [r|r e|r e|results e|msg]; try done.
      injection Ho as <-. unfold SafeFunc0E in Hfs; simpl in Hfs.
      injection Hfs as <- <-. by destruct Hpair as (_ & _ & ?).
Qed.

End gomulti_facts.

(** ** The properties above at concrete runs *)


(** [f1] returns 7 and [f2] panics: [RunSliceEg] returns a nil slice with
    the error of the panic, and both goroutines of the group are over. *)
Lemma RunSliceEg_returns_witness :
  let g1 : context.Context -> util.outcome Z := fun _ => util.Returned 7%Z None in
  let g2 : context.Context -> util.outcome Z :=
    fun _ => util.Panicked (AnyString "f2 panicked") in
  let member j := [rdvexteg.EgOuter j true; rdvexteg.EgInner j; rdvexteg.EgInner j;
                   rdvexteg.EgInner j; rdvexteg.EgOuter j true; rdvexteg.EgOuter j true;
                   rdvexteg.EgOuter j true; rdvexteg.EgOuter j true] in
  exists s,
    run (rdvexteg.RunSliceEg_step [g1; g2]) (member 0 ++ member 1 ++ [rdvexteg.EgMain true])
        (rdvexteg.RunSliceEg_start context.Live [g1; g2]) = Some s /\
    rdvexteg.caller s =
      rdvexteg.SliceEgReturned None (Some (ErrorOf (AnyString "f2 panicked"))) /\
    (forall j m, rdvexteg.members s !! j = Some m ->
       rdv.at_pc (rdvexteg.outer m) = rdv.Exited).
Proof.
  intros g1 g2 member.
  eassert (Hrun : run (rdvexteg.RunSliceEg_step [g1; g2])
                    (member 0 ++ member 1 ++ [rdvexteg.EgMain true])
                    (rdvexteg.RunSliceEg_start context.Live [g1; g2]) = Some _)
    by (vm_compute; reflexivity).
  match type of Hrun with _ = Some ?s0 => set (s := s0) in * end.
  destruct (RunSliceEg_returns [g1; g2] _ _ _ Hrun) as (_ & _ & Hret).
  destruct (Hret None (Some (ErrorOf (AnyString "f2 panicked"))) eq_refl) as (Hover & _).
  exists s. split; [exact Hrun|]. split; [reflexivity|exact Hover].
Defined.


(** [f1] returns 7 and [f2] returns 8: when both members are over,
    [eg.Wait()] returns nil and [RunSliceEg] returns 7 and 8 with four
    more statements of its caller. *)
Lemma RunSliceEg_drains_in_order_witness :
  let g1 : context.Context -> util.outcome Z := fun _ => util.Returned 7%Z None in
  let g2 : context.Context -> util.outcome Z := fun _ => util.Returned 8%Z None in
  let member j := [rdvexteg.EgOuter j true; rdvexteg.EgInner j; rdvexteg.EgInner j;
                   rdvexteg.EgInner j; rdvexteg.EgOuter j true; rdvexteg.EgOuter j true;
                   rdvexteg.EgOuter j true; rdvexteg.EgOuter j true] in
  exists s1 s2,
    run (rdvexteg.RunSliceEg_step [g1; g2]) (member 0 ++ member 1)
        (rdvexteg.RunSliceEg_start context.Live [g1; g2]) = Some s1 /\
    rdvexteg.delivered <$> rdvexteg.members s1 = [7%Z; 8%Z] /\
    run (rdvexteg.RunSliceEg_step [g1; g2]) (replicate 4 (rdvexteg.EgMain true)) s1
      = Some s2 /\
    rdvexteg.caller s2 = rdvexteg.SliceEgReturned (Some [7%Z; 8%Z]) None.
Proof.
  intros g1 g2 member.
  eassert (Hrun : run (rdvexteg.RunSliceEg_step [g1; g2]) (member 0 ++ member 1)
                    (rdvexteg.RunSliceEg_start context.Live [g1; g2]) = Some _)
    by (vm_compute; reflexivity).
  match type of Hrun with _ = Some ?s0 => set (s1 := s0) in * end.
  destruct (RunSliceEg_drains_in_order [g1; g2] _ _ s1
              (errgroup.mkGroup 0 None (context.Fired context.Cancelled))
              Hrun eq_refl eq_refl)
    as (_ & _ & (s2 & Hrun2 & Hcl2) & _).
  exists s1, s2. split; [exact Hrun|]. split; [reflexivity|].
  split; [exact Hrun2|exact Hcl2].
Defined.

(** A task that returns 7, awaited three times while the token is live:
    the three calls give 7. *)
Lemma Await_before_the_token_fires_witness :
  let f : util.func1 context.Context Z := fun _ => util.Returned 7%Z None in
  exists h outcomes,
    run (obsolete.promise_step f)
        [obsolete.ObRunner; obsolete.ObRunner; obsolete.ObRunner; obsolete.ObAwait true;
         obsolete.ObCloser; obsolete.ObCloser; obsolete.ObAwait true;
         obsolete.ObAwait true; obsolete.ObAwait true;
         obsolete.ObAwait true; obsolete.ObAwait true]
        (obsolete.Async context.Live, obsolete.Idle []) = Some (h, obsolete.Idle outcomes) /\
    List.length outcomes = 3 /\
    forall r, r ∈ outcomes -> util.SafeFunc1E f context.Live = util.Returned r.1 r.2.
Proof.
  intros f.
  eassert (Hrun : run (obsolete.promise_step f)
        [obsolete.ObRunner; obsolete.ObRunner; obsolete.ObRunner; obsolete.ObAwait true;
         obsolete.ObCloser; obsolete.ObCloser; obsolete.ObAwait true;
         obsolete.ObAwait true; obsolete.ObAwait true;
         obsolete.ObAwait true; obsolete.ObAwait true]
        (obsolete.Async context.Live, obsolete.Idle []) = Some (_, obsolete.Idle _))
    by (vm_compute; reflexivity).
  destruct (Await_before_the_token_fires f context.Live) as (Hall & _).
  destruct (Hall _ _ _ Hrun) as (_ & Hlive).
  eexists _, _. split; [exact Hrun|]. split; [reflexivity|].
  exact (Hlive eq_refl _ (or_introl eq_refl)).
Defined.

(** [f1] returns 7 and [f2] panics, run to the end by [Run2Eg]: it
    returns the zero tuple with the error of the panic, and both
    goroutines of the group are over. *)
Lemma Run2Eg_returns_witness :
  let g1 : context.Context -> util.outcome Z := fun _ => util.Returned 7%Z None in
  let g2 : context.Context -> util.outcome Z :=
    fun _ => util.Panicked (AnyString "f2 panicked") in
  let member j := [rdvexteg.EgOuter j true; rdvexteg.EgInner j; rdvexteg.EgInner j;
                   rdvexteg.EgInner j; rdvexteg.EgOuter j true; rdvexteg.EgOuter j true;
                   rdvexteg.EgOuter j true; rdvexteg.EgOuter j true] in
  exists s,
    run (rdvexteg.Run2Eg_step g1 g2) (member 0 ++ member 1 ++ [rdvexteg.EgMain true])
        (rdvexteg.Run2Eg_start context.Live) = Some s /\
    rdvexteg.caller2 s =
      rdvexteg.PairEgReturned (util.mkTuple2 0%Z 0%Z)
        (Some (ErrorOf (AnyString "f2 panicked"))) /\
    rdv.at_pc (rdvexteg.outer (rdvexteg.member1 s)) = rdv.Exited /\
    rdv.at_pc (rdvexteg.outer (rdvexteg.member2 s)) = rdv.Exited.
Proof.
  intros g1 g2 member.
  eassert (Hrun : run (rdvexteg.Run2Eg_step g1 g2)
                    (member 0 ++ member 1 ++ [rdvexteg.EgMain true])
                    (rdvexteg.Run2Eg_start context.Live) = Some _)
    by (vm_compute; reflexivity).
  match type of Hrun with _ = Some ?s0 => set (s := s0) in * end.
  destruct (Run2Eg_returns g1 g2 _ _ _ Hrun) as (_ & Hret).
  destruct (Hret _ _ eq_refl) as (Ho1 & Ho2 & _).
  exists s. split; [exact Hrun|]. split; [reflexivity|]. split; [exact Ho1|exact Ho2].
Defined.

(** [f1] returns 7 and [f2] returns 8: when both members are over,
    [eg.Wait()] returns nil and [Run2Eg] returns the tuple (7, 8) with
    three more statements of its caller. *)
Lemma Run2Eg_drains_when_live_witness :
  let g1 : context.Context -> util.outcome Z := fun _ => util.Returned 7%Z None in
  let g2 : context.Context -> util.outcome Z := fun _ => util.Returned 8%Z None in
  let member j := [rdvexteg.EgOuter j true; rdvexteg.EgInner j; rdvexteg.EgInner j;
                   rdvexteg.EgInner j; rdvexteg.EgOuter j true; rdvexteg.EgOuter j true;
                   rdvexteg.EgOuter j true; rdvexteg.EgOuter j true] in
  exists s1 s2,
    run (rdvexteg.Run2Eg_step g1 g2) (member 0 ++ member 1)
        (rdvexteg.Run2Eg_start context.Live) = Some s1 /\
    run (rdvexteg.Run2Eg_step g1 g2) (replicate 3 (rdvexteg.EgMain true)) s1 = Some s2 /\
    rdvexteg.caller2 s2 = rdvexteg.PairEgReturned (util.mkTuple2 7%Z 8%Z) None.
Proof.
  intros g1 g2 member.
  eassert (Hrun : run (rdvexteg.Run2Eg_step g1 g2) (member 0 ++ member 1)
                    (rdvexteg.Run2Eg_start context.Live) = Some _)
    by (vm_compute; reflexivity).
  match type of Hrun with _ = Some ?s0 => set (s1 := s0) in * end.
  destruct (Run2Eg_drains_when_live g1 g2 _ _ s1 zero
              (errgroup.mkGroup 0 None (context.Fired context.Cancelled))
              Hrun eq_refl eq_refl)
    as ((s2 & Hrun2 & Hcl2) & _).
  exists s1, s2. split; [exact Hrun|]. split; [exact Hrun2|exact Hcl2].
Defined.


(** [GoSliceEg] on a function that returns 7 and one that panics: the
    record in its handle holds a nil slice and the error of the panic. *)
Lemma Go_fail_fast_records_witness :
  let g1 : context.Context -> util.outcome Z := fun _ => util.Returned 7%Z None in
  let g2 : context.Context -> util.outcome Z :=
    fun _ => util.Panicked (AnyString "f2 panicked") in
  let d := rdv.mkData (T := option (list Z)) None
             (Some (ErrorOf (AnyString "f2 panicked"))) true in
  let member j := [rdvexteg.EgOuter j true; rdvexteg.EgInner j; rdvexteg.EgInner j;
                   rdvexteg.EgInner j; rdvexteg.EgOuter j true; rdvexteg.EgOuter j true;
                   rdvexteg.EgOuter j true; rdvexteg.EgOuter j true] in
  let sched :=
    (gomulti.Inner <$> (member 0 ++ member 1 ++ [rdvexteg.EgMain true]))
    ++ replicate 2 gomulti.Outer in
  exists s,
    run (gomulti.GoSliceEg_step [g1; g2]) sched
        (gomulti.GoSliceEg_start context.Live [g1; g2]) = Some s /\
    gochan.buf (rdv.ch (rdv.rv (gomulti.handle s))) = [d] /\
    rdvexteg.caller (gomulti.body s) = rdvexteg.SliceEgReturned (rdv.value d) (rdv.err d).
Proof.
  intros g1 g2 d member sched.
  eassert (Hrun : run (gomulti.GoSliceEg_step [g1; g2]) sched
                    (gomulti.GoSliceEg_start context.Live [g1; g2]) = Some _)
    by (vm_compute; reflexivity).
  match type of Hrun with _ = Some ?s0 => set (s := s0) in * end.
  destruct Go_fail_fast_records as (Hslice & _).
  destruct (Hslice Z _ [g1; g2] _ _ s Hrun) as (_ & Hsent).
  assert (Hd : gomulti.sent s d) by (right; left).
  destruct (Hsent d Hd) as (_ & Hret & _).
  exists s. split; [exact Hrun|]. split; [reflexivity|exact Hret].
Defined.
